(** * Ready-mix concrete dispatch: trip construction and fleet scheduling

    A shallow embedding of [create_route.py] (and of its variant [test.py],
    which differs in the pooling key and in the small-truck-avoidance flag).

    Numbers are the binary64 floats of the source ([PrimFloat]): NaN,
    infinities and rounding behave as in Python.  Code that can raise, or
    loop for ever, lives in the [result] monad. *)

From Stdlib Require Import ZArith Bool String Ascii List Floats Lia.
From Stdlib Require Import Permutation Sorted DecimalString.
Import ListNotations.

#[local] Set Warnings "-inexact-float".
#[local] Open Scope float_scope.

(* ================================================================== *)
(** ** Outcomes of a computation *)

(** The Python exceptions the modelled code can meet. *)
Inductive exn : Type :=
| ValueError
| OverflowError
| IndexError.

(** [Ok a]: the code returned [a]; [Raise e]: it raised; [OutOfFuel]:
    the model's step budget ran out before the code returned. *)
Inductive result (A : Type) : Type :=
| Ok (a : A)
| Raise (e : exn)
| OutOfFuel.

Arguments Ok {A} a.
Arguments Raise {A} e.
Arguments OutOfFuel {A}.

Definition bind {A B : Type} (m : result A) (f : A -> result B) : result B :=
  match m with
  | Ok a => f a
  | Raise e => Raise e
  | OutOfFuel => OutOfFuel
  end.

Notation "x <- m ;; k" := (bind m (fun x => k))
  (at level 61, m at next level, right associativity).

(** The outcome of a call into a library: a value or an exception. *)
Inductive checked (A : Type) : Type :=
| Value (a : A)
| Error (e : exn).

Arguments Value {A} a.
Arguments Error {A} e.

Definition lift {A : Type} (c : checked A) : result A :=
  match c with
  | Value a => Ok a
  | Error e => Raise e
  end.

(** [l[n]] of Python: [IndexError] out of range. *)
Definition get_item {A : Type} (l : list A) (n : nat) : result A :=
  match nth_error l n with
  | Some x => Ok x
  | None => Raise IndexError
  end.

(** A left fold whose step may raise. *)
Fixpoint foldM {S A : Type} (f : S -> A -> result S) (s : S) (l : list A)
  : result S :=
  match l with
  | [] => Ok s
  | x :: l' => s' <- f s x ;; foldM f s' l'
  end.

(** [enumerate(l)], counting from [n]. *)
Fixpoint enumerate_from {A : Type} (n : nat) (l : list A) : list (nat * A) :=
  match l with
  | [] => []
  | x :: l' => (n, x) :: enumerate_from (S n) l'
  end.

Definition enumerate {A : Type} (l : list A) : list (nat * A) :=
  enumerate_from 0 l.

(* ================================================================== *)
(** ** Constants *)

Definition BIG_TRUCK : float := 12.
Definition MEDIUM_TRUCK : float := 7.
Definition SMALL_TRUCK : float := 3.

Definition TIME_LOADING : float := 0.25.
Definition TIME_SERVICE : float := 0.75.
Definition SPEED_KMH : float := 60.
Definition START_HOUR : float := 8.

Definition MAX_CONCRETE_LIFESPAN : float := 6.

(* ================================================================== *)
(** ** Data model ([utils.py]) *)

Record Coordinates : Type := {
  latitude : float;
  longitude : float
}.

(** An attribute of a Python object holds a reference.  For [Dmax] the
    reference matters, because the pools are keyed by it and a
    dictionary compares its keys by identity before it compares them by
    value: [Dmax_id] is the identity ([id(order.Dmax)]) of the float
    object the attribute refers to, [Dmax] its value. *)
Record Orders : Type := {
  customer_id : Z;
  coordinates : Coordinates;
  order_volume : float;
  strength : string;
  Dmax : float;
  Dmax_id : nat;
  consistency : string;
  exposure : string;
  date : Z
}.

Definition PLANT_COORDS : Coordinates :=
  {| latitude := 47.624; longitude := 19.0655 |}.

(** An entry of [leftovers]. *)
Record LeftoverItem : Type := {
  lo_customer_id : Z;
  lo_volume : float;
  lo_coordinates : Coordinates;
  lo_full_order : Orders
}.

Inductive RouteType : Type := Direct | Shared | Leftover.

(** A trip dictionary.  [truck_type] stays a string, as in the source,
    where it is compared and looked up by name. *)
Record Trip : Type := {
  truck_type : string;
  stops : list Z;
  volume : float;
  duration : float;
  concrete_age_at_finish : option float;
  route_type : RouteType
}.

(** The capacity table [truck_caps] of [calculate_statistics], with its
    [.get(t_type, 0.0)] default. *)
Definition truck_caps (t_type : string) : float :=
  if String.eqb t_type "Big_Truck" then BIG_TRUCK
  else if String.eqb t_type "Medium_Truck" then MEDIUM_TRUCK
  else if String.eqb t_type "Small_Truck" then SMALL_TRUCK
  else 0.

(* ================================================================== *)
(** ** Binary64 values

    The exact value of a float, counted in units of 2^-1074 (the
    smallest positive binary64 number), so that every finite float has
    an integer value; an infinity is given a value beyond all of them. *)

Definition SFval (f : spec_float) : Z :=
  match f with
  | S754_zero _ => 0
  | S754_infinity s => cond_Zopp s (2 ^ 2100)
  | S754_nan => 0
  | S754_finite s m e => cond_Zopp s (Zpos m * 2 ^ (e + 1074))
  end%Z.

Definition SFis_nan (f : spec_float) : bool :=
  match f with S754_nan => true | _ => false end.

Definition SFfinite (f : spec_float) : bool :=
  match f with
  | S754_zero _ | S754_finite _ _ _ => true
  | _ => false
  end.

Definition fval (x : float) : Z := SFval (Prim2SF x).
Definition ffinite (x : float) : bool := SFfinite (Prim2SF x).

(** The value of [1.0]. *)
Definition one : Z := (2 ^ 1074)%Z.

(** A value that some finite binary64 float has. *)
Definition representable (V : Z) : Prop :=
  (V = 0 \/
   exists K g, Z.abs V = K * 2 ^ g /\ 0 < K < 2 ^ 53 /\ 0 <= g <= 2045)%Z.

(** A negative number (zeros and NaN are not). *)
Definition SFnegative (f : spec_float) : bool :=
  match f with
  | S754_infinity s | S754_finite s _ _ => s
  | _ => false
  end.

(** A float that is a number and not below zero. *)
Definition nonneg (x : float) : bool := negb (is_nan x) && negb (x <? 0).

(* ================================================================== *)
(** ** The [math] module *)

(** [math.radians]: a multiplication by the constant [pi / 180]. *)
Definition math_pi : float := 0x1.921fb54442d18p+1.
Definition math_radians (x : float) : float := x * (math_pi / 180).

(** [math.sqrt]: a domain error below zero, IEEE otherwise. *)
Definition math_sqrt (x : float) : result float :=
  if x <? 0 then Raise ValueError else Ok (sqrt x).

Section Engine.

#[local] Set Default Proof Using "Type".

(** What the C library computes is left open: the sine, the cosine, the
    two-argument arc tangent and the float power, each of which may
    raise (a domain or range error). *)
Variable math_sin : float -> checked float.
Variable math_cos : float -> checked float.
Variable math_atan2 : float -> float -> checked float.
Variable float_pow : float -> float -> checked float.

(** The module-level flag of [test.py]; [create_route.py] behaves as
    with [false]. *)
Variable AVOID_SMALL_TRUCKS : bool.

(* ------------------------------------------------------------------ *)
(** ** Distance and travel time *)

Definition calculate_distance (coord1 coord2 : Coordinates) : result float :=
  if is_nan (latitude coord1) || is_nan (longitude coord1) ||
     is_nan (latitude coord2) || is_nan (longitude coord2)
  then Ok 50
  else
    let R := 6371 in
    let lat1 := math_radians (latitude coord1) in
    let lon1 := math_radians (longitude coord1) in
    let lat2 := math_radians (latitude coord2) in
    let lon2 := math_radians (longitude coord2) in
    s1 <- lift (math_sin ((lat2 - lat1) / 2)) ;;
    p1 <- lift (float_pow s1 2) ;;
    c1 <- lift (math_cos lat1) ;;
    c2 <- lift (math_cos lat2) ;;
    s2 <- lift (math_sin ((lon2 - lon1) / 2)) ;;
    p2 <- lift (float_pow s2 2) ;;
    let a := p1 + c1 * c2 * p2 in
    q1 <- math_sqrt a ;;
    q2 <- math_sqrt (1 - a) ;;
    t <- lift (math_atan2 q1 q2) ;;
    let c := 2 * t in
    Ok (R * c).

Definition get_travel_time (dist_km : float) : float :=
  if is_nan dist_km then 1
  else (dist_km / SPEED_KMH) * 0x1.199999999999ap+0 (* 1.1 *).

Definition get_best_truck (volume : float) : string * float :=
  if volume <=? SMALL_TRUCK then
    if AVOID_SMALL_TRUCKS then ("Medium_Truck"%string, MEDIUM_TRUCK)
    else ("Small_Truck"%string, SMALL_TRUCK)
  else if volume <=? MEDIUM_TRUCK then ("Medium_Truck"%string, MEDIUM_TRUCK)
  else ("Big_Truck"%string, BIG_TRUCK).

(* ------------------------------------------------------------------ *)
(** ** Compatibility pools *)

(** [create_pools], for any key extractor.  The dictionary is an
    association list in insertion order (the order [pools.values()]
    iterates in); a key already present gets the order appended to its
    list, a new key gets a new entry at the end. *)
Section Pools.
Context {K : Type}.
Variable key : Orders -> K.
Variable key_eqb : K -> K -> bool.

Fixpoint pools_append (pools : list (K * list Orders)) (k : K) (order : Orders)
  : list (K * list Orders) :=
  match pools with
  | [] => [(k, [order])]
  | (k', os) :: rest =>
      if key_eqb k' k then (k', os ++ [order]) :: rest
      else (k', os) :: pools_append rest k order
  end.

Definition create_pools_by (orders : list Orders) : list (K * list Orders) :=
  fold_left (fun pools order => pools_append pools (key order) order) orders [].

End Pools.

(** A reference to a float object: its identity and its value. *)
Definition float_ref : Type := (nat * float)%type.

(** How a dictionary compares two float components of a key: [x is y or
    x == y].  The same object matches itself even when it is a NaN; two
    different objects match when [==] holds, which it never does for a
    NaN. *)
Definition float_ref_eqb (r1 r2 : float_ref) : bool :=
  Nat.eqb (fst r1) (fst r2) || (snd r1 =? snd r2).

(** The key of [create_route.py]: all four material fields. *)
Definition pool_key (order : Orders) : string * float_ref * string * string :=
  (strength order, (Dmax_id order, Dmax order), consistency order,
   exposure order).

Definition pool_key_eqb (k1 k2 : string * float_ref * string * string) : bool :=
  let '(s1, d1, c1, e1) := k1 in
  let '(s2, d2, c2, e2) := k2 in
  String.eqb s1 s2 && float_ref_eqb d1 d2 && String.eqb c1 c2
  && String.eqb e1 e2.

Definition create_pools (orders : list Orders) :=
  create_pools_by pool_key pool_key_eqb orders.

(** The key of [test.py]: [exposure] is dropped. *)
Definition pool_key_test (order : Orders) : string * float_ref * string :=
  (strength order, (Dmax_id order, Dmax order), consistency order).

Definition pool_key_test_eqb (k1 k2 : string * float_ref * string) : bool :=
  let '(s1, d1, c1) := k1 in
  let '(s2, d2, c2) := k2 in
  String.eqb s1 s2 && float_ref_eqb d1 d2 && String.eqb c1 c2.

Definition create_pools_test (orders : list Orders) :=
  create_pools_by pool_key_test pool_key_test_eqb orders.

(* ------------------------------------------------------------------ *)
(** ** Priority ordering *)

(** [l.sort(key=..., reverse=True)]: the stable descending sort, written
    with the only comparison Python uses, [<] on keys.  On keys that [<]
    orders totally (no NaN) every stable sort returns this list. *)
Section SortDesc.
Context {A : Type}.
Variable key : A -> float.

Fixpoint insert_desc (x : A) (l : list A) : list A :=
  match l with
  | [] => [x]
  | y :: l' => if key x <? key y then y :: insert_desc x l' else x :: l
  end.

Definition sort_desc (l : list A) : list A := fold_right insert_desc [] l.

End SortDesc.

(** The random source, threaded as a state: one draw of
    [random.random()], and [random.shuffle]. *)
Variable rng : Type.
Variable random_random : rng -> float * rng.
Variable random_shuffle : rng -> list Orders -> list Orders * rng.

Definition prioritize_pool_orders (pool : list Orders) (g : rng)
  : list Orders * rng :=
  let large_orders := filter (fun o => MEDIUM_TRUCK <=? order_volume o) pool in
  let small_orders := filter (fun o => order_volume o <? MEDIUM_TRUCK) pool in
  let (u, g1) := random_random g in
  let is_priority_mode := u <? 0.45 in
  if is_priority_mode then
    (sort_desc order_volume large_orders ++ small_orders, g1)
  else
    random_shuffle g1 (large_orders ++ small_orders).

(* ------------------------------------------------------------------ *)
(** ** Route sequencing *)

Definition optimize_stop_sequence (stop_a stop_b : LeftoverItem)
  : result (list LeftoverItem) :=
  dist_plant_a <- calculate_distance PLANT_COORDS (lo_coordinates stop_a) ;;
  dist_plant_b <- calculate_distance PLANT_COORDS (lo_coordinates stop_b) ;;
  dist_a_b <- calculate_distance (lo_coordinates stop_a) (lo_coordinates stop_b) ;;
  let len_a_b := dist_plant_a + dist_a_b in
  let len_b_a := dist_plant_b + dist_a_b in
  if len_a_b <=? len_b_a then Ok [stop_a; stop_b] else Ok [stop_b; stop_a].

(* ------------------------------------------------------------------ *)
(** ** Step 1 of [generate_trips_for_pool]: full loads *)

(** The Direct trip of one loop iteration (the warning printed when the
    concrete age exceeds the lifespan changes no data and is left out;
    the age itself is kept in the trip). *)
Definition direct_trip (order : Orders) (current_truck_type : string)
  (current_truck_cap : float) : result Trip :=
  dist <- calculate_distance PLANT_COORDS (coordinates order) ;;
  let t_travel := get_travel_time dist in
  let concrete_age := TIME_LOADING + t_travel + TIME_SERVICE in
  let duration := TIME_LOADING + t_travel + TIME_SERVICE + t_travel in
  Ok {| truck_type := current_truck_type;
        stops := [customer_id order];
        volume := current_truck_cap;
        duration := duration;
        concrete_age_at_finish := Some concrete_age;
        route_type := Direct |}.

Definition leftover_item (order : Orders) (vol : float) : LeftoverItem :=
  {| lo_customer_id := customer_id order;
     lo_volume := vol;
     lo_coordinates := coordinates order;
     lo_full_order := order |}.

(** [while vol > 0: ...] for one order.  One unit of fuel pays for one
    evaluation of the loop test. *)
Fixpoint direct_loop (fuel : nat) (order : Orders) (vol : float)
  (trips : list Trip) (leftovers : list LeftoverItem)
  : result (list Trip * list LeftoverItem) :=
  match fuel with
  | O => OutOfFuel
  | S fuel' =>
      if 0 <? vol then
        if BIG_TRUCK <=? vol then
          trip <- direct_trip order "Big_Truck" BIG_TRUCK ;;
          direct_loop fuel' order (vol - BIG_TRUCK) (trips ++ [trip]) leftovers
        else if MEDIUM_TRUCK <=? vol then
          trip <- direct_trip order "Medium_Truck" MEDIUM_TRUCK ;;
          direct_loop fuel' order (vol - MEDIUM_TRUCK) (trips ++ [trip]) leftovers
        else
          direct_loop fuel' order 0 trips (leftovers ++ [leftover_item order vol])
      else Ok (trips, leftovers)
  end.

Definition direct_step (fuel : nat) (st : list Trip * list LeftoverItem)
  (order : Orders) : result (list Trip * list LeftoverItem) :=
  direct_loop fuel order (order_volume order) (fst st) (snd st).

(* ------------------------------------------------------------------ *)
(** ** Step 2 of [generate_trips_for_pool]: pairing the leftovers *)

(** The variables of the partner search.  [best_match_idx] is [None]
    where the source holds [-1]. *)
Record PairSearch : Type := {
  best_match_idx : option nat;
  best_metric : float;
  chosen_truck_type : string;
  chosen_truck_cap : float;
  best_stops_order : list LeftoverItem;
  best_duration : float
}.

Definition search_init : PairSearch :=
  {| best_match_idx := None;
     best_metric := infinity;
     chosen_truck_type := "";
     chosen_truck_cap := 0;
     best_stops_order := [];
     best_duration := 0 |}.

(** [j in processed_indices] *)
Definition processed_mem (j : nat) (processed : list nat) : bool :=
  existsb (Nat.eqb j) processed.

(** The body of the inner loop, for candidate [item_b] at index [j]. *)
Definition consider_partner (i : nat) (item_a : LeftoverItem)
  (processed : list nat) (st : PairSearch) (jb : nat * LeftoverItem)
  : result PairSearch :=
  let (j, item_b) := jb in
  if Nat.eqb i j || processed_mem j processed then Ok st
  else
    let combined_vol := lo_volume item_a + lo_volume item_b in
    if BIG_TRUCK <? combined_vol then Ok st
    else
      let (t_type, t_cap) := get_best_truck combined_vol in
      stops <- optimize_stop_sequence item_a item_b ;;
      stop1 <- get_item stops 0 ;;
      d1 <- calculate_distance PLANT_COORDS (lo_coordinates stop1) ;;
      let t1 := get_travel_time d1 in
      stop2 <- get_item stops 1 ;;
      d2 <- calculate_distance (lo_coordinates stop1) (lo_coordinates stop2) ;;
      let t2 := get_travel_time d2 in
      d3 <- calculate_distance (lo_coordinates stop2) PLANT_COORDS ;;
      let t3 := get_travel_time d3 in
      let concrete_age_at_end :=
        TIME_LOADING + t1 + TIME_SERVICE + t2 + TIME_SERVICE in
      if MAX_CONCRETE_LIFESPAN <? concrete_age_at_end then Ok st
      else
        let waste := t_cap - combined_vol in
        let score := d2 + waste * 5 in
        if score <? best_metric st then
          Ok {| best_match_idx := Some j;
                best_metric := score;
                chosen_truck_type := t_type;
                chosen_truck_cap := t_cap;
                best_stops_order := stops;
                best_duration :=
                  TIME_LOADING + t1 + TIME_SERVICE + t2 + TIME_SERVICE + t3 |}
        else Ok st.

Definition find_partner (leftovers : list LeftoverItem) (i : nat)
  (item_a : LeftoverItem) (processed : list nat) : result PairSearch :=
  foldM (consider_partner i item_a processed) search_init (enumerate leftovers).

Definition leftover_trip (item_a : LeftoverItem) : result Trip :=
  let (t_type, t_cap) := get_best_truck (lo_volume item_a) in
  dist <- calculate_distance PLANT_COORDS (lo_coordinates item_a) ;;
  let t_travel := get_travel_time dist in
  let duration := TIME_LOADING + t_travel + TIME_SERVICE + t_travel in
  Ok {| truck_type := t_type;
        stops := [lo_customer_id item_a];
        volume := lo_volume item_a;
        duration := duration;
        concrete_age_at_finish := None;
        route_type := Leftover |}.

(** The body of the outer loop, for [item_a] at index [i]; the state is
    [trips] and [processed_indices]. *)
Definition pair_step (leftovers : list LeftoverItem)
  (st : list Trip * list nat) (ia : nat * LeftoverItem)
  : result (list Trip * list nat) :=
  let (trips, processed) := st in
  let (i, item_a) := ia in
  if processed_mem i processed then Ok st
  else
    s <- find_partner leftovers i item_a processed ;;
    match best_match_idx s with
    | Some idx =>
        item_b <- get_item leftovers idx ;;
        stop1 <- get_item (best_stops_order s) 0 ;;
        stop2 <- get_item (best_stops_order s) 1 ;;
        Ok (trips ++
              [ {| truck_type := chosen_truck_type s;
                   stops := [lo_customer_id stop1; lo_customer_id stop2];
                   volume := lo_volume item_a + lo_volume item_b;
                   duration := best_duration s;
                   concrete_age_at_finish := None;
                   route_type := Shared |} ],
            idx :: i :: processed)
    | None =>
        trip <- leftover_trip item_a ;;
        Ok (trips ++ [trip], i :: processed)
    end.

Definition pair_leftovers (leftovers : list LeftoverItem) (trips : list Trip)
  : result (list Trip) :=
  st <- foldM (pair_step leftovers) (trips, []) (enumerate leftovers) ;;
  Ok (fst st).

Definition generate_trips_for_pool (fuel : nat) (pool : list Orders) (g : rng)
  : result (list Trip * rng) :=
  let (sorted_pool, g') := prioritize_pool_orders pool g in
  st <- foldM (direct_step fuel) ([], []) sorted_pool ;;
  let leftovers := sort_desc lo_volume (snd st) in
  trips <- pair_leftovers leftovers (fst st) ;;
  Ok (trips, g').

(* ------------------------------------------------------------------ *)
(** ** Fleet scheduling *)

(** [int(x)] of a float: truncation toward zero. *)
Definition float_to_int (x : float) : result Z :=
  match Prim2SF x with
  | S754_zero _ => Ok 0%Z
  | S754_infinity _ => Raise OverflowError
  | S754_nan => Raise ValueError
  | S754_finite s m e =>
      Ok (cond_Zopp s
            (if (0 <=? e)%Z then Z.shiftl (Zpos m) e
             else Z.shiftr (Zpos m) (- e)))
  end.

(** The conversion of an [int] operand to float (round to nearest even,
    [OverflowError] beyond the largest float). *)
Definition int_to_float (z : Z) : result float :=
  let f := SF2Prim (binary_normalize prec emax z 0 false) in
  if is_infinity f then Raise OverflowError else Ok f.

Definition string_of_Z (z : Z) : string :=
  NilZero.string_of_int (Z.to_int z).

(** The format [{z:02d}]. *)
Definition format_02d (z : Z) : string :=
  let s := string_of_Z z in
  if (String.length s <? 2)%nat then ("0" ++ s)%string else s.

Definition format_time (hours_float : float) : result string :=
  if is_nan hours_float then Ok "ERROR"%string
  else
    hours <- float_to_int hours_float ;;
    hours_f <- int_to_float hours ;;
    minutes <- float_to_int ((hours_float - hours_f) * 60) ;;
    let '(hours, day_offset) :=
      if (24 <=? hours)%Z
      then ((hours mod 24)%Z, (" (+" ++ string_of_Z (hours / 24) ++ "d)")%string)
      else (hours, ""%string) in
    Ok (format_02d hours ++ ":" ++ format_02d minutes ++ day_offset)%string.

(** The built-in [round(x, ndigits)] on floats. *)
Variable round_ndigits : float -> Z -> float.

Record FleetTruck : Type := {
  ft_id : Z;
  ft_type : string;
  ft_available_at : float
}.

(** The [schedule] dictionary attached to a trip. *)
Record Schedule : Type := {
  truck_id : Z;
  start_time : string;
  end_time : string;
  duration_h : float
}.

Record ScheduledTrip : Type := {
  st_trip : Trip;
  st_schedule : Schedule
}.

(** The reuse search: the first truck, in fleet order, of the needed type
    that is free at [start_time] ([None] where the source keeps [-1]). *)
Fixpoint find_truck (fleet : list FleetTruck) (needed_type : string)
  (start_time : float) (idx : nat) : option nat :=
  match fleet with
  | [] => None
  | truck :: rest =>
      if String.eqb (ft_type truck) needed_type
         && (ft_available_at truck <=? start_time)
      then Some idx
      else find_truck rest needed_type start_time (S idx)
  end.

(** [fleet[idx]['available_at'] = end_time] *)
Fixpoint set_available_at (fleet : list FleetTruck) (idx : nat) (end_time : float)
  : list FleetTruck :=
  match fleet, idx with
  | [], _ => []
  | truck :: rest, O =>
      {| ft_id := ft_id truck; ft_type := ft_type truck;
         ft_available_at := end_time |} :: rest
  | truck :: rest, S idx' => truck :: set_available_at rest idx' end_time
  end.

(** The scheduler's variables between two trips. *)
Record FleetState : Type := {
  fleet : list FleetTruck;
  plant_ready_time : float;
  truck_id_counter : Z
}.

Definition fleet_init : FleetState :=
  {| fleet := []; plant_ready_time := START_HOUR; truck_id_counter := 1 |}.

(** What one trip is given, before the times are rendered. *)
Record Slot : Type := {
  slot_truck_id : Z;
  slot_type : string;
  slot_start : float;
  slot_end : float
}.

(** The assignment made by one iteration of the loop of [schedule_fleet]. *)
Definition assign_trip (st : FleetState) (trip : Trip)
  : result (FleetState * Slot) :=
  let needed_type := truck_type trip in
  let start_time := plant_ready_time st in
  match find_truck (fleet st) needed_type start_time 0 with
  | Some best_truck_idx =>
      truck <- get_item (fleet st) best_truck_idx ;;
      let assigned_truck_id := ft_id truck in
      let end_time := start_time + duration trip in
      Ok ({| fleet := set_available_at (fleet st) best_truck_idx end_time;
             plant_ready_time := plant_ready_time st + TIME_LOADING;
             truck_id_counter := truck_id_counter st |},
          {| slot_truck_id := assigned_truck_id; slot_type := needed_type;
             slot_start := start_time; slot_end := end_time |})
  | None =>
      let assigned_truck_id := truck_id_counter st in
      let end_time := start_time + duration trip in
      Ok ({| fleet := fleet st ++
                        [ {| ft_id := assigned_truck_id;
                             ft_type := needed_type;
                             ft_available_at := end_time |} ];
             plant_ready_time := plant_ready_time st + TIME_LOADING;
             truck_id_counter := (truck_id_counter st + 1)%Z |},
          {| slot_truck_id := assigned_truck_id; slot_type := needed_type;
             slot_start := start_time; slot_end := end_time |})
  end.

(** [trip['schedule'] = {...}]: the slot with its times rendered. *)
Definition render_schedule (trip : Trip) (s : Slot) : result ScheduledTrip :=
  st_txt <- format_time (slot_start s) ;;
  en_txt <- format_time (slot_end s) ;;
  Ok {| st_trip := trip;
        st_schedule :=
          {| truck_id := slot_truck_id s;
             start_time := st_txt;
             end_time := en_txt;
             duration_h := round_ndigits (duration trip) 2 |} |}.

(** The list handed to [schedule_fleet] holds references to trip
    dictionaries, and so does the [schedule] list it returns: an element
    is the identity of a dictionary with its contents, and one
    dictionary may stand in a list more than once.  The assignment
    [trip['schedule'] = {...}] writes into the dictionary itself, so
    every element of [schedule] that is this dictionary shows the new
    value. *)
Definition write_schedule (id : nat) (entry : ScheduledTrip)
  (schedule : list (nat * ScheduledTrip)) : list (nat * ScheduledTrip) :=
  map (fun e => if Nat.eqb (fst e) id then (id, entry) else e) schedule.

(** One iteration of the loop of [schedule_fleet]; the state is the
    scheduler's variables and the [schedule] list. *)
Definition schedule_step (acc : FleetState * list (nat * ScheduledTrip))
  (ref : nat * Trip) : result (FleetState * list (nat * ScheduledTrip)) :=
  let (id, trip) := ref in
  r <- assign_trip (fst acc) trip ;;
  entry <- render_schedule trip (snd r) ;;
  Ok (fst r, write_schedule id entry (snd acc) ++ [(id, entry)]).

Definition schedule_fleet (trips : list (nat * Trip))
  : result (list (nat * ScheduledTrip)) :=
  r <- foldM schedule_step (fleet_init, []) trips ;;
  Ok (snd r).

(** The slots alone, as the loop assigns them. *)
Fixpoint assign_all (st : FleetState) (trips : list Trip)
  : result (FleetState * list Slot) :=
  match trips with
  | [] => Ok (st, [])
  | trip :: rest =>
      r <- assign_trip st trip ;;
      r' <- assign_all (fst r) rest ;;
      Ok (fst r', snd r :: snd r')
  end.

(* ------------------------------------------------------------------ *)
(** ** The entry point *)

(** [for pool_orders in pools.values(): all_trips.extend(...)] *)
Fixpoint generate_all_trips {K : Type} (fuel : nat)
  (pools : list (K * list Orders)) (g : rng) : result (list Trip * rng) :=
  match pools with
  | [] => Ok ([], g)
  | (_, pool_orders) :: rest =>
      r <- generate_trips_for_pool fuel pool_orders g ;;
      r' <- generate_all_trips fuel rest (snd r) ;;
      Ok (fst r ++ fst r', snd r')
  end.

(** Every trip of [all_trips] is a dictionary of its own: its position
    in the list serves as its identity. *)
Definition create_route (fuel : nat) (orders : list Orders) (g : rng)
  : result (list (nat * ScheduledTrip)) :=
  let pools := create_pools orders in
  r <- generate_all_trips fuel pools g ;;
  schedule_fleet (enumerate (fst r)).

(** [create_route] of [test.py]: the same text, over the pools of
    [test.py] (and with its small-truck flag in [get_best_truck]). *)
Definition create_route_test (fuel : nat) (orders : list Orders) (g : rng)
  : result (list (nat * ScheduledTrip)) :=
  let pools := create_pools_test orders in
  r <- generate_all_trips fuel pools g ;;
  schedule_fleet (enumerate (fst r)).

(* ------------------------------------------------------------------ *)
(** ** Statistics ([calculate_statistics] of [test.py]) *)

(** A route as [calculate_statistics] reads it: a trip dictionary and
    its [schedule] entry, when it has one. *)
Definition Route : Type := (Trip * option Schedule)%type.

(** [if t_type in trip_counts: trip_counts[t_type] += 1] on a dictionary
    kept as an association list in insertion order. *)
Definition count_trip (t_type : string) (counts : list (string * nat))
  : list (string * nat) :=
  map (fun p => if String.eqb (fst p) t_type then (fst p, S (snd p)) else p)
      counts.

(** [id_set.add(t_id)]: a set of truck ids, kept without repetitions. *)
Definition set_add_id (t_id : Z) (id_set : list Z) : list Z :=
  if existsb (Z.eqb t_id) id_set then id_set else id_set ++ [t_id].

(** [if t_type in unique_fleet ...: unique_fleet[t_type].add(t_id)] *)
Definition fleet_add (t_type : string) (t_id : Z)
  (sets : list (string * list Z)) : list (string * list Z) :=
  map (fun p => if String.eqb (fst p) t_type
                then (fst p, set_add_id t_id (snd p)) else p) sets.

(** The variables of [calculate_statistics]. *)
Record Totals : Type := {
  total_delivered_volume : float;
  total_wasted_space : float;
  total_capacity_used : float;
  trip_counts : list (string * nat);
  unique_fleet : list (string * list Z)
}.

Definition totals_init : Totals :=
  {| total_delivered_volume := 0;
     total_wasted_space := 0;
     total_capacity_used := 0;
     trip_counts := [("Big_Truck", 0%nat); ("Medium_Truck", 0%nat);
                     ("Small_Truck", 0%nat)]%string;
     unique_fleet := [("Big_Truck", []); ("Medium_Truck", []);
                      ("Small_Truck", [])]%string |}.

(** The body of the loop over the routes ([t_id] is [None] where the
    source holds ['N/A']; the line printed for the trip is left out). *)
Definition statistics_step (acc : Totals) (route : Route) : Totals :=
  let (trip, sched) := route in
  let vol := volume trip in
  let t_type := truck_type trip in
  let t_id := option_map truck_id sched in
  let cap := truck_caps t_type in
  let waste := cap - vol in
  let waste := if waste <? 0 then 0 else waste in
  {| total_delivered_volume := total_delivered_volume acc + vol;
     total_wasted_space := total_wasted_space acc + waste;
     total_capacity_used := total_capacity_used acc + cap;
     trip_counts := count_trip t_type (trip_counts acc);
     unique_fleet :=
       match t_id with
       | Some id => fleet_add t_type id (unique_fleet acc)
       | None => unique_fleet acc
       end |}.

(** What [calculate_statistics] computes: the totals, of which it
    returns [total_delivered_volume] and [total_wasted_space], and the
    figures it prints, the efficiency in percent, the number of trucks
    of each type and their sum (the layout of the printed text is left
    out). *)
Record Statistics : Type := {
  totals : Totals;
  efficiency : float;
  fleet_sizes : list (string * nat);
  total_trucks_needed : nat
}.

Definition calculate_statistics (generated_routes : list Route) : Statistics :=
  let t := fold_left statistics_step generated_routes totals_init in
  let efficiency :=
    if 0 <? total_capacity_used t
    then (total_delivered_volume t / total_capacity_used t) * 100
    else 0 in
  let sizes := map (fun p => (fst p, length (snd p))) (unique_fleet t) in
  {| totals := t;
     efficiency := efficiency;
     fleet_sizes := sizes;
     total_trucks_needed := fold_left (fun n p => (n + snd p)%nat) sizes 0%nat |}.

(** The routes [schedule_fleet] returns, as [calculate_statistics] reads
    them. *)
Definition routes_of (schedule : list (nat * ScheduledTrip)) : list Route :=
  map (fun e => (st_trip (snd e), Some (st_schedule (snd e)))) schedule.

(* ================================================================== *)
(** * Specification *)

(** [b] may follow [a] in a list that descends by [key]. *)
Definition desc {A : Type} (key : A -> float) (a b : A) : Prop :=
  (key b <=? key a) = true.

(** What holds of the pool dictionary once the orders [done] are in it. *)
Definition pools_inv {K : Type} (key : Orders -> K) (key_eqb : K -> K -> bool)
  (done : list Orders) (P : list (K * list Orders)) : Prop :=
  ForallOrdPairs (fun a b => key_eqb a b = false) (map fst P) /\
  Forall (fun p => snd p = filter (fun o => key_eqb (fst p) (key o)) done /\
                   snd p <> [] /\ key_eqb (fst p) (fst p) = true) P /\
  Forall (fun o => exists p, In p P /\ key_eqb (fst p) (key o) = true) done.

(** ** Compatibility pools *)

(** A pool dictionary that partitions [orders] stably by key. *)
Definition stable_partition {K : Type} (key : Orders -> K)
  (key_eqb : K -> K -> bool) (orders : list Orders)
  (pools : list (K * list Orders)) : Prop :=
  Permutation (concat (map snd pools)) orders /\
  ForallOrdPairs (fun a b => key_eqb a b = false) (map fst pools) /\
  Forall (fun p => snd p = filter (fun o => key_eqb (fst p) (key o)) orders /\
                   snd p <> []) pools.

(** Two orders hold the same [Dmax] as a dictionary key has it: the same
    float object, or two equal numbers. *)
Definition same_Dmax (a b : Orders) : bool :=
  Nat.eqb (Dmax_id a) (Dmax_id b) || (Dmax a =? Dmax b).

(** The material-compatibility key of [create_route.py]: strength class,
    maximum aggregate size, consistency class and exposure class. *)
Definition same_material (a b : Orders) : bool :=
  String.eqb (strength a) (strength b) && same_Dmax a b
  && String.eqb (consistency a) (consistency b)
  && String.eqb (exposure a) (exposure b).

(** The key of [test.py], which leaves the exposure class out. *)
Definition same_material_test (a b : Orders) : bool :=
  String.eqb (strength a) (strength b) && same_Dmax a b
  && String.eqb (consistency a) (consistency b).

(** The pools (the values of the dictionary, in its order) partition
    [orders] stably by [same]: together they hold the orders, each as
    often as the input does; orders of two different pools never have
    the same key; a pool is not empty and holds, in input order, exactly
    the orders that have the key of any of its members; so two orders
    share a pool exactly when they have the same key. *)
Definition partitions_stably (same : Orders -> Orders -> bool)
  (orders : list Orders) (pools : list (list Orders)) : Prop :=
  Permutation (concat pools) orders /\
  ForallOrdPairs (fun p q => forall a b, In a p -> In b q -> same a b = false)
                 pools /\
  Forall (fun p => p <> [] /\
                   forall o, In o p -> p = filter (same o) orders) pools /\
  (forall a b, In a orders -> In b orders ->
               (same a b = true <-> exists p, In p pools /\ In a p /\ In b p)).

(** A float object has one value: orders whose [Dmax] is the same object
    hold the same value. *)
Definition one_value_per_object (orders : list Orders) : Prop :=
  forall a b, In a orders -> In b orders ->
              Dmax_id a = Dmax_id b -> Dmax a = Dmax b.

(** The comparison of [float_ref_eqb], split by case: a NaN matches the
    same object only, a number matches every equal number. *)
Definition float_ref_same (r1 r2 : float_ref) : bool :=
  if is_nan (snd r1) then is_nan (snd r2) && Nat.eqb (fst r1) (fst r2)
  else snd r1 =? snd r2.

Definition pool_key_same (k1 k2 : string * float_ref * string * string) : bool :=
  let '(s1, d1, c1, e1) := k1 in
  let '(s2, d2, c2, e2) := k2 in
  String.eqb s1 s2 && float_ref_same d1 d2 && String.eqb c1 c2
  && String.eqb e1 e2.

Definition pool_key_test_same (k1 k2 : string * float_ref * string) : bool :=
  let '(s1, d1, c1) := k1 in
  let '(s2, d2, c2) := k2 in
  String.eqb s1 s2 && float_ref_same d1 d2 && String.eqb c1 c2.

(** ** Priority ordering *)

(** The priority order of a pool: the large orders (volume >= 7.0),
    sorted descending by volume with equal volumes left in their input
    order, followed by the small orders (volume < 7.0) in their input
    order; every large order stands before every small one. *)
Definition priority_order (pool out : list Orders) : Prop :=
  let large := filter (fun o => MEDIUM_TRUCK <=? order_volume o) pool in
  let small := filter (fun o => order_volume o <? MEDIUM_TRUCK) pool in
  exists sorted_large,
    out = sorted_large ++ small /\
    Permutation sorted_large large /\
    StronglySorted (desc order_volume) sorted_large /\
    (forall v, filter (fun o => order_volume o =? v) sorted_large
               = filter (fun o => order_volume o =? v) large) /\
    (forall i j a b,
        nth_error out i = Some a -> nth_error out j = Some b ->
        (MEDIUM_TRUCK <=? order_volume a) = true ->
        (order_volume b <? MEDIUM_TRUCK) = true -> (i < j)%nat).

(** ** The partner search *)

(** What the inner loop computes for one candidate [item_b] at index [j]:
    [None] when a guard excludes the pairing, and otherwise the values
    the search would record for it. *)
Definition pair_candidate (item_a item_b : LeftoverItem) (j : nat)
  : result (option PairSearch) :=
  let combined_vol := lo_volume item_a + lo_volume item_b in
  if BIG_TRUCK <? combined_vol then Ok None
  else
    let (t_type, t_cap) := get_best_truck combined_vol in
    stops <- optimize_stop_sequence item_a item_b ;;
    stop1 <- get_item stops 0 ;;
    d1 <- calculate_distance PLANT_COORDS (lo_coordinates stop1) ;;
    let t1 := get_travel_time d1 in
    stop2 <- get_item stops 1 ;;
    d2 <- calculate_distance (lo_coordinates stop1) (lo_coordinates stop2) ;;
    let t2 := get_travel_time d2 in
    d3 <- calculate_distance (lo_coordinates stop2) PLANT_COORDS ;;
    let t3 := get_travel_time d3 in
    if MAX_CONCRETE_LIFESPAN <? TIME_LOADING + t1 + TIME_SERVICE + t2 + TIME_SERVICE
    then Ok None
    else
      Ok (Some {| best_match_idx := Some j;
                  best_metric := d2 + (t_cap - combined_vol) * 5;
                  chosen_truck_type := t_type;
                  chosen_truck_cap := t_cap;
                  best_stops_order := stops;
                  best_duration :=
                    TIME_LOADING + t1 + TIME_SERVICE + t2 + TIME_SERVICE + t3 |}).

Definition eligible (i : nat) (processed : list nat) (j : nat) : bool :=
  negb (Nat.eqb i j || processed_mem j processed).

(** The record of an admissible pairing of [item_a] with the candidate
    [item_b] at index [j]: both guards passed, and the recorded values
    are those of the sequenced route. *)
Definition admissible_pair (item_a item_b : LeftoverItem) (j : nat)
  (c : PairSearch) : Prop :=
  exists stop1 stop2 d1 d2 d3,
    optimize_stop_sequence item_a item_b = Ok [stop1; stop2] /\
    ([stop1; stop2] = [item_a; item_b] \/ [stop1; stop2] = [item_b; item_a]) /\
    calculate_distance PLANT_COORDS (lo_coordinates stop1) = Ok d1 /\
    calculate_distance (lo_coordinates stop1) (lo_coordinates stop2) = Ok d2 /\
    calculate_distance (lo_coordinates stop2) PLANT_COORDS = Ok d3 /\
    (BIG_TRUCK <? lo_volume item_a + lo_volume item_b) = false /\
    (MAX_CONCRETE_LIFESPAN <?
       TIME_LOADING + get_travel_time d1 + TIME_SERVICE
       + get_travel_time d2 + TIME_SERVICE) = false /\
    c = {| best_match_idx := Some j;
           best_metric :=
             d2 + (snd (get_best_truck (lo_volume item_a + lo_volume item_b))
                   - (lo_volume item_a + lo_volume item_b)) * 5;
           chosen_truck_type :=
             fst (get_best_truck (lo_volume item_a + lo_volume item_b));
           chosen_truck_cap :=
             snd (get_best_truck (lo_volume item_a + lo_volume item_b));
           best_stops_order := [stop1; stop2];
           best_duration :=
             TIME_LOADING + get_travel_time d1 + TIME_SERVICE
             + get_travel_time d2 + TIME_SERVICE + get_travel_time d3 |}.

(** The Shared trip the outer loop appends for [item_a], its partner and
    the search record. *)
Definition shared_trip (item_a item_b : LeftoverItem) (s : PairSearch)
  (stop1 stop2 : LeftoverItem) : Trip :=
  {| truck_type := chosen_truck_type s;
     stops := [lo_customer_id stop1; lo_customer_id stop2];
     volume := lo_volume item_a + lo_volume item_b;
     duration := best_duration s;
     concrete_age_at_finish := None;
     route_type := Shared |}.

(** A trip the pairing stage emits, with the indices (into [leftovers])
    of the items it carries. *)
Inductive emitted (leftovers : list LeftoverItem) : Trip -> list nat -> Prop :=
| emitted_solo i item_a t :
    nth_error leftovers i = Some item_a ->
    leftover_trip item_a = Ok t ->
    emitted leftovers t [i]
| emitted_pair i j item_a item_b s stop1 stop2 :
    nth_error leftovers i = Some item_a ->
    nth_error leftovers j = Some item_b ->
    i <> j ->
    admissible_pair item_a item_b j s ->
    best_stops_order s = [stop1; stop2] ->
    emitted leftovers (shared_trip item_a item_b s stop1 stop2) [i; j].

(** ** Truck tiers *)

(** A trip whose load fits the truck it names. *)
Definition within_capacity (t : Trip) : Prop :=
  (volume t <=? truck_caps (truck_type t)) = true.

(** A leftover fragment: a positive volume below the Medium capacity. *)
Definition fragment_volume (v : float) : Prop :=
  (0 <? v) = true /\ (v <? MEDIUM_TRUCK) = true.

(** ** Step 1: full loads *)

(** A Direct trip of [order]: a full Big or a full Medium truck. *)
Definition direct_of (order : Orders) (t : Trip) : Prop :=
  route_type t = Direct /\ stops t = [customer_id order] /\
  ((truck_type t = "Big_Truck"%string /\ volume t = BIG_TRUCK) \/
   (truck_type t = "Medium_Truck"%string /\ volume t = MEDIUM_TRUCK)).

(** The leftover fragment of [order]. *)
Definition fragment_of (order : Orders) (it : LeftoverItem) : Prop :=
  lo_customer_id it = customer_id order /\
  lo_coordinates it = coordinates order /\
  lo_full_order it = order /\
  fragment_volume (lo_volume it).

(** ** Lifespan bound of Shared trips *)

(** The age of the concrete when the second stop is served: loading,
    travel from the plant to the first stop, service, travel to the
    second stop, service. *)
Definition second_stop_age (stop1 stop2 : LeftoverItem) : result float :=
  d1 <- calculate_distance PLANT_COORDS (lo_coordinates stop1) ;;
  d2 <- calculate_distance (lo_coordinates stop1) (lo_coordinates stop2) ;;
  Ok (TIME_LOADING + get_travel_time d1 + TIME_SERVICE
      + get_travel_time d2 + TIME_SERVICE).

(** A trip serves two of the leftover items, in the order of its stops,
    and the age of the concrete at the second of them is at most the
    lifespan of 6.0 hours. *)
Definition within_lifespan (leftovers : list LeftoverItem) (t : Trip) : Prop :=
  exists stop1 stop2 age,
    In stop1 leftovers /\ In stop2 leftovers /\
    stops t = [lo_customer_id stop1; lo_customer_id stop2] /\
    second_stop_age stop1 stop2 = Ok age /\
    (age <=? MAX_CONCRETE_LIFESPAN) = true.

(** ** The score of a pairing *)

(** Whether the pairing of [item_a] with [item_b] is feasible: the
    combined volume fits the Big truck, and the concrete age at the
    second stop of the sequenced route is within the lifespan. *)
Definition pair_feasible (item_a item_b : LeftoverItem) : result bool :=
  if BIG_TRUCK <? lo_volume item_a + lo_volume item_b then Ok false
  else
    stops <- optimize_stop_sequence item_a item_b ;;
    stop1 <- get_item stops 0 ;;
    stop2 <- get_item stops 1 ;;
    age <- second_stop_age stop1 stop2 ;;
    Ok (negb (MAX_CONCRETE_LIFESPAN <? age)).

(** The score of the pairing: the distance between the two stops of the
    sequenced route plus 5.0 times the capacity left unused. *)
Definition pair_score (item_a item_b : LeftoverItem) : result float :=
  stops <- optimize_stop_sequence item_a item_b ;;
  stop1 <- get_item stops 0 ;;
  stop2 <- get_item stops 1 ;;
  d2 <- calculate_distance (lo_coordinates stop1) (lo_coordinates stop2) ;;
  let combined_vol := lo_volume item_a + lo_volume item_b in
  let truck_capacity := snd (get_best_truck combined_vol) in
  Ok (d2 + (truck_capacity - combined_vol) * 5).

(** Item A, at index [i], is paired with a feasible partner B whose score
    is minimal among the feasible candidates (the items at the other
    indices not yet processed): a Shared trip over the sequenced stops
    is appended, with the combined volume, and both indices are marked
    processed. *)
Definition paired_with_best (leftovers : list LeftoverItem) (trips : list Trip)
  (processed : list nat) (i : nat) (item_a : LeftoverItem)
  (trips' : list Trip) (processed' : list nat) : Prop :=
  exists j item_b sc stop1 stop2 t,
    nth_error leftovers j = Some item_b /\ i <> j /\ ~ In j processed /\
    pair_feasible item_a item_b = Ok true /\
    pair_score item_a item_b = Ok sc /\
    (forall j' item_b',
        nth_error leftovers j' = Some item_b' -> i <> j' -> ~ In j' processed ->
        pair_feasible item_a item_b' = Ok true ->
        exists sc', pair_score item_a item_b' = Ok sc' /\ (sc <=? sc') = true) /\
    optimize_stop_sequence item_a item_b = Ok [stop1; stop2] /\
    trips' = trips ++ [t] /\ route_type t = Shared /\
    stops t = [lo_customer_id stop1; lo_customer_id stop2] /\
    volume t = lo_volume item_a + lo_volume item_b /\
    processed' = j :: i :: processed.

(** No candidate is feasible for item A, which is sent alone in a
    Leftover trip. *)
Definition sent_alone (leftovers : list LeftoverItem) (trips : list Trip)
  (processed : list nat) (i : nat) (item_a : LeftoverItem)
  (trips' : list Trip) (processed' : list nat) : Prop :=
  (forall j' item_b',
      nth_error leftovers j' = Some item_b' -> i <> j' -> ~ In j' processed ->
      pair_feasible item_a item_b' = Ok false) /\
  exists t, trips' = trips ++ [t] /\ route_type t = Leftover /\
            stops t = [lo_customer_id item_a] /\
            volume t = lo_volume item_a /\
            processed' = i :: processed.

(** ** Fleet scheduling: the plant clock and first-fit reuse *)

(** The plant-ready clock when trip [i] is scheduled: the loading time
    added [i] times to the start hour. *)
Definition clock (i : nat) : float :=
  Nat.iter i (fun t => t + TIME_LOADING) START_HOUR.

(** The test of the reuse search. *)
Definition truck_free (needed_type : string) (start_time : float)
  (truck : FleetTruck) : bool :=
  String.eqb (ft_type truck) needed_type && (ft_available_at truck <=? start_time).

(** What one iteration of the scheduling loop does to the state. *)
Definition first_fit_step (st : FleetState) (trip : Trip)
  (st' : FleetState) (slot : Slot) : Prop :=
  let start_time := plant_ready_time st in
  let end_time := start_time + duration trip in
  slot_type slot = truck_type trip /\
  slot_start slot = start_time /\
  slot_end slot = end_time /\
  plant_ready_time st' = start_time + TIME_LOADING /\
  ((exists idx truck,
       nth_error (fleet st) idx = Some truck /\
       truck_free (truck_type trip) start_time truck = true /\
       (forall j truck', (j < idx)%nat -> nth_error (fleet st) j = Some truck' ->
                         truck_free (truck_type trip) start_time truck' = false) /\
       slot_truck_id slot = ft_id truck /\
       fleet st' = set_available_at (fleet st) idx end_time /\
       truck_id_counter st' = truck_id_counter st)
   \/ (Forall (fun truck => truck_free (truck_type trip) start_time truck = false)
              (fleet st) /\
       slot_truck_id slot = truck_id_counter st /\
       fleet st' = fleet st ++ [ {| ft_id := truck_id_counter st;
                                    ft_type := truck_type trip;
                                    ft_available_at := end_time |} ] /\
       truck_id_counter st' = (truck_id_counter st + 1)%Z)).

(** A run of the scheduling loop: [fleet_run st trips slots stf] when,
    started in [st], the loop gives trip [i] the slot [slots[i]] and
    ends in [stf]. *)
Inductive fleet_run : FleetState -> list Trip -> list Slot -> FleetState -> Prop :=
| fleet_run_nil st : fleet_run st [] [] st
| fleet_run_cons st trip st' slot trips slots stf :
    first_fit_step st trip st' slot ->
    fleet_run st' trips slots stf ->
    fleet_run st (trip :: trips) (slot :: slots) stf.

(** Truck ids are handed out in sequence: the fleet holds the ids
    1, 2, ..., in this order, and the counter is the next one. *)
Definition sequential_ids (st : FleetState) : Prop :=
  map ft_id (fleet st) = map Z.of_nat (seq 1 (length (fleet st))) /\
  truck_id_counter st = (Z.of_nat (length (fleet st)) + 1)%Z.

(** The [schedule] list the loop builds from the entries it writes, one
    after the other. *)
Definition written (acc0 L : list (nat * ScheduledTrip))
  : list (nat * ScheduledTrip) :=
  fold_left (fun acc x => write_schedule (fst x) (snd x) acc ++ [x]) L acc0.

(** What the returned schedule shows: the dictionaries of the input, in
    order, each with the schedule written at its last occurrence (for a
    dictionary that occurs once, at its own position). *)
Definition last_schedule (refs : list (nat * Trip)) (slots : list Slot)
  (out : list (nat * ScheduledTrip)) : Prop :=
  map fst out = map fst refs /\
  forall k id trip,
    nth_error refs k = Some (id, trip) ->
    exists i trip_i slot entry,
      (k <= i)%nat /\
      nth_error refs i = Some (id, trip_i) /\
      (forall j ref, (i < j)%nat -> nth_error refs j = Some ref -> fst ref <> id) /\
      nth_error slots i = Some slot /\
      render_schedule trip_i slot = Ok entry /\
      nth_error out k = Some (id, entry).

(** The truck can take the trip at [start_time]: it is of the type the
    trip needs, and free by then. *)
Definition can_take (trip : Trip) (start_time : float) (truck : FleetTruck)
  : Prop :=
  ft_type truck = truck_type trip /\
  (ft_available_at truck <=? start_time) = true.

(** First fit, written out truck by truck.  The trip starts at the plant
    clock and ends a duration later, and the clock moves on by the
    loading time.  Either the fleet has a truck that can take the trip:
    then the first such truck, in fleet order, serves it, and the fleet
    afterwards is the fleet before, truck for truck, but for the free-at
    time of this one truck, which is the end of the trip.  Or no truck
    can take it: then the fleet afterwards is the fleet before with one
    truck more at its end, of the needed type, free at the end of the
    trip and with the counter as its id, and the counter moves on by
    one. *)
Definition first_fit (st : FleetState) (trip : Trip)
  (st' : FleetState) (slot : Slot) : Prop :=
  let start_time := plant_ready_time st in
  let end_time := start_time + duration trip in
  slot_type slot = truck_type trip /\
  slot_start slot = start_time /\
  slot_end slot = end_time /\
  plant_ready_time st' = start_time + TIME_LOADING /\
  ((exists idx truck,
       nth_error (fleet st) idx = Some truck /\
       can_take trip start_time truck /\
       (forall j truck', (j < idx)%nat -> nth_error (fleet st) j = Some truck' ->
                         ~ can_take trip start_time truck') /\
       slot_truck_id slot = ft_id truck /\
       length (fleet st') = length (fleet st) /\
       nth_error (fleet st') idx
       = Some {| ft_id := ft_id truck; ft_type := ft_type truck;
                 ft_available_at := end_time |} /\
       (forall j, j <> idx -> nth_error (fleet st') j = nth_error (fleet st) j) /\
       truck_id_counter st' = truck_id_counter st)
   \/ ((forall truck, In truck (fleet st) -> ~ can_take trip start_time truck) /\
       slot_truck_id slot = truck_id_counter st /\
       fleet st' = fleet st ++ [ {| ft_id := truck_id_counter st;
                                    ft_type := truck_type trip;
                                    ft_available_at := end_time |} ] /\
       truck_id_counter st' = (truck_id_counter st + 1)%Z)).

(** What the returned schedule shows, field by field: the dictionaries
    of the input, in order; and in each the trip it held and the
    [schedule] entry of the slot it was given when it was scheduled last
    (for a dictionary that occurs once, at its own position): the id of
    the truck, the start and the end of the slot as [format_time] prints
    them, and the duration rounded to two digits. *)
Definition shows_slots (refs : list (nat * Trip)) (slots : list Slot)
  (out : list (nat * ScheduledTrip)) : Prop :=
  map fst out = map fst refs /\
  forall k id trip,
    nth_error refs k = Some (id, trip) ->
    exists i trip_i slot entry,
      (k <= i)%nat /\
      nth_error refs i = Some (id, trip_i) /\
      (forall j ref, (i < j)%nat -> nth_error refs j = Some ref -> fst ref <> id) /\
      nth_error slots i = Some slot /\
      nth_error out k = Some (id, entry) /\
      st_trip entry = trip_i /\
      truck_id (st_schedule entry) = slot_truck_id slot /\
      format_time (slot_start slot) = Ok (start_time (st_schedule entry)) /\
      format_time (slot_end slot) = Ok (end_time (st_schedule entry)) /\
      duration_h (st_schedule entry) = round_ndigits (duration trip_i) 2.

(** ** Fleet scheduling: the fleet is as small as the schedule allows *)

(** Two slots one truck can serve: one ends by the time the other
    starts. *)
Definition compatible (a b : Slot) : Prop :=
  (slot_end a <=? slot_start b) = true \/ (slot_end b <=? slot_start a) = true.

(** Two slots overlap: some time lies in both intervals
    [[start_time, end_time)]. *)
Definition overlap (a b : Slot) : Prop :=
  exists t : float,
    (slot_start a <=? t) = true /\ (t <? slot_end a) = true /\
    (slot_start b <=? t) = true /\ (t <? slot_end b) = true.

(** An assignment of truck ids to the trips of type [c] that never gives
    one truck two slots that overlap. *)
Definition executable (c : string) (slots : list Slot) (assign : nat -> Z) : Prop :=
  forall i j a b,
    i <> j -> nth_error slots i = Some a -> nth_error slots j = Some b ->
    slot_type a = c -> slot_type b = c ->
    assign i = assign j -> ~ overlap a b.

(** The trip takes time: its end, computed from its place [i] in the
    list and its duration, is later than its start. *)
Definition takes_time (i : nat) (trip : Trip) : Prop :=
  (clock i <? clock i + duration trip) = true.

(** The trucks of type [c]. *)
Definition trucks_of (c : string) (fleet0 : list FleetTruck) : list FleetTruck :=
  filter (fun truck => String.eqb (ft_type truck) c) fleet0.

(** The truck id the scheduler gave trip [i]. *)
Definition assigned_truck (slots : list Slot) (i : nat) : Z :=
  match nth_error slots i with
  | Some s => slot_truck_id s
  | None => 0%Z
  end.

(** The slot a truck served last: it explains the truck's free-at time,
    and no later slot is the truck's. *)
Definition last_slot (H : list Slot) (truck : FleetTruck) (l : nat) : Prop :=
  exists s,
    nth_error H l = Some s /\
    slot_truck_id s = ft_id truck /\
    slot_type s = ft_type truck /\
    slot_end s = ft_available_at truck /\
    forall i s', nth_error H i = Some s' -> slot_truck_id s' = ft_id truck ->
                 (i <= l)%nat.

(** Slots of type [c] that pairwise cannot share a truck. *)
Definition clique (c : string) (H : list Slot) (idxs : list nat) : Prop :=
  NoDup idxs /\
  (forall i, In i idxs -> exists s, nth_error H i = Some s /\ slot_type s = c) /\
  (forall i j a b, In i idxs -> In j idxs -> i <> j ->
                   nth_error H i = Some a -> nth_error H j = Some b ->
                   ~ compatible a b).

(** What holds of the scheduler's state after [k] trips, [H] being the
    slots given so far. *)
Record fleet_inv (k : nat) (H : list Slot) (st : FleetState) : Prop := {
  inv_len : length H = k;
  inv_clock : plant_ready_time st = clock k;
  inv_start : forall i s, nth_error H i = Some s -> slot_start s = clock i;
  inv_ids : sequential_ids st;
  inv_last : forall truck, In truck (fleet st) -> exists l, last_slot H truck l;
  inv_owner : forall i s, nth_error H i = Some s ->
              exists truck, In truck (fleet st) /\
                            ft_id truck = slot_truck_id s /\
                            ft_type truck = slot_type s;
  inv_valid : forall i j a b,
      (i < j)%nat -> nth_error H i = Some a -> nth_error H j = Some b ->
      slot_truck_id a = slot_truck_id b ->
      (slot_end a <=? slot_start b) = true;
  inv_clique : forall c, exists idxs,
      clique c H idxs /\ length idxs = length (trucks_of c (fleet st))
}.

(** The trucks of type [c] in the fleet are a minimum fleet for the
    scheduled slots: the schedule runs on them, and no assignment of
    trucks to the slots of that type in which a truck never serves two
    overlapping slots names fewer trucks. *)
Definition minimum_fleet (c : string) (slots : list Slot)
  (fleet0 : list FleetTruck) : Prop :=
  executable c slots (assigned_truck slots) /\
  (forall i s, nth_error slots i = Some s -> slot_type s = c ->
               In (assigned_truck slots i) (map ft_id (trucks_of c fleet0))) /\
  (forall (assign : nat -> Z) (ids : list Z),
      executable c slots assign ->
      (forall i s, nth_error slots i = Some s -> slot_type s = c ->
                   In (assign i) ids) ->
      (length (trucks_of c fleet0) <= length ids)%nat).

(** ** Termination of the direct-packing loop *)

(** The bound on the iterations of the direct-packing loop: the ceiling
    of [vol / 7.0], and one more. *)
Definition iterations_bound (vol : float) : nat :=
  Z.to_nat ((fval vol + 7 * one - 1) / (7 * one)) + 1.

(** ** Volume conservation *)

(** Exact sums of volumes, in units of 2^-1074. *)
Definition total_volume (trips : list Trip) : Z :=
  fold_right (fun t acc => (fval (volume t) + acc)%Z) 0%Z trips.

Definition total_fragments (items : list LeftoverItem) : Z :=
  fold_right (fun it acc => (fval (lo_volume it) + acc)%Z) 0%Z items.

(** A volume the packer conserves: positive, finite and below 2^53. *)
Definition valid_volume (order : Orders) : Prop :=
  is_finite (order_volume order) = true /\
  (0 <? order_volume order) = true /\
  (order_volume order <? 0x1p53) = true.

(** The Direct trips and the leftover fragment of one order: full
    trucks, at most one fragment, and together exactly the order's
    volume. *)
Definition order_part (order : Orders) (p : list Trip * list LeftoverItem)
  : Prop :=
  Forall (direct_of order) (fst p) /\
  Forall (fragment_of order) (snd p) /\
  (length (snd p) <= 1)%nat /\
  (total_volume (fst p) + total_fragments (snd p) = fval (order_volume order))%Z.

(** The trip that carries a group of leftover fragments: a fragment
    alone in a Leftover trip of its volume, or two in a Shared trip whose
    volume is the float sum of theirs. *)
Definition carries (t : Trip) (group : list LeftoverItem) : Prop :=
  match group with
  | [a] =>
      route_type t = Leftover /\ stops t = [lo_customer_id a] /\
      volume t = lo_volume a
  | [a; b] =>
      route_type t = Shared /\ volume t = lo_volume a + lo_volume b /\
      (stops t = [lo_customer_id a; lo_customer_id b] \/
       stops t = [lo_customer_id b; lo_customer_id a])
  | _ => False
  end.

(** The trips of a pool conserve its volume: they are the Direct trips of
    the orders, each order with the fragment left of it, followed by the
    trips that ship the fragments, each fragment in exactly one of them. *)
Definition conserved (pool : list Orders) (trips : list Trip) : Prop :=
  exists sorted_pool parts shipped item_groups,
    Permutation sorted_pool pool /\
    Forall2 order_part sorted_pool parts /\
    trips = concat (map fst parts) ++ shipped /\
    Forall2 carries shipped item_groups /\
    Permutation (concat item_groups) (concat (map snd parts)).

(** ** Statistics *)

(** [d[key]] read from a dictionary kept as an association list. *)
Fixpoint lookup {A : Type} (key : string) (d : list (string * A)) : option A :=
  match d with
  | [] => None
  | (k, v) :: rest => if String.eqb k key then Some v else lookup key rest
  end.

(** The three truck names the statistics are kept for. *)
Definition truck_names : list string :=
  ["Big_Truck"; "Medium_Truck"; "Small_Truck"]%string.

(** The truck id and the truck type of the trucks of a fleet and of the
    slots of a schedule. *)
Definition truck_keys (fleet0 : list FleetTruck) : list (Z * string) :=
  map (fun truck => (ft_id truck, ft_type truck)) fleet0.

Definition slot_keys (slots : list Slot) : list (Z * string) :=
  map (fun s => (slot_truck_id s, slot_type s)) slots.

(** ** The times shown in a schedule *)

(** The clock time of the [i]-th loading, a quarter of an hour after the
    one before, the first at 08:00, as [format_time] writes it: hours
    and minutes, and the day after the first 24 hours. *)
Definition clock_text (i : nat) : string :=
  let h := (8 + Z.of_nat i / 4)%Z in
  let m := (15 * (Z.of_nat i mod 4))%Z in
  (format_02d (h mod 24) ++ ":" ++ format_02d m
   ++ (if (24 <=? h)%Z then " (+" ++ string_of_Z (h / 24) ++ "d)" else ""))%string.

(** ** The trips of a pool *)

(** The stops of a trip: a Shared trip has two, at different customers,
    and every other trip one; all of them customers of the pool. *)
Definition stops_of_kind (ids : list Z) (t : Trip) : Prop :=
  match route_type t with
  | Shared => exists a b, stops t = [a; b] /\ a <> b /\ In a ids /\ In b ids
  | _ => exists a, stops t = [a] /\ In a ids
  end.

(** The times of a trip are numbers, and not below zero. *)
Definition timed (t : Trip) : Prop :=
  nonneg (duration t) = true /\
  match concrete_age_at_finish t with
  | Some age => nonneg age = true
  | None => True
  end.

(** ** The full loads of an order *)

(** The volumes of the full trucks for a volume [v] (in units of
    2^-1074): a Big truck for every whole 12.0, then a Medium truck when
    at least 7.0 remain. *)
Definition full_loads (v : Z) : list float :=
  repeat BIG_TRUCK (Z.to_nat (v / (12 * one)))
  ++ (if (7 * one <=? v mod (12 * one))%Z then [MEDIUM_TRUCK] else []).

(** What the full trucks leave of [v]. *)
Definition rest_of (v : Z) : Z :=
  let r := (v mod (12 * one))%Z in
  if (7 * one <=? r)%Z then (r - 7 * one)%Z else r.

(** ** Exceptions of the trip generator *)

(** An outcome that is a returned value, or the exception some call of
    [calculate_distance] raised: never an exception of the caller's own,
    and never an exhausted step budget. *)
Definition distance_outcome {A : Type} (r : result A) : Prop :=
  (exists x, r = Ok x) \/
  (exists e coord1 coord2,
      r = Raise e /\ calculate_distance coord1 coord2 = Raise e).

(** ** Truck types *)

(** A trip that names one of the three truck types, and no Small truck
    when small trucks are to be avoided. *)
Definition fleet_truck (t : Trip) : Prop :=
  In (truck_type t) truck_names /\
  (AVOID_SMALL_TRUCKS = true -> truck_type t <> "Small_Truck"%string).

(** The number of routes that name the truck type [c]. *)
Definition routes_with (c : string) (routes : list Route) : nat :=
  length (filter (fun r => String.eqb (truck_type (fst r)) c) routes).

(** ** Sample data *)

(** Orders whose sites have no coordinates on file, so that every leg
    is the 50 km fallback and the C library is never consulted (the
    library functions below fail on every argument). *)

Definition libm_unary (x : float) : checked float := Error ValueError.
Definition libm_binary (x y : float) : checked float := Error ValueError.

(** A random source that always draws 0.1 (priority mode) and a shuffle
    that leaves the list as it is. *)
Definition draw_low (g : unit) : float * unit := (0.1, g).
Definition shuffle_id (g : unit) (l : list Orders) : list Orders * unit := (l, g).

Definition site_unknown : Coordinates := {| latitude := nan; longitude := nan |}.

Definition order_of (id : Z) (vol : float) (mix : string) : Orders :=
  {| customer_id := id;
     coordinates := site_unknown;
     order_volume := vol;
     strength := mix;
     Dmax := 16;
     Dmax_id := 0;
     consistency := "F3";
     exposure := "XC2";
     date := 0 |}.

Definition day_pool : list Orders :=
  [ order_of 1 5 "C25/30"; order_of 2 20 "C25/30";
    order_of 3 2.5 "C25/30"; order_of 4 5 "C25/30" ].

Definition day_orders : list Orders :=
  [ order_of 1 5 "C25/30"; order_of 5 9 "C30/37";
    order_of 2 20 "C25/30"; order_of 6 3 "C30/37" ].

Definition trip_of (t_type : string) (id : Z) (vol dur : float) : Trip :=
  {| truck_type := t_type;
     stops := [id];
     volume := vol;
     duration := dur;
     concrete_age_at_finish := None;
     route_type := Direct |}.

Definition day_trips : list Trip :=
  [ trip_of "Big_Truck" 1 12 1;
    trip_of "Big_Truck" 2 12 0.125;
    trip_of "Big_Truck" 3 12 2;
    trip_of "Medium_Truck" 4 7 0.5;
    trip_of "Big_Truck" 5 12 1 ].

(** A second library, for sites around the plant: the small-angle
    values of the four functions (the sine of [x] is [x], the cosine
    [1 - x^2/2 + x^4/24], the arc tangent of [y / x] for [x] close to 1
    is [y]; the only power taken is the square). *)
Definition sin_small (x : float) : checked float := Value x.
Definition cos_small (x : float) : checked float :=
  Value (1 - x * x / 2 + x * x * x * x / 24).
Definition atan2_small (y x : float) : checked float := Value y.
Definition pow_small (x y : float) : checked float := Value (x * x).

Definition item_at (id : Z) (vol lat lon : float) : LeftoverItem :=
  leftover_item
    {| customer_id := id;
       coordinates := {| latitude := lat; longitude := lon |};
       order_volume := vol;
       strength := "C25/30";
       Dmax := 16;
       Dmax_id := 0;
       consistency := "F3";
       exposure := "XC2";
       date := 0 |} vol.

(** Four leftover fragments, by descending volume; customer 3 is the
    neighbour of customer 1. *)
Definition town_leftovers : list LeftoverItem :=
  [ item_at 1 5 47.70 19.10;
    item_at 4 5 47.55 19.00;
    item_at 3 2.5 47.71 19.12;
    item_at 2 1 47.50 19.30 ].

(** The sum the volume-conservation property speaks of: the [volume]
    fields of the trips whose [stops] contain a customer id, added up
    from 0 in trip order. *)
Definition referenced_volume (cid : Z) (trips : list Trip) : float :=
  fold_left (fun acc t => if existsb (Z.eqb cid) (stops t) then acc + volume t
                          else acc) trips 0.

(** A random source that always draws 0.9 (random mode). *)
Definition draw_high (g : unit) : float * unit := (0.9, g).

(** A pool with an order whose volume is not on file. *)
Definition pool_with_gap : list Orders :=
  [ order_of 1 5 "C25/30"; order_of 7 nan "C25/30"; order_of 2 20 "C25/30" ].

(** A [round] that leaves the number as it is. *)
Definition round_keep (x : float) (ndigits : Z) : float := x.

(** Two trips, the second without a duration. *)
Definition trips_with_gap : list Trip :=
  [ trip_of "Big_Truck" 1 12 1; trip_of "Big_Truck" 2 12 nan ].

(** Three orders at sites around the plant. *)
Definition order_at (id : Z) (vol lat lon : float) : Orders :=
  {| customer_id := id;
     coordinates := {| latitude := lat; longitude := lon |};
     order_volume := vol;
     strength := "C25/30";
     Dmax := 16;
     Dmax_id := 0;
     consistency := "F3";
     exposure := "XC2";
     date := 0 |}.

Definition town_pool : list Orders :=
  [ order_at 1 5 47.70 19.10; order_at 2 20 47.55 19.00;
    order_at 3 2.5 47.71 19.12 ].

(** Five orders that differ in [Dmax] only: 1 and 3 hold one NaN
    object, 4 holds another NaN, 2 and 5 hold two objects of value 16. *)
Definition order_grain (id : Z) (dmax : float) (obj : nat) : Orders :=
  {| customer_id := id;
     coordinates := site_unknown;
     order_volume := 5;
     strength := "C25/30";
     Dmax := dmax;
     Dmax_id := obj;
     consistency := "F3";
     exposure := "XC2";
     date := 0 |}.

Definition graded_orders : list Orders :=
  [ order_grain 1 nan 7; order_grain 2 16 0; order_grain 3 nan 7;
    order_grain 4 nan 8; order_grain 5 16 1 ].

(** Two orders that differ in the exposure class only. *)
Definition order_exposed (id : Z) (vol : float) (class : string) : Orders :=
  {| customer_id := id;
     coordinates := site_unknown;
     order_volume := vol;
     strength := "C25/30";
     Dmax := 16;
     Dmax_id := 0;
     consistency := "F3";
     exposure := class;
     date := 0 |}.

Definition exposed_orders : list Orders :=
  [ order_exposed 1 5 "XC2"; order_exposed 2 5 "XC4" ].

(** A trip of one hour and a trip that ends an hour before it starts. *)
Definition backward_trips : list Trip :=
  [ trip_of "Big_Truck" 1 12 1; trip_of "Big_Truck" 2 12 (-1) ].

(* ================================================================== *)
(** * Properties *)

(** ** Binary64 arithmetic *)

Section Binary64.

#[local] Open Scope Z_scope.

Lemma digits2_size p : digits2_pos p = Pos.size p.
Proof. induction p; simpl; congruence. Qed.

Lemma digits2_bounds p :
  2 ^ (Zpos (digits2_pos p) - 1) <= Zpos p < 2 ^ Zpos (digits2_pos p).
Proof.
  rewrite digits2_size. split.
  - pose proof (Pos.size_le p) as H.
    assert (H' : 2 ^ Zpos (Pos.size p) <= 2 * Zpos p).
    { change (2 * Zpos p) with (Zpos p~0). rewrite <- Pos2Z.inj_pow. apply Pos2Z.pos_le_pos. exact H. }
    replace (Zpos (Pos.size p)) with ((Zpos (Pos.size p) - 1) + 1) in H' by lia.
    rewrite Z.pow_add_r in H' by lia. lia.
  - pose proof (Pos.size_gt p) as H. rewrite <- Pos2Z.inj_pow. apply Pos2Z.pos_lt_pos. exact H.
Qed.

Lemma digits2_unique p d :
  2 ^ (d - 1) <= Zpos p < 2 ^ d -> Zpos (digits2_pos p) = d.
Proof.
  intros [H1 H2]. pose proof (digits2_bounds p) as [H3 H4].
  set (d' := Zpos (digits2_pos p)) in *.
  assert (0 < d') by (subst d'; lia).
  assert (0 < d).
  { destruct d as [|q|q]; [simpl in H2; lia | lia | rewrite Z.pow_neg_r in H2 by lia; lia]. }
  destruct (Z.lt_trichotomy d' d) as [L|[E|G]]; auto; exfalso.
  - assert (2 ^ d' <= 2 ^ (d - 1)) by (apply Z.pow_le_mono_r; lia). lia.
  - assert (2 ^ d <= 2 ^ (d' - 1)) by (apply Z.pow_le_mono_r; lia). lia.
Qed.

(** canonical, bounded mantissa/exponent pairs of binary64 *)
Lemma bounded_inv m e :
  bounded prec emax m e = true ->
  -1074 <= e <= 971 /\ Zpos (digits2_pos m) <= 53 /\
  (-1074 < e -> Zpos (digits2_pos m) = 53) /\
  Z.max (Zpos (digits2_pos m) + e - 53) (-1074) = e.
Proof.
  unfold bounded, canonical_mantissa, fexp, emin, prec, emax.
  intros H. apply andb_true_iff in H as [H1 H2].
  apply Z.eqb_eq in H1. apply Z.leb_le in H2.
  change (3 - 1024 - 53) with (-1074) in H1. lia.
Qed.

Lemma bounded_intro m e :
  -1074 <= e <= 971 -> Z.max (Zpos (digits2_pos m) + e - 53) (-1074) = e ->
  bounded prec emax m e = true.
Proof.
  unfold bounded, canonical_mantissa, fexp, emin, prec, emax.
  intros H1 H2. apply andb_true_iff. split.
  - apply Z.eqb_eq. change (3 - 1024 - 53) with (-1074). lia.
  - apply Z.leb_le. lia.
Qed.

Lemma bounded_mantissa m e :
  bounded prec emax m e = true ->
  Zpos m < 2 ^ 53 /\ (-1074 < e -> 2 ^ 52 <= Zpos m).
Proof.
  intros H. apply bounded_inv in H as (He & Hd & Hn & _).
  pose proof (digits2_bounds m) as [B1 B2]. split.
  - assert (2 ^ Zpos (digits2_pos m) <= 2 ^ 53) by (apply Z.pow_le_mono_r; lia). lia.
  - intros L. rewrite (Hn L) in B1. exact B1.
Qed.

Lemma pow2_pos k : 0 <= k -> 0 < 2 ^ k.
Proof. intros. apply Z.pow_pos_nonneg; lia. Qed.

(** the value orders the canonical finite floats as [SFcompare] does *)
Lemma finite_val_lt m1 e1 m2 e2 :
  bounded prec emax m1 e1 = true -> bounded prec emax m2 e2 = true ->
  e1 < e2 -> Zpos m1 * 2 ^ (e1 + 1074) < Zpos m2 * 2 ^ (e2 + 1074).
Proof.
  intros B1 B2 L.
  pose proof (bounded_inv _ _ B1) as (He1 & _).
  pose proof (bounded_inv _ _ B2) as (He2 & _).
  apply bounded_mantissa in B1 as [U1 _].
  apply bounded_mantissa in B2 as [_ L2]. specialize (L2 ltac:(lia)).
  assert (P1 : 0 < 2 ^ (e1 + 1074)) by (apply pow2_pos; lia).
  assert (P2 : 2 * 2 ^ (e1 + 1074) <= 2 ^ (e2 + 1074)).
  { rewrite <- Z.pow_succ_r by lia. apply Z.pow_le_mono_r; lia. }
  change (2 ^ 53) with (2 * 2 ^ 52) in U1.
  assert (P3 : 0 < 2 ^ 52) by reflexivity.
  nia.
Qed.

Lemma finite_val_compare m1 e1 m2 e2 :
  bounded prec emax m1 e1 = true -> bounded prec emax m2 e2 = true ->
  match Z.compare e1 e2 with
  | Lt => Lt
  | Gt => Gt
  | Eq => Pos.compare_cont Eq m1 m2
  end = Z.compare (Zpos m1 * 2 ^ (e1 + 1074)) (Zpos m2 * 2 ^ (e2 + 1074)).
Proof.
  intros B1 B2. destruct (Z.compare_spec e1 e2) as [E|L|G].
  - subst e2. pose proof (bounded_inv _ _ B1) as (He1 & _).
    assert (P1 : 0 < 2 ^ (e1 + 1074)) by (apply pow2_pos; lia).
    change (Pos.compare_cont Eq m1 m2) with (Pos.compare m1 m2).
    destruct (Pos.compare_spec m1 m2) as [E|L|G]; symmetry.
    + subst. apply Z.compare_eq_iff. reflexivity.
    + apply Z.compare_lt_iff. apply Z.mul_lt_mono_pos_r; lia.
    + apply Z.compare_gt_iff. apply Z.mul_lt_mono_pos_r; lia.
  - symmetry. apply Z.compare_lt_iff. apply finite_val_lt; auto.
  - symmetry. apply Z.compare_gt_iff. apply finite_val_lt; auto.
Qed.

Lemma finite_val_range m e :
  bounded prec emax m e = true -> 0 < Zpos m * 2 ^ (e + 1074) < 2 ^ 2100.
Proof.
  intros B. pose proof (bounded_inv _ _ B) as (He & _).
  apply bounded_mantissa in B as [U _].
  assert (P1 : 0 < 2 ^ (e + 1074)) by (apply pow2_pos; lia).
  assert (P2 : 2 ^ (e + 1074) <= 2 ^ 2045) by (apply Z.pow_le_mono_r; lia).
  split; [nia|].
  replace (2 ^ 2100) with (2 ^ 55 * 2 ^ 2045) by (rewrite <- Z.pow_add_r by lia; reflexivity).
  assert (2 ^ 53 < 2 ^ 55) by reflexivity.
  assert (0 < 2 ^ 2045) by (apply pow2_pos; lia).
  nia.
Qed.

Lemma SFcompare_val x y :
  valid_binary x = true -> valid_binary y = true ->
  SFis_nan x = false -> SFis_nan y = false ->
  SFcompare x y = Some (Z.compare (SFval x) (SFval y)).
Proof.
  intros Vx Vy Nx Ny.
  assert (P : 0 < 2 ^ 2100) by (apply pow2_pos; lia).
  destruct x as [sx|sx| |sx mx ex], y as [sy|sy| |sy my ey]; try discriminate;
    unfold valid_binary in Vx, Vy; unfold SFval, SFcompare, cond_Zopp;
    try (pose proof (finite_val_range _ _ Vx));
    try (pose proof (finite_val_range _ _ Vy)).
  all: try (destruct sx, sy; cbv beta iota; f_equal; symmetry;
            first [ apply Z.compare_eq_iff; lia | apply Z.compare_lt_iff; lia | apply Z.compare_gt_iff; lia ]).
  all: try (destruct sx; cbv beta iota; f_equal; symmetry;
            first [ apply Z.compare_eq_iff; lia | apply Z.compare_lt_iff; lia | apply Z.compare_gt_iff; lia ]).
  all: try (destruct sy; cbv beta iota; f_equal; symmetry;
            first [ apply Z.compare_eq_iff; lia | apply Z.compare_lt_iff; lia | apply Z.compare_gt_iff; lia ]).
  all: try (cbv beta iota; f_equal; reflexivity).
  destruct sx, sy; cbv beta iota; f_equal.
  - rewrite Z.compare_opp.
    rewrite <- (finite_val_compare my ey mx ex) by auto.
    rewrite (Z.compare_antisym ey ex).
    destruct (ey ?= ex); simpl; auto.
    change (Pos.compare_cont Eq mx my) with (Pos.compare mx my).
    change (Pos.compare_cont Eq my mx) with (Pos.compare my mx).
    rewrite (Pos.compare_antisym my mx). apply CompOpp_involutive.
  - symmetry; apply Z.compare_lt_iff; lia.
  - symmetry; apply Z.compare_gt_iff; lia.
  - apply finite_val_compare; auto.
Qed.

(** *** Exact rounding *)

Lemma iter_pos_eq {A : Type} (f : A -> A) (n : positive) (x : A) :
  iter_pos f n x = Pos.iter f x n.
Proof.
  revert x. induction n as [n IH|n IH|]; intros x; simpl.
  - rewrite !IH. rewrite <- !Pos.iter_swap. reflexivity.
  - rewrite !IH. reflexivity.
  - reflexivity.
Qed.

Lemma shift_pos_val m k : Zpos (Pos.iter xO m k) = Zpos m * 2 ^ Zpos k.
Proof.
  induction k as [|k IH] using Pos.peano_ind.
  - simpl. lia.
  - rewrite Pos.iter_succ, Pos2Z.inj_succ, Z.pow_succ_r by lia.
    rewrite Pos2Z.inj_xO, IH. ring.
Qed.

Lemma shl_align_val mx ex ez :
  ez <= ex ->
  snd (shl_align mx ex ez) = ez /\
  Zpos (fst (shl_align mx ex ez)) = Zpos mx * 2 ^ (ex - ez).
Proof.
  intros L. unfold shl_align.
  destruct (ez - ex) as [|d|d] eqn:E; simpl.
  - assert (ex = ez) by lia. subst. rewrite Z.sub_diag. simpl. lia.
  - lia.
  - rewrite shift_pos_val. replace (ex - ez) with (Zpos d) by lia. auto.
Qed.

Lemma shr_exact m k :
  iter_pos shr_1 k {| shr_m := Zpos (Pos.iter xO m k); shr_r := false; shr_s := false |}
  = {| shr_m := Zpos m; shr_r := false; shr_s := false |}.
Proof.
  rewrite iter_pos_eq.
  induction k as [|k IH] using Pos.peano_ind.
  - reflexivity.
  - rewrite Pos.iter_succ_r. rewrite Pos.iter_succ. simpl shr_1. exact IH.
Qed.

Lemma round_aux_canonical s m e :
  bounded prec emax m e = true ->
  binary_round_aux prec emax s (Zpos m) e loc_Exact = S754_finite s m e.
Proof.
  intros B. pose proof (bounded_inv _ _ B) as (He & Hd & Hn & Hc).
  assert (F : fexp prec emax (Zpos (digits2_pos m) + e) = e).
  { unfold fexp, emin, prec, emax. change (3 - 1024 - 53) with (-1074). lia. }
  assert (S1 : shr_fexp prec emax (Zpos m) e loc_Exact
               = ({| shr_m := Zpos m; shr_r := false; shr_s := false |}, e)).
  { unfold shr_fexp. simpl Zdigits2. rewrite F, Z.sub_diag. reflexivity. }
  unfold binary_round_aux. rewrite S1. simpl. rewrite S1. simpl.
  match goal with
  | |- context [Z.leb ?a ?b] =>
      replace (Z.leb a b) with true
        by (symmetry; apply Z.leb_le; unfold emax, prec; lia)
  end.
  reflexivity.
Qed.

Lemma round_aux_shift s m e k :
  bounded prec emax m e = true ->
  binary_round_aux prec emax s (Zpos (Pos.iter xO m k)) (e - Zpos k) loc_Exact
  = S754_finite s m e.
Proof.
  intros B. pose proof (bounded_inv _ _ B) as (He & Hd & Hn & Hc).
  assert (D : Zpos (digits2_pos (Pos.iter xO m k)) = Zpos (digits2_pos m) + Zpos k).
  { apply digits2_unique. rewrite shift_pos_val.
    pose proof (digits2_bounds m) as [B1 B2].
    replace (Zpos (digits2_pos m) + Zpos k - 1) with ((Zpos (digits2_pos m) - 1) + Zpos k) by lia.
    rewrite !Z.pow_add_r by lia.
    assert (0 < 2 ^ Zpos k) by (apply pow2_pos; lia). nia. }
  assert (F : fexp prec emax (Zpos (digits2_pos (Pos.iter xO m k)) + (e - Zpos k)) = e).
  { rewrite D. unfold fexp, emin, prec, emax. change (3 - 1024 - 53) with (-1074). lia. }
  assert (S1 : shr_fexp prec emax (Zpos (Pos.iter xO m k)) (e - Zpos k) loc_Exact
               = ({| shr_m := Zpos m; shr_r := false; shr_s := false |}, e)).
  { unfold shr_fexp. simpl Zdigits2. rewrite F.
    replace (e - (e - Zpos k)) with (Zpos k) by lia.
    unfold shr. simpl shr_record_of_loc. rewrite shr_exact. f_equal. lia. }
  assert (F0 : fexp prec emax (Zpos (digits2_pos m) + e) = e).
  { unfold fexp, emin, prec, emax. change (3 - 1024 - 53) with (-1074). lia. }
  assert (S2 : shr_fexp prec emax (Zpos m) e loc_Exact
               = ({| shr_m := Zpos m; shr_r := false; shr_s := false |}, e)).
  { unfold shr_fexp. simpl Zdigits2. rewrite F0, Z.sub_diag. reflexivity. }
  unfold binary_round_aux. rewrite S1. simpl. rewrite S2. simpl.
  match goal with
  | |- context [Z.leb ?a ?b] =>
      replace (Z.leb a b) with true
        by (symmetry; apply Z.leb_le; unfold emax, prec; lia)
  end.
  reflexivity.
Qed.

(** [binary_round] returns the canonical float of the same value, when
    there is one. *)
Lemma binary_round_exact s M ez m e :
  bounded prec emax m e = true -> -1074 <= ez ->
  Zpos M * 2 ^ (ez + 1074) = Zpos m * 2 ^ (e + 1074) ->
  binary_round prec emax s M ez = S754_finite s m e.
Proof.
  intros B Lz V. pose proof (bounded_inv _ _ B) as (He & Hd & Hn & Hc).
  assert (D : Zpos (digits2_pos M) + ez = Zpos (digits2_pos m) + e).
  { pose proof (digits2_bounds M) as [B1 B2]. pose proof (digits2_bounds m) as [B3 B4].
    set (dM := Zpos (digits2_pos M)) in *. set (dm := Zpos (digits2_pos m)) in *.
    assert (0 < dM) by (subst dM; lia). assert (0 < dm) by (subst dm; lia).
    assert (P1 : 0 < 2 ^ (ez + 1074)) by (apply pow2_pos; lia).
    assert (P2 : 0 < 2 ^ (e + 1074)) by (apply pow2_pos; lia).
    assert (X1 : 2 ^ (dM - 1 + (ez + 1074)) <= Zpos M * 2 ^ (ez + 1074) < 2 ^ (dM + (ez + 1074))).
    { rewrite (Z.pow_add_r 2 (dM - 1) (ez + 1074)), (Z.pow_add_r 2 dM (ez + 1074)) by lia.
      split; [apply Z.mul_le_mono_nonneg_r; lia | apply Z.mul_lt_mono_pos_r; lia]. }
    assert (X2 : 2 ^ (dm - 1 + (e + 1074)) <= Zpos m * 2 ^ (e + 1074) < 2 ^ (dm + (e + 1074))).
    { rewrite (Z.pow_add_r 2 (dm - 1) (e + 1074)), (Z.pow_add_r 2 dm (e + 1074)) by lia.
      split; [apply Z.mul_le_mono_nonneg_r; lia | apply Z.mul_lt_mono_pos_r; lia]. }
    rewrite V in X1.
    destruct (Z.lt_trichotomy (dM + ez) (dm + e)) as [L|[E|G]]; auto; exfalso.
    - assert (2 ^ (dM + (ez + 1074)) <= 2 ^ (dm - 1 + (e + 1074))) by (apply Z.pow_le_mono_r; lia). lia.
    - assert (2 ^ (dm + (e + 1074)) <= 2 ^ (dM - 1 + (ez + 1074))) by (apply Z.pow_le_mono_r; lia). lia. }
  assert (F : fexp prec emax (Zpos (digits2_pos M) + ez) = e).
  { rewrite D. unfold fexp, emin, prec, emax. change (3 - 1024 - 53) with (-1074). lia. }
  unfold binary_round. rewrite F.
  destruct (Z.lt_trichotomy e ez) as [L|[E|G]].
  - (* the mantissa is shifted left *)
    pose proof (shl_align_val M ez e ltac:(lia)) as [A1 A2].
    destruct (shl_align M ez e) as [mz ez'] eqn:EA. cbn [fst snd] in A1, A2. subst ez'.
    assert (mz = m).
    { apply Pos2Z.inj. rewrite A2.
      replace (ez + 1074) with ((ez - e) + (e + 1074)) in V by lia.
      rewrite (Z.pow_add_r 2 (ez - e) (e + 1074)) in V by lia.
      assert (P2 : 0 < 2 ^ (e + 1074)) by (apply pow2_pos; lia).
      apply (Z.mul_reg_r _ _ (2 ^ (e + 1074))); [lia|]. rewrite <- V. ring. }
    subst mz. apply round_aux_canonical; auto.
  - subst ez. unfold shl_align. rewrite Z.sub_diag.
    assert (M = m).
    { apply Pos2Z.inj. assert (P2 : 0 < 2 ^ (e + 1074)) by (apply pow2_pos; lia).
      apply (Z.mul_reg_r _ _ (2 ^ (e + 1074))); [lia|]. exact V. }
    subst M. apply round_aux_canonical; auto.
  - (* trailing zeros are shifted out *)
    unfold shl_align. destruct (e - ez) as [|k|k] eqn:EK; try lia.
    assert (M = Pos.iter xO m k).
    { apply Pos2Z.inj. rewrite shift_pos_val.
      replace (e + 1074) with (Zpos k + (ez + 1074)) in V by lia.
      rewrite (Z.pow_add_r 2 (Zpos k) (ez + 1074)) in V by lia.
      assert (P2 : 0 < 2 ^ (ez + 1074)) by (apply pow2_pos; lia).
      apply (Z.mul_reg_r _ _ (2 ^ (ez + 1074))); [lia|]. rewrite V. ring. }
    subst M. replace ez with (e - Zpos k) by lia.
    apply round_aux_shift; auto.
Qed.

Lemma canonical_exists K g :
  0 < K < 2 ^ 53 -> 0 <= g <= 2045 ->
  exists m e, bounded prec emax m e = true /\ Zpos m * 2 ^ (e + 1074) = K * 2 ^ g.
Proof.
  intros HK Hg. destruct K as [|K|K]; try lia.
  pose proof (digits2_bounds K) as [B1 B2].
  set (d := Zpos (digits2_pos K)) in *.
  assert (Hd : 0 < d <= 53).
  { split; [subst d; lia|].
    destruct (Z.le_gt_cases d 53) as [L|G]; auto. exfalso.
    assert (2 ^ 53 <= 2 ^ (d - 1)) by (apply Z.pow_le_mono_r; lia). lia. }
  set (e := Z.max (d + (g - 1074) - 53) (-1074)).
  assert (He : -1074 <= e <= g - 1074) by lia.
  destruct (Z.eq_dec e (g - 1074)) as [E|N].
  - exists K, e. split.
    + apply bounded_intro; [lia|]. fold d. lia.
    + rewrite E. f_equal. f_equal. lia.
  - destruct (g - 1074 - e) as [|k|k] eqn:EK; try lia.
    exists (Pos.iter xO K k), e.
    assert (D : Zpos (digits2_pos (Pos.iter xO K k)) = d + Zpos k).
    { apply digits2_unique. rewrite shift_pos_val.
      replace (d + Zpos k - 1) with ((d - 1) + Zpos k) by lia.
      rewrite (Z.pow_add_r 2 (d - 1) (Zpos k)), (Z.pow_add_r 2 d (Zpos k)) by lia.
      assert (0 < 2 ^ Zpos k) by (apply pow2_pos; lia).
      split; [apply Z.mul_le_mono_nonneg_r; lia | apply Z.mul_lt_mono_pos_r; lia]. }
    split.
    + apply bounded_intro; [lia|]. rewrite D. lia.
    + rewrite shift_pos_val. replace g with (Zpos k + (e + 1074)) by lia.
      rewrite (Z.pow_add_r 2 (Zpos k) (e + 1074)) by lia. ring.
Qed.

Lemma binary_normalize_exact M ez :
  -1074 <= ez -> representable (M * 2 ^ (ez + 1074)) ->
  SFval (binary_normalize prec emax M ez false) = M * 2 ^ (ez + 1074) /\
  valid_binary (binary_normalize prec emax M ez false) = true /\
  SFfinite (binary_normalize prec emax M ez false) = true.
Proof.
  intros Lz R.
  assert (P : 0 < 2 ^ (ez + 1074)) by (apply pow2_pos; lia).
  destruct M as [|M|M].
  - simpl. auto.
  - destruct R as [R|(K & g & R1 & R2 & R3)]; [lia|].
    destruct (canonical_exists K g R2 R3) as (m & e & B & V).
    rewrite Z.abs_eq in R1 by lia.
    unfold binary_normalize.
    rewrite (binary_round_exact false M ez m e B Lz) by lia.
    split; [unfold SFval, cond_Zopp; lia | split; [exact B | reflexivity]].
  - destruct R as [R|(K & g & R1 & R2 & R3)]; [lia|].
    destruct (canonical_exists K g R2 R3) as (m & e & B & V).
    rewrite Z.abs_neq in R1 by lia.
    unfold binary_normalize.
    rewrite (binary_round_exact true M ez m e B Lz) by lia.
    split; [unfold SFval, cond_Zopp; lia | split; [exact B | reflexivity]].
Qed.

Lemma finite_aligned s m e ez :
  ez <= e -> -1074 <= ez ->
  cond_Zopp s (Zpos (fst (shl_align m e ez))) * 2 ^ (ez + 1074)
  = SFval (S754_finite s m e).
Proof.
  intros L Lz. destruct (shl_align_val m e ez L) as [_ A].
  unfold SFval. rewrite A.
  replace (e + 1074) with ((e - ez) + (ez + 1074)) by lia.
  rewrite (Z.pow_add_r 2 (e - ez) (ez + 1074)) by lia.
  destruct s; unfold cond_Zopp; ring.
Qed.

Lemma SFadd_exact x y :
  valid_binary x = true -> valid_binary y = true ->
  SFfinite x = true -> SFfinite y = true ->
  representable (SFval x + SFval y) ->
  SFval (SF64add x y) = SFval x + SFval y /\
  valid_binary (SF64add x y) = true /\ SFfinite (SF64add x y) = true.
Proof.
  intros Vx Vy Fx Fy R.
  destruct x as [sx|sx| |sx mx ex], y as [sy|sy| |sy my ey]; try discriminate.
  - destruct sx, sy; simpl; auto.
  - simpl. auto.
  - simpl. split; [|auto]. destruct sx; lia.
  - unfold SF64add, SFadd.
    unfold valid_binary in Vx, Vy.
    pose proof (bounded_inv _ _ Vx) as (Hx & _).
    pose proof (bounded_inv _ _ Vy) as (Hy & _).
    set (ez := Z.min ex ey).
    assert (E : (cond_Zopp sx (Zpos (fst (shl_align mx ex ez)))
                 + cond_Zopp sy (Zpos (fst (shl_align my ey ez)))) * 2 ^ (ez + 1074)
                = SFval (S754_finite sx mx ex) + SFval (S754_finite sy my ey)).
    { rewrite Z.mul_add_distr_r, !finite_aligned by lia. reflexivity. }
    rewrite <- E. apply binary_normalize_exact; [lia|]. rewrite E. exact R.
Qed.

Lemma SFsub_exact x y :
  valid_binary x = true -> valid_binary y = true ->
  SFfinite x = true -> SFfinite y = true ->
  representable (SFval x - SFval y) ->
  SFval (SF64sub x y) = SFval x - SFval y /\
  valid_binary (SF64sub x y) = true /\ SFfinite (SF64sub x y) = true.
Proof.
  intros Vx Vy Fx Fy R.
  destruct x as [sx|sx| |sx mx ex], y as [sy|sy| |sy my ey]; try discriminate.
  - destruct sx, sy; simpl; auto.
  - unfold SF64sub, SFsub. unfold SFval, cond_Zopp, valid_binary, SFfinite.
    split; [|auto]. destruct sy; simpl; lia.
  - simpl. split; [|auto]. destruct sx; lia.
  - unfold SF64sub, SFsub.
    unfold valid_binary in Vx, Vy.
    pose proof (bounded_inv _ _ Vx) as (Hx & _).
    pose proof (bounded_inv _ _ Vy) as (Hy & _).
    set (ez := Z.min ex ey).
    assert (E : (cond_Zopp sx (Zpos (fst (shl_align mx ex ez)))
                 - cond_Zopp sy (Zpos (fst (shl_align my ey ez)))) * 2 ^ (ez + 1074)
                = SFval (S754_finite sx mx ex) - SFval (S754_finite sy my ey)).
    { rewrite Z.mul_sub_distr_r, !finite_aligned by lia. reflexivity. }
    rewrite <- E. apply binary_normalize_exact; [lia|]. rewrite E. exact R.
Qed.

(** *** The primitive floats *)

Lemma SFcompare_refl p : SFis_nan p = false -> SFcompare p p = Some Eq.
Proof.
  destruct p as [s|s| |s m e]; try discriminate; intros _; simpl.
  - reflexivity.
  - destruct s; reflexivity.
  - rewrite Z.compare_refl.
    change (Pos.compare_cont Eq m m) with (Pos.compare m m).
    rewrite Pos.compare_refl. destruct s; reflexivity.
Qed.

Lemma SFcompare_nan_l p q : SFis_nan p = true -> SFcompare p q = None.
Proof. destruct p; try discriminate. reflexivity. Qed.

Lemma SFcompare_nan_r p q : SFis_nan q = true -> SFcompare p q = None.
Proof. destruct q; try discriminate. destruct p; reflexivity. Qed.

Lemma is_nan_spec x : is_nan x = SFis_nan (Prim2SF x).
Proof.
  unfold is_nan. rewrite eqb_spec. unfold SFeqb.
  destruct (SFis_nan (Prim2SF x)) eqn:E.
  - rewrite SFcompare_nan_l by exact E. reflexivity.
  - rewrite SFcompare_refl by exact E. reflexivity.
Qed.

Lemma is_finite_spec x : is_finite x = ffinite x.
Proof.
  unfold is_finite, ffinite. rewrite is_nan_spec. unfold is_infinity.
  rewrite eqb_spec, abs_spec. change (Prim2SF infinity) with (S754_infinity false).
  destruct (Prim2SF x) as [s|s| |s m e]; reflexivity.
Qed.

Lemma float_compare_val x y :
  is_nan x = false -> is_nan y = false ->
  SFcompare (Prim2SF x) (Prim2SF y) = Some (Z.compare (fval x) (fval y)).
Proof.
  rewrite !is_nan_spec. intros Nx Ny.
  apply SFcompare_val; auto using Prim2SF_valid.
Qed.

Lemma float_compare_nan x y :
  is_nan x = true \/ is_nan y = true ->
  SFcompare (Prim2SF x) (Prim2SF y) = None.
Proof.
  rewrite !is_nan_spec. intros [N|N].
  - apply SFcompare_nan_l; auto.
  - apply SFcompare_nan_r; auto.
Qed.

Lemma ltb_iff x y :
  (x <? y)%float = true <->
  is_nan x = false /\ is_nan y = false /\ fval x < fval y.
Proof.
  rewrite ltb_spec. unfold SFltb.
  destruct (is_nan x) eqn:Nx; [rewrite float_compare_nan by auto; split; [discriminate | intros (A & B & C); congruence]|].
  destruct (is_nan y) eqn:Ny; [rewrite float_compare_nan by auto; split; [discriminate | intros (A & B & C); congruence]|].
  rewrite float_compare_val by auto.
  destruct (Z.compare_spec (fval x) (fval y)); split; intros; try discriminate; try lia; auto.
Qed.

Lemma leb_iff x y :
  (x <=? y)%float = true <->
  is_nan x = false /\ is_nan y = false /\ fval x <= fval y.
Proof.
  rewrite leb_spec. unfold SFleb.
  destruct (is_nan x) eqn:Nx; [rewrite float_compare_nan by auto; split; [discriminate | intros (A & B & C); congruence]|].
  destruct (is_nan y) eqn:Ny; [rewrite float_compare_nan by auto; split; [discriminate | intros (A & B & C); congruence]|].
  rewrite float_compare_val by auto.
  destruct (Z.compare_spec (fval x) (fval y)); split; intros; try discriminate; try lia; auto.
Qed.

Lemma eqb_iff x y :
  (x =? y)%float = true <->
  is_nan x = false /\ is_nan y = false /\ fval x = fval y.
Proof.
  rewrite eqb_spec. unfold SFeqb.
  destruct (is_nan x) eqn:Nx; [rewrite float_compare_nan by auto; split; [discriminate | intros (A & B & C); congruence]|].
  destruct (is_nan y) eqn:Ny; [rewrite float_compare_nan by auto; split; [discriminate | intros (A & B & C); congruence]|].
  rewrite float_compare_val by auto.
  destruct (Z.compare_spec (fval x) (fval y)); split; intros; try discriminate; try lia; auto.
Qed.

Lemma ltb_false_iff x y :
  (x <? y)%float = false <->
  is_nan x = true \/ is_nan y = true \/ fval y <= fval x.
Proof.
  destruct (x <? y)%float eqn:E.
  - apply ltb_iff in E. destruct E as (A & B & C).
    split; [discriminate|]. intros [H|[H|H]]; [congruence|congruence|lia].
  - split; auto. intros _.
    destruct (is_nan x) eqn:Nx; auto. destruct (is_nan y) eqn:Ny; auto.
    right; right. destruct (Z.le_gt_cases (fval y) (fval x)) as [L|G]; auto.
    assert (T : (x <? y)%float = true) by (apply ltb_iff; auto). congruence.
Qed.

Lemma leb_false_iff x y :
  (x <=? y)%float = false <->
  is_nan x = true \/ is_nan y = true \/ fval y < fval x.
Proof.
  destruct (x <=? y)%float eqn:E.
  - apply leb_iff in E. destruct E as (A & B & C).
    split; [discriminate|]. intros [H|[H|H]]; [congruence|congruence|lia].
  - split; auto. intros _.
    destruct (is_nan x) eqn:Nx; auto. destruct (is_nan y) eqn:Ny; auto.
    right; right. destruct (Z.lt_ge_cases (fval y) (fval x)) as [L|G]; auto.
    assert (T : (x <=? y)%float = true) by (apply leb_iff; auto). congruence.
Qed.

Lemma ffinite_iff x :
  ffinite x = true <->
  is_nan x = false /\ - 2 ^ 2100 < fval x < 2 ^ 2100.
Proof.
  unfold ffinite, fval. rewrite is_nan_spec.
  pose proof (Prim2SF_valid x) as V.
  assert (P : 0 < 2 ^ 2100) by (apply pow2_pos; lia).
  destruct (Prim2SF x) as [s|s| |s m e]; unfold SFfinite, SFis_nan, SFval, cond_Zopp.
  - split; [intros _; split; [reflexivity | lia] | reflexivity].
  - split; [discriminate|]. intros [_ H]. destruct s; lia.
  - split; [discriminate|]. intros [H _]. discriminate.
  - split; [intros _; split; [reflexivity|] | reflexivity].
    pose proof (finite_val_range m e V). destruct s; lia.
Qed.

Lemma add_exact x y :
  ffinite x = true -> ffinite y = true ->
  representable (fval x + fval y) ->
  fval (x + y) = fval x + fval y /\ ffinite (x + y) = true.
Proof.
  unfold fval, ffinite. intros Fx Fy R. rewrite add_spec.
  destruct (SFadd_exact (Prim2SF x) (Prim2SF y)) as (A & _ & C);
    auto using Prim2SF_valid.
Qed.

Lemma sub_exact x y :
  ffinite x = true -> ffinite y = true ->
  representable (fval x - fval y) ->
  fval (x - y) = fval x - fval y /\ ffinite (x - y) = true.
Proof.
  unfold fval, ffinite. intros Fx Fy R. rewrite sub_spec.
  destruct (SFsub_exact (Prim2SF x) (Prim2SF y)) as (A & _ & C);
    auto using Prim2SF_valid.
Qed.

(** *** Rounded sums are numbers *)

Lemma shr_1_nonneg mrs : 0 <= shr_m mrs -> 0 <= shr_m (shr_1 mrs).
Proof.
  destruct mrs as [m r s]. simpl. intros H.
  destruct m as [|[p|p|]|p]; simpl; lia.
Qed.

Lemma shr_nonneg mrs e n : 0 <= shr_m mrs -> 0 <= shr_m (fst (shr mrs e n)).
Proof.
  intros H. unfold shr. destruct n as [|p|p]; simpl; auto.
  rewrite iter_pos_eq. apply Pos.iter_invariant; auto using shr_1_nonneg.
Qed.

Lemma shr_fexp_nonneg m e l :
  0 <= m -> 0 <= shr_m (fst (shr_fexp prec emax m e l)).
Proof.
  intros H. unfold shr_fexp. apply shr_nonneg.
  destruct l as [|[ | | ]]; simpl; exact H.
Qed.

Lemma round_nearest_even_nonneg m l : 0 <= m -> 0 <= round_nearest_even m l.
Proof.
  intros H. unfold round_nearest_even.
  destruct l as [|[ | | ]]; try lia. destruct (Z.even m); lia.
Qed.

Lemma binary_round_aux_not_nan s m e l :
  0 <= m -> SFis_nan (binary_round_aux prec emax s m e l) = false.
Proof.
  intros H. unfold binary_round_aux.
  pose proof (shr_fexp_nonneg m e l H) as H1.
  destruct (shr_fexp prec emax m e l) as [mrs' e'] eqn:E1. simpl in H1.
  pose proof (shr_fexp_nonneg
                (round_nearest_even (shr_m mrs') (loc_of_shr_record mrs')) e' loc_Exact
                (round_nearest_even_nonneg _ _ H1)) as H2.
  destruct (shr_fexp prec emax (round_nearest_even (shr_m mrs') (loc_of_shr_record mrs'))
              e' loc_Exact) as [mrs'' e''] eqn:E2. simpl in H2.
  destruct (shr_m mrs'') as [|p|p]; try lia; [reflexivity|].
  destruct (e'' <=? emax - prec); reflexivity.
Qed.

Lemma binary_normalize_not_nan M e sz :
  SFis_nan (binary_normalize prec emax M e sz) = false.
Proof.
  unfold binary_normalize, binary_round.
  destruct M as [|p|p]; [reflexivity| |];
    destruct (shl_align p e (fexp prec emax (Zpos (digits2_pos p) + e))) as [mz ez];
    apply binary_round_aux_not_nan; lia.
Qed.

Lemma SFadd_not_nan x y :
  SFfinite x = true -> SFfinite y = true -> SFis_nan (SF64add x y) = false.
Proof.
  intros Fx Fy.
  destruct x as [sx|sx| |sx mx ex], y as [sy|sy| |sy my ey]; try discriminate;
    unfold SF64add, SFadd.
  - destruct sx, sy; reflexivity.
  - reflexivity.
  - reflexivity.
  - apply binary_normalize_not_nan.
Qed.

Lemma add_not_nan x y :
  ffinite x = true -> ffinite y = true -> is_nan (x + y) = false.
Proof.
  unfold ffinite. intros Fx Fy. rewrite is_nan_spec, add_spec.
  apply SFadd_not_nan; auto.
Qed.

(** *** Signs *)

Lemma ltb_zero x : (x <? 0)%float = SFnegative (Prim2SF x).
Proof.
  rewrite ltb_spec. change (Prim2SF 0) with (S754_zero false).
  destruct (Prim2SF x) as [s|s| |s m e]; try destruct s; reflexivity.
Qed.

Lemma binary_round_aux_sign m e l :
  SFnegative (binary_round_aux prec emax false m e l) = false.
Proof.
  unfold binary_round_aux.
  destruct (shr_fexp prec emax m e l) as [mrs' e'].
  destruct (shr_fexp prec emax _ e' loc_Exact) as [mrs'' e''].
  destruct (shr_m mrs'') as [|p|p]; try reflexivity.
  destruct (e'' <=? emax - prec); reflexivity.
Qed.

Lemma binary_normalize_sign M e :
  0 <= M -> SFnegative (binary_normalize prec emax M e false) = false.
Proof.
  intros H. unfold binary_normalize, binary_round.
  destruct M as [|p|p]; [reflexivity| |lia].
  destruct (shl_align p e (fexp prec emax (Zpos (digits2_pos p) + e))) as [mz ez].
  apply binary_round_aux_sign.
Qed.

Lemma SFadd_nonneg x y :
  SFis_nan x = false -> SFnegative x = false ->
  SFis_nan y = false -> SFnegative y = false ->
  SFis_nan (SF64add x y) = false /\ SFnegative (SF64add x y) = false.
Proof.
  intros Nx Sx Ny Sy.
  destruct x as [sx|sx| |sx mx ex], y as [sy|sy| |sy my ey]; try discriminate;
    unfold SF64add, SFadd; simpl in Sx, Sy; try subst sx; try subst sy;
    try (split; reflexivity).
  - destruct sx, sy; split; reflexivity.
  - split; [apply binary_normalize_not_nan|].
    apply binary_normalize_sign. simpl. lia.
Qed.

Lemma SFmul_sign_r x my ey :
  SFnegative x = false ->
  SFnegative (SF64mul x (S754_finite false my ey)) = false.
Proof.
  intros Sx. destruct x as [sx|sx| |sx mx ex]; unfold SF64mul, SFmul;
    simpl in Sx; try subst sx; try reflexivity.
  apply binary_round_aux_sign.
Qed.

Lemma SFmul_sign_l x my ey :
  SFnegative x = false ->
  SFnegative (SF64mul (S754_finite false my ey) x) = false.
Proof.
  intros Sx. destruct x as [sx|sx| |sx mx ex]; unfold SF64mul, SFmul;
    simpl in Sx; try subst sx; try reflexivity.
  apply binary_round_aux_sign.
Qed.

Lemma SFmul_not_nan_r x sy my ey :
  SFis_nan x = false -> SFis_nan (SF64mul x (S754_finite sy my ey)) = false.
Proof.
  intros Nx. destruct x as [sx|sx| |sx mx ex]; unfold SF64mul, SFmul;
    try discriminate; try reflexivity.
  apply binary_round_aux_not_nan. lia.
Qed.

Lemma SFdiv_sign_r x my ey :
  SFnegative x = false ->
  SFnegative (SF64div x (S754_finite false my ey)) = false.
Proof.
  intros Sx. destruct x as [sx|sx| |sx mx ex]; unfold SF64div, SFdiv;
    simpl in Sx; try subst sx; try reflexivity.
  destruct (SFdiv_core_binary prec emax (Z.pos mx) ex (Z.pos my) ey) as [[mz ez] lz].
  apply binary_round_aux_sign.
Qed.

Lemma SFdiv_not_nan_r x sy my ey :
  SFis_nan x = false -> SFis_nan (SF64div x (S754_finite sy my ey)) = false.
Proof.
  intros Nx. destruct x as [sx|sx| |sx mx ex]; unfold SF64div, SFdiv;
    try discriminate; try reflexivity.
  destruct (SFdiv_core_binary prec emax (Z.pos mx) ex (Z.pos my) ey)
    as [[mz ez] lz] eqn:E.
  apply binary_round_aux_not_nan.
  unfold SFdiv_core_binary in E.
  set (m' := match (ex - ey - _)%Z with 0 => Z.pos mx | Z.pos _ => _ | Z.neg _ => 0 end) in E.
  assert (P : 0 <= m').
  { unfold m'. destruct (ex - ey - _)%Z; try lia. apply Z.shiftl_nonneg. lia. }
  pose proof (Z.div_pos m' (Z.pos my) P ltac:(lia)) as Q.
  unfold Z.div in Q.
  destruct (Z.div_eucl m' (Z.pos my)) as [q r]. simpl in Q.
  inversion E; subst. exact Q.
Qed.

Lemma SFsqrt_sign x : SFnegative (SF64sqrt x) = false.
Proof.
  destruct x as [sx|sx| |sx mx ex]; unfold SF64sqrt, SFsqrt; try reflexivity.
  - destruct sx; reflexivity.
  - destruct sx; [reflexivity|].
    destruct (SFsqrt_core_binary prec emax (Z.pos mx) ex) as [[mz ez] lz].
    apply binary_round_aux_sign.
Qed.

(** At the level of floats: a number that is not below zero. *)
Lemma nonneg_spec x :
  nonneg x = true <-> SFis_nan (Prim2SF x) = false /\ SFnegative (Prim2SF x) = false.
Proof.
  unfold nonneg. rewrite is_nan_spec, ltb_zero.
  destruct (SFis_nan (Prim2SF x)), (SFnegative (Prim2SF x)); simpl;
    split; try discriminate; auto; intros [? ?]; discriminate.
Qed.

Lemma add_nonneg x y :
  nonneg x = true -> nonneg y = true -> nonneg (x + y)%float = true.
Proof.
  intros Hx Hy. apply nonneg_spec in Hx as [Nx Sx]. apply nonneg_spec in Hy as [Ny Sy].
  apply nonneg_spec. rewrite add_spec. apply SFadd_nonneg; auto.
Qed.

Lemma mul_const_nonneg x c my ey :
  Prim2SF c = S754_finite false my ey ->
  nonneg x = true -> nonneg (x * c)%float = true.
Proof.
  intros Hc Hx. apply nonneg_spec in Hx as [Nx Sx].
  apply nonneg_spec. rewrite mul_spec, Hc.
  split; [apply SFmul_not_nan_r|apply SFmul_sign_r]; auto.
Qed.

Lemma div_const_nonneg x c my ey :
  Prim2SF c = S754_finite false my ey ->
  nonneg x = true -> nonneg (x / c)%float = true.
Proof.
  intros Hc Hx. apply nonneg_spec in Hx as [Nx Sx].
  apply nonneg_spec. rewrite div_spec, Hc.
  split; [apply SFdiv_not_nan_r|apply SFdiv_sign_r]; auto.
Qed.

Lemma const_mul_not_below x c my ey :
  Prim2SF c = S754_finite false my ey ->
  (x <? 0)%float = false -> (c * x <? 0)%float = false.
Proof.
  intros Hc Hx. rewrite ltb_zero in *. rewrite mul_spec, Hc.
  apply SFmul_sign_l. exact Hx.
Qed.

Lemma sqrt_not_below x : (sqrt x <? 0)%float = false.
Proof. rewrite ltb_zero, sqrt_spec. apply SFsqrt_sign. Qed.

End Binary64.

(* ------------------------------------------------------------------ *)
(** ** Comparisons of constants and derived order facts *)

Lemma one_pos : (0 < one)%Z.
Proof. reflexivity. Qed.

Lemma fval_zero : fval 0 = 0%Z.
Proof. reflexivity. Qed.

Lemma fval_SMALL_TRUCK : fval SMALL_TRUCK = (3 * one)%Z.
Proof. vm_compute. reflexivity. Qed.

Lemma fval_MEDIUM_TRUCK : fval MEDIUM_TRUCK = (7 * one)%Z.
Proof. vm_compute. reflexivity. Qed.

Lemma fval_BIG_TRUCK : fval BIG_TRUCK = (12 * one)%Z.
Proof. vm_compute. reflexivity. Qed.

Lemma feqb_sym a b : (a =? b) = (b =? a).
Proof.
  apply eq_true_iff_eq. rewrite !eqb_iff.
  split; intros (A & B & C); repeat split; auto.
Qed.

Lemma feqb_trans a b c : (a =? b) = true -> (b =? c) = true -> (a =? c) = true.
Proof.
  rewrite !eqb_iff. intros (A1 & A2 & A3) (B1 & B2 & B3).
  repeat split; auto. congruence.
Qed.

Lemma feqb_refl a : is_nan a = false -> (a =? a) = true.
Proof. intros N. apply eqb_iff. auto. Qed.

(** Turns the float comparisons among the hypotheses into facts about
    values. *)
Ltac float_facts :=
  cbv beta in *;
  repeat match goal with
  | H : (_ <? _) = true |- _ => apply ltb_iff in H; destruct H as (? & ? & ?)
  | H : (_ <=? _) = true |- _ => apply leb_iff in H; destruct H as (? & ? & ?)
  | H : (_ =? _) = true |- _ => apply eqb_iff in H; destruct H as (? & ? & ?)
  | H : (_ <? _) = false |- _ => apply ltb_false_iff in H
  | H : (_ <=? _) = false |- _ => apply leb_false_iff in H
  end.

(* ------------------------------------------------------------------ *)
(** ** The result monad *)

Lemma bind_Ok {A B : Type} (m : result A) (f : A -> result B) (b : B) :
  bind m f = Ok b -> exists a, m = Ok a /\ f a = Ok b.
Proof.
  destruct m as [a|e|]; simpl; intros H; try discriminate. eauto.
Qed.

Ltac bind_inv H :=
  let a := fresh "a" in
  let E := fresh "E" in
  apply bind_Ok in H; destruct H as (a & E & H).

(* ------------------------------------------------------------------ *)
(** ** Distance and travel time *)

(** C9, for NaN inputs: a NaN latitude or longitude in either point makes
    [calculate_distance] return the fallback 50.0 km, without raising
    and without consulting the C library; [get_travel_time] is a total
    function that returns 1.0 hours on NaN and [(dist_km / 60.0) * 1.1]
    on every other float. *)
Theorem calculate_distance_nan_fallback (coord1 coord2 : Coordinates) :
  is_nan (latitude coord1) || is_nan (longitude coord1) ||
  is_nan (latitude coord2) || is_nan (longitude coord2) = true ->
  calculate_distance coord1 coord2 = Ok 50 /\
  forall dist_km : float,
    (is_nan dist_km = true -> get_travel_time dist_km = 1) /\
    (is_nan dist_km = false ->
     get_travel_time dist_km = (dist_km / SPEED_KMH) * 0x1.199999999999ap+0).
Proof.
  intros H. split.
  - unfold calculate_distance. rewrite H. reflexivity.
  - intros d. unfold get_travel_time. split; intros N; rewrite N; reflexivity.
Qed.

(* ------------------------------------------------------------------ *)
(** ** Compatibility pools *)

Section PoolFacts.
Context {K : Type}.
Variable key : Orders -> K.
Variable key_eqb : K -> K -> bool.
Hypothesis key_eqb_sym : forall a b, key_eqb a b = key_eqb b a.
Hypothesis key_eqb_trans :
  forall a b c, key_eqb a b = true -> key_eqb b c = true -> key_eqb a c = true.

Let differ (a b : K) : Prop := key_eqb a b = false.

Lemma pools_append_perm (P : list (K * list Orders)) k o :
  Permutation (concat (map snd (pools_append key_eqb P k o)))
              (o :: concat (map snd P)).
Proof.
  induction P as [|[k' os] rest IH]; simpl.
  - reflexivity.
  - destruct (key_eqb k' k); simpl.
    + rewrite <- app_assoc. simpl.
      symmetry. apply Permutation_middle.
    + rewrite IH. symmetry. apply Permutation_middle.
Qed.

Lemma create_pools_by_perm_gen orders (P : list (K * list Orders)) :
  Permutation
    (concat (map snd (fold_left (fun pools order =>
                                   pools_append key_eqb pools (key order) order)
                                orders P)))
    (concat (map snd P) ++ orders).
Proof.
  revert P. induction orders as [|o rest IH]; intros P; simpl.
  - rewrite app_nil_r. reflexivity.
  - rewrite IH, pools_append_perm. simpl. apply Permutation_middle.
Qed.

(** The two ways [pools_append] can go. *)
Lemma pools_append_spec (P : list (K * list Orders)) k o :
  (exists P1 k' os P2,
      P = P1 ++ (k', os) :: P2 /\ key_eqb k' k = true /\
      Forall (fun p => key_eqb (fst p) k = false) P1 /\
      pools_append key_eqb P k o = P1 ++ (k', os ++ [o]) :: P2)
  \/ (Forall (fun p => key_eqb (fst p) k = false) P /\
      pools_append key_eqb P k o = P ++ [(k, [o])]).
Proof.
  induction P as [|[k' os] rest IH]; simpl.
  - right. auto.
  - destruct (key_eqb k' k) eqn:E.
    + left. exists [], k', os, rest. simpl. auto.
    + destruct IH as [(P1 & k1 & os1 & P2 & E1 & E2 & E3 & E4)|[F1 F2]].
      * left. exists ((k', os) :: P1), k1, os1, P2. simpl.
        rewrite E4, E1. repeat split; auto.
      * right. rewrite F2. split; auto.
Qed.

Lemma FOP_app_inv (R : K -> K -> Prop) l1 x l2 :
  ForallOrdPairs R (l1 ++ x :: l2) -> Forall (fun a => R a x) l1 /\ Forall (R x) l2.
Proof.
  induction l1 as [|a l1 IH]; simpl; intros H; inversion H; subst.
  - auto.
  - destruct (IH H3) as [A B]. split; auto. constructor; auto.
    rewrite Forall_forall in H2. apply H2. apply in_or_app. right. left. reflexivity.
Qed.

Lemma FOP_snoc (R : K -> K -> Prop) l x :
  ForallOrdPairs R l -> Forall (fun a => R a x) l -> ForallOrdPairs R (l ++ [x]).
Proof.
  induction l as [|a l IH]; simpl; intros H F.
  - constructor; constructor.
  - inversion H; subst. inversion F; subst. constructor; auto.
    apply Forall_app. split; auto.
Qed.

Lemma pools_append_inv done P o :
  key_eqb (key o) (key o) = true ->
  pools_inv key key_eqb done P -> pools_inv key key_eqb (done ++ [o]) (pools_append key_eqb P (key o) o).
Proof using key_eqb_sym key_eqb_trans.
  intros R (ND & FA & CV).
  destruct (pools_append_spec P (key o) o)
    as [(P1 & k' & os & P2 & E1 & E2 & E3 & E4)|[F1 F2]].
  - rewrite E4. subst P.
    rewrite map_app in ND. simpl in ND.
    destruct (FOP_app_inv _ _ _ _ ND) as [D1 D2].
    apply Forall_app in FA as [FA1 FA2]. inversion FA2 as [|? ? (G1 & G2 & G3) FA3]; subst.
    simpl in G1, G2, G3.
    split; [|split].
    + rewrite map_app. simpl. exact ND.
    + apply Forall_app. split; [|constructor].
      * rewrite Forall_forall in *. intros p Hp.
        destruct (FA1 p Hp) as (A1 & A2 & A3).
        rewrite filter_app. simpl. rewrite (E3 p Hp), app_nil_r. auto.
      * simpl. rewrite filter_app. simpl. rewrite E2, <- G1.
        split; [reflexivity|]. split; [destruct os; discriminate|auto].
      * rewrite Forall_forall in *. intros p Hp.
        destruct (FA3 p Hp) as (A1 & A2 & A3).
        rewrite filter_app. simpl.
        destruct (key_eqb (fst p) (key o)) eqn:E5.
        -- exfalso. assert (X : differ k' (fst p)).
           { apply D2. apply in_map. exact Hp. }
           unfold differ in X.
           rewrite (key_eqb_trans k' (key o) (fst p)) in X; auto; [discriminate|].
           rewrite key_eqb_sym. exact E5.
        -- rewrite app_nil_r. auto.
    + apply Forall_app. split.
      * rewrite Forall_forall in *. intros d Hd.
        destruct (CV d Hd) as (p & Hp & Hk).
        apply in_app_or in Hp as [Hp|[Hp|Hp]].
        -- exists p. split; auto. apply in_or_app. auto.
        -- subst p. exists (k', os ++ [o]). split; auto.
           apply in_or_app. right. left. reflexivity.
        -- exists p. split; auto. apply in_or_app. right. right. exact Hp.
      * constructor; [|constructor]. exists (k', os ++ [o]). split; auto.
        apply in_or_app. right. left. reflexivity.
  - rewrite F2.
    assert (Hnew : filter (fun o' => key_eqb (key o) (key o')) done = []).
    { clear - CV F1 key_eqb_sym key_eqb_trans.
      rewrite Forall_forall in CV, F1.
      assert (G : forall d, In d done -> key_eqb (key o) (key d) = false).
      { intros d Hd. destruct (CV d Hd) as (p & Hp & Hk).
        destruct (key_eqb (key o) (key d)) eqn:E; auto.
        rewrite <- (F1 p Hp). symmetry.
        apply key_eqb_trans with (key d); auto. rewrite key_eqb_sym. exact E. }
      clear CV. induction done as [|d done' IHd]; simpl; auto.
      rewrite (G d) by (left; reflexivity). apply IHd. intros x Hx. apply G. right. exact Hx. }
    split; [|split].
    + rewrite map_app. simpl. apply FOP_snoc; auto.
      rewrite Forall_forall in *. intros a Ha.
      apply in_map_iff in Ha as (p & Ep & Hp). subst a. apply F1. exact Hp.
    + apply Forall_app. split; [|constructor; [|constructor]].
      * rewrite Forall_forall in *. intros p Hp.
        destruct (FA p Hp) as (A1 & A2 & A3).
        rewrite filter_app. simpl. rewrite (F1 p Hp), app_nil_r. auto.
      * simpl. rewrite filter_app. simpl. rewrite R, Hnew.
        split; [reflexivity|]. split; [discriminate|auto].
    + apply Forall_app. split.
      * rewrite Forall_forall in *. intros d Hd.
        destruct (CV d Hd) as (p & Hp & Hk).
        exists p. split; auto. apply in_or_app. auto.
      * constructor; [|constructor]. exists (key o, [o]). split; auto.
        apply in_or_app. right. left. reflexivity.
Qed.

Lemma create_pools_by_inv_gen rest done P :
  Forall (fun o => key_eqb (key o) (key o) = true) rest ->
  pools_inv key key_eqb done P ->
  pools_inv key key_eqb (done ++ rest)
    (fold_left (fun pools order => pools_append key_eqb pools (key order) order) rest P).
Proof using key_eqb_sym key_eqb_trans.
  revert done P. induction rest as [|o rest IH]; intros done P F I; simpl.
  - rewrite app_nil_r. exact I.
  - inversion F; subst.
    replace (done ++ o :: rest) with ((done ++ [o]) ++ rest)
      by (rewrite <- app_assoc; reflexivity).
    apply IH; auto. apply pools_append_inv; auto.
Qed.

Lemma create_pools_by_inv orders :
  Forall (fun o => key_eqb (key o) (key o) = true) orders ->
  pools_inv key key_eqb orders (create_pools_by key key_eqb orders).
Proof using key_eqb_sym key_eqb_trans.
  intros F. apply (create_pools_by_inv_gen orders [] []); auto.
  repeat split; constructor.
Qed.

End PoolFacts.

(** *** The comparison of dictionary keys *)

Lemma feqb_nan_l a b : is_nan a = true -> (a =? b) = false.
Proof.
  intros N. destruct (a =? b) eqn:E; [|reflexivity].
  apply eqb_iff in E as (Na & _). congruence.
Qed.

Lemma float_ref_same_sym r1 r2 : float_ref_same r1 r2 = float_ref_same r2 r1.
Proof.
  destruct r1 as [i1 d1], r2 as [i2 d2]. unfold float_ref_same. simpl.
  destruct (is_nan d1) eqn:N1, (is_nan d2) eqn:N2; simpl.
  - apply Nat.eqb_sym.
  - symmetry. rewrite feqb_sym. apply feqb_nan_l. exact N1.
  - rewrite feqb_sym. apply feqb_nan_l. exact N2.
  - apply feqb_sym.
Qed.

Lemma float_ref_same_trans r1 r2 r3 :
  float_ref_same r1 r2 = true -> float_ref_same r2 r3 = true ->
  float_ref_same r1 r3 = true.
Proof.
  destruct r1 as [i1 d1], r2 as [i2 d2], r3 as [i3 d3].
  unfold float_ref_same. simpl.
  destruct (is_nan d1) eqn:N1.
  - intros A. apply andb_prop in A as [A1 A2]. rewrite A1.
    intros B. apply andb_prop in B as [B1 B2]. rewrite B1. simpl.
    apply Nat.eqb_eq in A2, B2. apply Nat.eqb_eq. congruence.
  - intros A. pose proof A as A'. apply eqb_iff in A' as (_ & N2 & _).
    rewrite N2. intros B. apply (feqb_trans _ _ _ A B).
Qed.

(** On references into one store the two comparisons agree. *)
Lemma float_ref_eqb_same r1 r2 :
  (fst r1 = fst r2 -> snd r1 = snd r2) ->
  float_ref_eqb r1 r2 = float_ref_same r1 r2.
Proof.
  destruct r1 as [i1 d1], r2 as [i2 d2].
  unfold float_ref_eqb, float_ref_same. simpl. intros W.
  destruct (Nat.eqb i1 i2) eqn:I; simpl.
  - apply Nat.eqb_eq in I. specialize (W I). subst d2.
    destruct (is_nan d1) eqn:N; [reflexivity|].
    symmetry. apply feqb_refl. exact N.
  - destruct (is_nan d1) eqn:N1; [|reflexivity].
    rewrite andb_false_r. apply feqb_nan_l. exact N1.
Qed.

Lemma pool_key_same_sym a b : pool_key_same a b = pool_key_same b a.
Proof.
  destruct a as [[[s1 d1] c1] e1], b as [[[s2 d2] c2] e2]. simpl.
  rewrite (String.eqb_sym s1 s2), (float_ref_same_sym d1 d2),
    (String.eqb_sym c1 c2), (String.eqb_sym e1 e2). reflexivity.
Qed.

Lemma pool_key_same_trans a b c :
  pool_key_same a b = true -> pool_key_same b c = true ->
  pool_key_same a c = true.
Proof.
  destruct a as [[[s1 d1] c1] e1], b as [[[s2 d2] c2] e2], c as [[[s3 d3] c3] e3].
  simpl. rewrite !andb_true_iff.
  intros [[[A1 A2] A3] A4] [[[B1 B2] B3] B4].
  apply String.eqb_eq in A1, A3, A4, B1, B3, B4. subst.
  rewrite !String.eqb_refl. rewrite (float_ref_same_trans _ _ _ A2 B2). auto.
Qed.

Lemma pool_key_test_same_sym a b :
  pool_key_test_same a b = pool_key_test_same b a.
Proof.
  destruct a as [[s1 d1] c1], b as [[s2 d2] c2]. simpl.
  rewrite (String.eqb_sym s1 s2), (float_ref_same_sym d1 d2),
    (String.eqb_sym c1 c2). reflexivity.
Qed.

Lemma pool_key_test_same_trans a b c :
  pool_key_test_same a b = true -> pool_key_test_same b c = true ->
  pool_key_test_same a c = true.
Proof.
  destruct a as [[s1 d1] c1], b as [[s2 d2] c2], c as [[s3 d3] c3].
  simpl. rewrite !andb_true_iff.
  intros [[A1 A2] A3] [[B1 B2] B3].
  apply String.eqb_eq in A1, A3, B1, B3. subst.
  rewrite !String.eqb_refl. rewrite (float_ref_same_trans _ _ _ A2 B2). auto.
Qed.

Lemma float_ref_same_refl r : float_ref_same r r = true.
Proof.
  destruct r as [i d]. unfold float_ref_same. simpl.
  destruct (is_nan d) eqn:N; [apply Nat.eqb_refl|apply feqb_refl; exact N].
Qed.

(** *** Two comparisons that agree on the keys of the orders *)

Section PoolTransfer.
Context {K : Type}.
Variable key : Orders -> K.
Variables eqb1 eqb2 : K -> K -> bool.

Lemma pools_append_ext (P : list (K * list Orders)) k o :
  (forall p, In p P -> eqb1 (fst p) k = eqb2 (fst p) k) ->
  pools_append eqb1 P k o = pools_append eqb2 P k o.
Proof.
  induction P as [|[k' os] rest IH]; simpl; intros H; [reflexivity|].
  pose proof (H (k', os) (or_introl eq_refl)) as E. simpl in E.
  rewrite <- E. destruct (eqb1 k' k); [reflexivity|].
  rewrite IH; [reflexivity|]. intros p Hp. apply H. right. exact Hp.
Qed.

Lemma pools_append_keys (P : list (K * list Orders)) k o p :
  In p (pools_append eqb2 P k o) ->
  fst p = k \/ exists p0, In p0 P /\ fst p = fst p0.
Proof.
  induction P as [|[k' os] rest IH]; simpl.
  - intros [<-|[]]. left. reflexivity.
  - destruct (eqb2 k' k); simpl.
    + intros [<-|H]; right.
      * exists (k', os). auto.
      * exists p. auto.
    + intros [<-|H].
      * right. exists (k', os). auto.
      * destruct (IH H) as [E|(p0 & Hp0 & E)]; [left; exact E|].
        right. exists p0. auto.
Qed.

Lemma create_pools_by_ext_gen (U rest : list Orders) (P : list (K * list Orders)) :
  (forall a b, In a U -> In b U -> eqb1 (key a) (key b) = eqb2 (key a) (key b)) ->
  incl rest U ->
  (forall p, In p P -> exists o, In o U /\ fst p = key o) ->
  fold_left (fun pools order => pools_append eqb1 pools (key order) order) rest P
  = fold_left (fun pools order => pools_append eqb2 pools (key order) order) rest P.
Proof.
  intros A. revert P. induction rest as [|o rest IH]; intros P I HP; simpl.
  - reflexivity.
  - assert (Ho : In o U) by (apply I; left; reflexivity).
    rewrite pools_append_ext.
    + apply IH.
      * intros x Hx. apply I. right. exact Hx.
      * intros p Hp. apply pools_append_keys in Hp as [E|(p0 & Hp0 & E)].
        -- exists o. auto.
        -- destruct (HP p0 Hp0) as (o0 & Ho0 & E0). exists o0.
           split; [exact Ho0|congruence].
    + intros p Hp. destruct (HP p Hp) as (o0 & Ho0 & E0).
      rewrite E0. apply A; assumption.
Qed.

Lemma create_pools_by_ext (orders : list Orders) :
  (forall a b, In a orders -> In b orders ->
               eqb1 (key a) (key b) = eqb2 (key a) (key b)) ->
  create_pools_by key eqb1 orders = create_pools_by key eqb2 orders.
Proof.
  intros A. unfold create_pools_by.
  apply (create_pools_by_ext_gen orders orders []); auto.
  - apply incl_refl.
  - intros p [].
Qed.

End PoolTransfer.

(** *** From the keys of the dictionary to the orders of the pools *)

Lemma FOP_pools {K : Type} (R : K -> K -> Prop)
  (R' : list Orders -> list Orders -> Prop) (pools : list (K * list Orders)) :
  (forall p q, In p pools -> In q pools -> R (fst p) (fst q) -> R' (snd p) (snd q)) ->
  ForallOrdPairs R (map fst pools) -> ForallOrdPairs R' (map snd pools).
Proof.
  induction pools as [|p pools IH]; simpl; intros H F.
  - constructor.
  - inversion F as [|? ? F1 F2]; subst. constructor.
    + apply Forall_forall. intros y Hy.
      apply in_map_iff in Hy as (q & <- & Hq).
      apply H; [left; reflexivity|right; exact Hq|].
      rewrite Forall_forall in F1. apply F1. apply in_map. exact Hq.
    + apply IH; [|exact F2]. intros p0 q0 Hp Hq. apply H; right; assumption.
Qed.

Lemma stable_partition_orders {K : Type} (key : Orders -> K)
  (key_eqb : K -> K -> bool) (same : Orders -> Orders -> bool)
  (orders : list Orders) (pools : list (K * list Orders)) :
  (forall a b, key_eqb a b = key_eqb b a) ->
  (forall a b c, key_eqb a b = true -> key_eqb b c = true -> key_eqb a c = true) ->
  (forall a b, In a orders -> In b orders ->
               key_eqb (key a) (key b) = same a b) ->
  stable_partition key key_eqb orders pools ->
  partitions_stably same orders (map snd pools).
Proof.
  intros Hs Ht Ha (P1 & P2 & P3).
  assert (Hin : forall p o, In p pools -> In o (snd p) ->
                            In o orders /\ key_eqb (fst p) (key o) = true).
  { intros p o Hp Ho. rewrite Forall_forall in P3.
    destruct (P3 p Hp) as (E & _). rewrite E in Ho.
    apply filter_In in Ho. exact Ho. }
  assert (Hfil : forall p o, In p pools -> In o (snd p) ->
                             snd p = filter (same o) orders).
  { intros p o Hp Ho. destruct (Hin p o Hp Ho) as (Io & Ko).
    rewrite Forall_forall in P3. destruct (P3 p Hp) as (E & _).
    rewrite E at 1. apply filter_ext_in. intros x Hx.
    rewrite <- (Ha o x Io Hx).
    destruct (key_eqb (key o) (key x)) eqn:E1.
    - apply (Ht _ _ _ Ko E1).
    - destruct (key_eqb (fst p) (key x)) eqn:E2; [|reflexivity].
      rewrite <- E1. symmetry. apply (Ht _ (fst p)); [|exact E2].
      rewrite Hs. exact Ko. }
  assert (P3' : Forall (fun p => p <> [] /\
                   forall o, In o p -> p = filter (same o) orders) (map snd pools)).
  { apply Forall_forall. intros os Hos.
    apply in_map_iff in Hos as (p & <- & Hp).
    rewrite Forall_forall in P3. destruct (P3 p Hp) as (_ & N).
    split; [exact N|]. intros o Ho. apply Hfil; assumption. }
  split; [exact P1|]. split; [|split; [exact P3'|]].
  - apply (FOP_pools (fun a b => key_eqb a b = false)); [|exact P2].
    intros p q Hp Hq D a b Ia Ib.
    destruct (Hin p a Hp Ia) as (Oa & Ka).
    destruct (Hin q b Hq Ib) as (Ob & Kb).
    rewrite <- (Ha a b Oa Ob).
    destruct (key_eqb (key a) (key b)) eqn:E; [|reflexivity].
    rewrite <- D. symmetry.
    apply (Ht _ (key b)); [apply (Ht _ (key a)); assumption|].
    rewrite Hs. exact Kb.
  - intros a b Ia Ib. split.
    + intros S.
      apply (Permutation_in _ (Permutation_sym P1)) in Ia.
      apply in_concat in Ia as (p & Hp & Iap).
      exists p. split; [exact Hp|]. split; [exact Iap|].
      rewrite Forall_forall in P3'. destruct (P3' p Hp) as (_ & F).
      rewrite (F a Iap). apply filter_In. auto.
    + intros (p & Hp & Iap & Ibp).
      rewrite Forall_forall in P3'. destruct (P3' p Hp) as (_ & F).
      rewrite (F a Iap) in Ibp. apply filter_In in Ibp. apply Ibp.
Qed.

Lemma create_pools_by_partition {K : Type} (key : Orders -> K)
  (key_eqb : K -> K -> bool) (orders : list Orders) :
  (forall a b, key_eqb a b = key_eqb b a) ->
  (forall a b c, key_eqb a b = true -> key_eqb b c = true -> key_eqb a c = true) ->
  Forall (fun o => key_eqb (key o) (key o) = true) orders ->
  stable_partition key key_eqb orders (create_pools_by key key_eqb orders).
Proof.
  intros Hs Ht Hr.
  destruct (create_pools_by_inv key key_eqb Hs Ht orders Hr) as (A & B & C).
  split; [|split].
  - unfold create_pools_by.
    apply (create_pools_by_perm_gen key key_eqb orders []).
  - exact A.
  - eapply Forall_impl; [|exact B]. simpl. intros p (P1 & P2 & P3). auto.
Qed.

(** C7: [create_pools] partitions every order list stably by the material
    key: strength, Dmax, consistency and exposure in [create_route.py],
    and the first three of them in [test.py].  The pools together hold
    the input orders, each as often as the input; orders of two
    different pools never have the same key, so an order is in one pool
    only; a pool is not empty and lists, in input order, exactly the
    orders with the key of its members, so two orders share a pool
    exactly when their keys are the same.  Keys are the same as the
    dictionary has it: equal strings, and for Dmax the same float object
    or equal numbers, so that two NaN share a pool only when they are
    one object.  (An object has one value: orders whose Dmax is the same
    object hold the same float.) *)
Theorem create_pools_stable_partition (orders : list Orders) :
  one_value_per_object orders ->
  partitions_stably same_material orders (map snd (create_pools orders)) /\
  partitions_stably same_material_test orders
    (map snd (create_pools_test orders)).
Proof.
  intros W.
  assert (A : forall a b, In a orders -> In b orders ->
                float_ref_eqb (Dmax_id a, Dmax a) (Dmax_id b, Dmax b)
                = float_ref_same (Dmax_id a, Dmax a) (Dmax_id b, Dmax b)).
  { intros a b Ia Ib. apply float_ref_eqb_same. simpl. apply W; assumption. }
  split.
  - unfold create_pools.
    rewrite (create_pools_by_ext pool_key pool_key_eqb pool_key_same).
    + apply (stable_partition_orders pool_key pool_key_same).
      * apply pool_key_same_sym.
      * apply pool_key_same_trans.
      * intros a b Ia Ib. unfold pool_key, same_material, same_Dmax. simpl.
        rewrite <- (A a b Ia Ib). reflexivity.
      * apply create_pools_by_partition.
        -- apply pool_key_same_sym.
        -- apply pool_key_same_trans.
        -- apply Forall_forall. intros o _. unfold pool_key. simpl.
           rewrite !String.eqb_refl, float_ref_same_refl. reflexivity.
    + intros a b Ia Ib. unfold pool_key. simpl.
      rewrite (A a b Ia Ib). reflexivity.
  - unfold create_pools_test.
    rewrite (create_pools_by_ext pool_key_test pool_key_test_eqb
               pool_key_test_same).
    + apply (stable_partition_orders pool_key_test pool_key_test_same).
      * apply pool_key_test_same_sym.
      * apply pool_key_test_same_trans.
      * intros a b Ia Ib. unfold pool_key_test, same_material_test, same_Dmax.
        simpl. rewrite <- (A a b Ia Ib). reflexivity.
      * apply create_pools_by_partition.
        -- apply pool_key_test_same_sym.
        -- apply pool_key_test_same_trans.
        -- apply Forall_forall. intros o _. unfold pool_key_test. simpl.
           rewrite !String.eqb_refl, float_ref_same_refl. reflexivity.
    + intros a b Ia Ib. unfold pool_key_test. simpl.
      rewrite (A a b Ia Ib). reflexivity.
Qed.

(* ------------------------------------------------------------------ *)
(** ** The stable descending sort *)

Section SortFacts.
Context {A : Type}.
Variable key : A -> float.

Lemma insert_desc_perm x l : Permutation (insert_desc key x l) (x :: l).
Proof.
  induction l as [|y l IH]; simpl.
  - reflexivity.
  - destruct (key x <? key y).
    + rewrite IH. apply perm_swap.
    + reflexivity.
Qed.

Lemma sort_desc_perm l : Permutation (sort_desc key l) l.
Proof.
  induction l as [|x l IH]; simpl.
  - reflexivity.
  - rewrite insert_desc_perm. constructor. exact IH.
Qed.

Lemma desc_trans a b c : desc key a b -> desc key b c -> desc key a c.
Proof.
  unfold desc. intros H1 H2. float_facts. apply leb_iff. repeat split; auto. lia.
Qed.

Lemma insert_desc_sorted x l :
  is_nan (key x) = false -> Forall (fun y => is_nan (key y) = false) l ->
  StronglySorted (desc key) l -> StronglySorted (desc key) (insert_desc key x l).
Proof.
  intros Nx Nl S. induction S as [|y l S IH F]; simpl.
  - constructor; constructor.
  - inversion Nl as [|? ? Ny Nl']; subst.
    destruct (key x <? key y) eqn:E.
    + constructor; auto.
      eapply Permutation_Forall.
      * symmetry. apply insert_desc_perm.
      * constructor; auto. unfold desc. float_facts. apply leb_iff.
        repeat split; auto. lia.
    + assert (D : desc key x y).
      { unfold desc. float_facts. apply leb_iff. repeat split; auto.
        destruct E as [E|[E|E]]; [congruence|congruence|exact E]. }
      constructor.
      * constructor; auto.
      * constructor; auto.
        eapply Forall_impl; [|exact F]. intros z Hz. eapply desc_trans; eauto.
Qed.

Lemma sort_desc_sorted l :
  Forall (fun y => is_nan (key y) = false) l -> StronglySorted (desc key) (sort_desc key l).
Proof.
  induction l as [|x l IH]; simpl; intros F.
  - constructor.
  - inversion F; subst. apply insert_desc_sorted; auto.
    eapply Permutation_Forall; [symmetry; apply sort_desc_perm | auto].
Qed.

(** Stability: the items of any one key keep their order. *)
Lemma insert_desc_stable v x l :
  filter (fun a => key a =? v) (insert_desc key x l)
  = filter (fun a => key a =? v) (x :: l).
Proof.
  induction l as [|y l IH]; simpl.
  - reflexivity.
  - destruct (key x <? key y) eqn:E; [|reflexivity].
    simpl. rewrite IH. simpl.
    destruct (key x =? v) eqn:Ex; [|reflexivity].
    destruct (key y =? v) eqn:Ey; [|reflexivity].
    exfalso. float_facts. lia.
Qed.

Lemma sort_desc_stable v l :
  filter (fun a => key a =? v) (sort_desc key l) = filter (fun a => key a =? v) l.
Proof.
  induction l as [|x l IH]; simpl.
  - reflexivity.
  - rewrite insert_desc_stable. simpl. rewrite IH. reflexivity.
Qed.

End SortFacts.

(* ------------------------------------------------------------------ *)
(** ** Priority ordering *)

(** C8: in priority mode (the drawn value is below 0.45)
    [prioritize_pool_orders] returns the large orders (volume >= 7.0),
    sorted descending by volume and stably, followed by the small orders
    (volume < 7.0) in their original relative order; every large order
    stands before every small one. *)
Theorem prioritize_priority_mode (pool : list Orders) (g : rng) :
  (fst (random_random g) <? 0.45) = true ->
  priority_order pool (fst (prioritize_pool_orders pool g)).
Proof.
  intros U. unfold priority_order.
  set (large := filter (fun o => MEDIUM_TRUCK <=? order_volume o) pool).
  set (small := filter (fun o => order_volume o <? MEDIUM_TRUCK) pool).
  set (out := fst (prioritize_pool_orders pool g)).
  exists (sort_desc order_volume large).
  assert (Eout : out = sort_desc order_volume large ++ small).
  { subst out. unfold prioritize_pool_orders.
    destruct (random_random g) as [u g1]. simpl in U. rewrite U. reflexivity. }
  assert (P : Permutation (sort_desc order_volume large) large)
    by apply sort_desc_perm.
  assert (FL : Forall (fun o => (MEDIUM_TRUCK <=? order_volume o) = true) large).
  { apply Forall_forall. intros o Ho. apply filter_In in Ho. tauto. }
  assert (FS : Forall (fun o => (order_volume o <? MEDIUM_TRUCK) = true) small).
  { apply Forall_forall. intros o Ho. apply filter_In in Ho. tauto. }
  split; [exact Eout|]. split; [exact P|]. split; [|split].
  - apply sort_desc_sorted. eapply Forall_impl; [|exact FL].
    intros o Ho. float_facts. auto.
  - intros v. apply sort_desc_stable.
  - intros i j a b Ha Hb La Sb. rewrite Eout in Ha, Hb.
    assert (Li : (i < length (sort_desc order_volume large))%nat).
    { destruct (Nat.lt_ge_cases i (length (sort_desc order_volume large))) as [L|G]; auto.
      exfalso. rewrite nth_error_app2 in Ha by exact G.
      apply nth_error_In in Ha. rewrite Forall_forall in FS.
      specialize (FS a Ha). float_facts. lia. }
    assert (Lj : (length (sort_desc order_volume large) <= j)%nat).
    { destruct (Nat.lt_ge_cases j (length (sort_desc order_volume large))) as [L|G]; auto.
      exfalso. rewrite nth_error_app1 in Hb by exact L.
      apply nth_error_In in Hb.
      apply (Permutation_in _ P) in Hb. rewrite Forall_forall in FL.
      specialize (FL b Hb). float_facts. lia. }
    lia.
Qed.

(* ------------------------------------------------------------------ *)
(** ** The partner search *)

Lemma consider_partner_eq i item_a processed st j item_b :
  consider_partner i item_a processed st (j, item_b) =
  if eligible i processed j then
    c <- pair_candidate item_a item_b j ;;
    match c with
    | None => Ok st
    | Some c' => if best_metric c' <? best_metric st then Ok c' else Ok st
    end
  else Ok st.
Proof.
  unfold consider_partner, pair_candidate, eligible.
  destruct (Nat.eqb i j || processed_mem j processed); simpl; [reflexivity|].
  destruct (BIG_TRUCK <? lo_volume item_a + lo_volume item_b); simpl; [reflexivity|].
  destruct (get_best_truck (lo_volume item_a + lo_volume item_b)) as [t_type t_cap].
  destruct (optimize_stop_sequence item_a item_b) as [stops|e|];
    simpl; try reflexivity.
  destruct (get_item stops 0) as [stop1|e|]; simpl; try reflexivity.
  destruct (calculate_distance PLANT_COORDS (lo_coordinates stop1)) as [d1|e|];
    simpl; try reflexivity.
  destruct (get_item stops 1) as [stop2|e|]; simpl; try reflexivity.
  destruct (calculate_distance (lo_coordinates stop1) (lo_coordinates stop2))
    as [d2|e|]; simpl; try reflexivity.
  destruct (calculate_distance (lo_coordinates stop2) PLANT_COORDS) as [d3|e|];
    simpl; try reflexivity.
  match goal with |- context [if ?c then _ else _] => destruct c end; reflexivity.
Qed.

Lemma enumerate_from_In {A : Type} (l : list A) n j x :
  In (j, x) (enumerate_from n l) <-> (n <= j)%nat /\ nth_error l (j - n) = Some x.
Proof.
  revert n. induction l as [|y l IH]; intros n; simpl.
  - split; [tauto|]. intros [_ H]. destruct (j - n)%nat; discriminate.
  - rewrite IH. split.
    + intros [H|[H1 H2]].
      * inversion H; subst. rewrite Nat.sub_diag. auto.
      * split; [lia|]. replace (j - n)%nat with (S (j - S n)) by lia. exact H2.
    + intros [H1 H2]. destruct (Nat.eq_dec n j) as [E|N].
      * subst. rewrite Nat.sub_diag in H2. simpl in H2. left. congruence.
      * right. split; [lia|]. replace (j - n)%nat with (S (j - S n)) in H2 by lia.
        exact H2.
Qed.

Lemma enumerate_In {A : Type} (l : list A) j x :
  In (j, x) (enumerate l) <-> nth_error l j = Some x.
Proof.
  unfold enumerate. rewrite enumerate_from_In, Nat.sub_0_r.
  split; [tauto|]. intros H. split; [lia|exact H].
Qed.

(** What the partner search returns, from any starting record whose
    metric is a number: the record it started from or the record of an
    eligible, admissible candidate; in both cases a record no candidate
    of the list beats. *)
Lemma search_spec i item_a processed cands st0 s :
  is_nan (best_metric st0) = false ->
  foldM (consider_partner i item_a processed) st0 cands = Ok s ->
  is_nan (best_metric s) = false /\
  (fval (best_metric s) <= fval (best_metric st0))%Z /\
  (s = st0 \/
   exists j item_b,
     In (j, item_b) cands /\ eligible i processed j = true /\
     pair_candidate item_a item_b j = Ok (Some s) /\
     (best_metric s <? best_metric st0) = true) /\
  (forall j item_b,
      In (j, item_b) cands -> eligible i processed j = true ->
      exists c, pair_candidate item_a item_b j = Ok c /\
                forall c', c = Some c' -> (best_metric c' <? best_metric s) = false).
Proof.
  revert st0. induction cands as [|[j b] cands IH]; intros st0 N H; cbn [foldM] in H.
  - inversion H; subst. split; [auto|]. split; [lia|]. split; [auto|].
    intros j b [].
  - bind_inv H. rewrite consider_partner_eq in E.
    destruct (eligible i processed j) eqn:El.
    + bind_inv E. destruct a0 as [c'|].
      * destruct (best_metric c' <? best_metric st0) eqn:Lt; inversion E; subst a; clear E.
        -- (* the candidate is recorded *)
           assert (Nc : is_nan (best_metric c') = false)
             by (apply ltb_iff in Lt; tauto).
           destruct (IH c' Nc H) as (I1 & I2 & I3 & I4).
           assert (Lt' := Lt). apply ltb_iff in Lt' as (_ & _ & Lt').
           split; [auto|]. split; [lia|]. split.
           ++ right. destruct I3 as [I3|(j' & b' & J1 & J2 & J3 & J4)].
              ** subst s. exists j, b. simpl. auto.
              ** exists j', b'. simpl. repeat split; auto.
                 apply ltb_iff. apply ltb_iff in J4 as (? & ? & ?).
                 repeat split; auto. lia.
           ++ intros j' b' [Hin|Hin] El'.
              ** inversion Hin; subst j' b'. exists (Some c'). split; auto.
                 intros c'' Ec. inversion Ec; subst c''.
                 apply ltb_false_iff. right. right. exact I2.
              ** apply I4; auto.
        -- (* the candidate does not beat the record *)
           destruct (IH st0 N H) as (I1 & I2 & I3 & I4).
           split; [auto|]. split; [auto|]. split.
           ++ destruct I3 as [I3|(j' & b' & J1 & J2 & J3 & J4)]; auto.
              right. exists j', b'. simpl. auto.
           ++ intros j' b' [Hin|Hin] El'.
              ** inversion Hin; subst j' b'. exists (Some c'). split; auto.
                 intros c'' Ec. inversion Ec; subst c''.
                 apply ltb_false_iff. apply ltb_false_iff in Lt.
                 destruct Lt as [Lt|[Lt|Lt]]; auto; [congruence|].
                 right. right. lia.
              ** apply I4; auto.
      * inversion E; subst a; clear E.
        destruct (IH st0 N H) as (I1 & I2 & I3 & I4).
        split; [auto|]. split; [auto|]. split.
        -- destruct I3 as [I3|(j' & b' & J1 & J2 & J3 & J4)]; auto.
           right. exists j', b'. simpl. auto.
        -- intros j' b' [Hin|Hin] El'.
           ++ inversion Hin; subst j' b'. exists None. split; auto. discriminate.
           ++ apply I4; auto.
    + inversion E; subst a; clear E.
      destruct (IH st0 N H) as (I1 & I2 & I3 & I4).
      split; [auto|]. split; [auto|]. split.
      * destruct I3 as [I3|(j' & b' & J1 & J2 & J3 & J4)]; auto.
        right. exists j', b'. simpl. auto.
      * intros j' b' [Hin|Hin] El'.
        -- inversion Hin; subst j' b'. congruence.
        -- apply I4; auto.
Qed.

Lemma optimize_stop_sequence_inv stop_a stop_b stops :
  optimize_stop_sequence stop_a stop_b = Ok stops ->
  stops = [stop_a; stop_b] \/ stops = [stop_b; stop_a].
Proof.
  unfold optimize_stop_sequence. intros H.
  bind_inv H. bind_inv H. bind_inv H.
  destruct (a + a1 <=? a0 + a1); inversion H; auto.
Qed.

Lemma pair_candidate_Some item_a item_b j c :
  pair_candidate item_a item_b j = Ok (Some c) -> admissible_pair item_a item_b j c.
Proof.
  unfold pair_candidate. intros H.
  destruct (BIG_TRUCK <? lo_volume item_a + lo_volume item_b) eqn:V;
    [discriminate|].
  destruct (get_best_truck (lo_volume item_a + lo_volume item_b))
    as [t_type t_cap] eqn:T.
  bind_inv H. rename a into stops, E into Eopt.
  pose proof (optimize_stop_sequence_inv _ _ _ Eopt) as Hst.
  bind_inv H. rename a into stop1, E into E1.
  bind_inv H. rename a into d1, E into Ed1.
  bind_inv H. rename a into stop2, E into E2.
  bind_inv H. rename a into d2, E into Ed2.
  bind_inv H. rename a into d3, E into Ed3.
  match type of H with
  | (if ?c then _ else _) = _ => destruct c eqn:Age; [discriminate|]
  end.
  inversion H; subst c; clear H.
  assert (Es : stops = [stop1; stop2]).
  { destruct Hst as [Hst|Hst]; subst stops; simpl in E1, E2;
      inversion E1; inversion E2; reflexivity. }
  subst stops.
  exists stop1, stop2, d1, d2, d3. rewrite T. simpl.
  repeat split; auto.
Qed.

Lemma processed_mem_In j processed :
  processed_mem j processed = true <-> In j processed.
Proof.
  unfold processed_mem. rewrite existsb_exists. split.
  - intros (x & Hx & E). apply Nat.eqb_eq in E. subst. exact Hx.
  - intros H. exists j. split; auto. apply Nat.eqb_refl.
Qed.

Lemma eligible_iff i processed j :
  eligible i processed j = true <-> i <> j /\ ~ In j processed.
Proof.
  unfold eligible. rewrite negb_true_iff, orb_false_iff, Nat.eqb_neq.
  rewrite <- processed_mem_In. destruct (processed_mem j processed); intuition congruence.
Qed.

Lemma get_item_Ok {A : Type} (l : list A) n x :
  get_item l n = Ok x <-> nth_error l n = Some x.
Proof.
  unfold get_item. destruct (nth_error l n); split; intros H; inversion H; auto.
Qed.

(** The three ways one iteration of the outer loop can go. *)
Lemma pair_step_cases leftovers trips processed i item_a trips' processed' :
  pair_step leftovers (trips, processed) (i, item_a) = Ok (trips', processed') ->
  (In i processed /\ trips' = trips /\ processed' = processed)
  \/ (~ In i processed /\
      find_partner leftovers i item_a processed = Ok search_init /\
      exists t, leftover_trip item_a = Ok t /\
                trips' = trips ++ [t] /\ processed' = i :: processed)
  \/ (~ In i processed /\
      exists s j item_b stop1 stop2,
        find_partner leftovers i item_a processed = Ok s /\
        nth_error leftovers j = Some item_b /\
        i <> j /\ ~ In j processed /\
        admissible_pair item_a item_b j s /\
        best_stops_order s = [stop1; stop2] /\
        trips' = trips ++ [shared_trip item_a item_b s stop1 stop2] /\
        processed' = j :: i :: processed).
Proof.
  unfold pair_step. intros H.
  destruct (processed_mem i processed) eqn:M.
  - left. inversion H; subst. apply processed_mem_In in M. auto.
  - right.
    assert (NI : ~ In i processed).
    { intros HI. apply processed_mem_In in HI. congruence. }
    bind_inv H. rename a into s, E into Es.
    pose proof Es as Es'. unfold find_partner in Es'.
    apply search_spec in Es' as (_ & _ & S3 & _); [|reflexivity].
    destruct S3 as [S3|(j & b & J1 & J2 & J3 & J4)].
    + subst s. simpl in H. bind_inv H. inversion H; subst.
      left. split; auto. split; auto. exists a. auto.
    + right. split; auto.
      apply pair_candidate_Some in J3.
      pose proof J3 as (stop1 & stop2 & d1 & d2 & d3 & A1 & A2 & A3 & A4 & A5 & A6 & A7 & A8).
      assert (Ei : best_match_idx s = Some j) by (subst s; reflexivity).
      assert (Eo : best_stops_order s = [stop1; stop2]) by (subst s; reflexivity).
      rewrite Ei in H. apply enumerate_In in J1.
      bind_inv H. apply get_item_Ok in E. rewrite J1 in E. inversion E; subst a.
      rewrite Eo in H. simpl in H. inversion H; subst trips' processed'.
      apply eligible_iff in J2 as [J2a J2b].
      exists s, j, b, stop1, stop2. repeat split; auto.
Qed.

Lemma length_enumerate_from {A : Type} (l : list A) n :
  length (enumerate_from n l) = length l.
Proof.
  revert n. induction l as [|x l IH]; intros n; simpl; auto.
Qed.

Lemma emitted_in_range leftovers t g :
  emitted leftovers t g -> Forall (fun x => (x < length leftovers)%nat) g.
Proof.
  intros H. inversion H; subst; repeat constructor;
    eapply nth_error_Some; congruence.
Qed.

Lemma Forall2_In_r {A B : Type} (R : A -> B -> Prop) l l' y :
  Forall2 R l l' -> In y l' -> exists x, In x l /\ R x y.
Proof.
  induction 1 as [|x y' l l' Hxy F IH]; simpl; intros H.
  - contradiction.
  - destruct H as [->|H].
    + exists x. auto.
    + destruct (IH H) as (x' & Hx' & Hr). exists x'. auto.
Qed.

Lemma pair_fold_groups leftovers rest k trips processed trips' processed' :
  (forall x item, nth_error rest x = Some item ->
                  nth_error leftovers (k + x) = Some item) ->
  foldM (pair_step leftovers) (trips, processed) (enumerate_from k rest)
  = Ok (trips', processed') ->
  exists new groups,
    trips' = trips ++ new /\
    Forall2 (emitted leftovers) new groups /\
    Permutation processed' (concat groups ++ processed) /\
    (NoDup processed -> NoDup processed') /\
    (forall x, (k <= x < k + length rest)%nat -> In x processed').
Proof.
  revert k trips processed.
  induction rest as [|item_a rest IH]; intros k trips processed Hnth H;
    cbn [foldM enumerate_from] in H.
  - inversion H; subst. exists [], []. simpl. rewrite app_nil_r.
    repeat split; auto. intros x Hx. lia.
  - bind_inv H. destruct a as [trips1 processed1].
    assert (Ha : nth_error leftovers k = Some item_a).
    { rewrite <- (Nat.add_0_r k). apply Hnth. reflexivity. }
    assert (Hnth' : forall x item, nth_error rest x = Some item ->
                                   nth_error leftovers (S k + x) = Some item).
    { intros x item Hx. replace (S k + x)%nat with (k + S x)%nat by lia.
      apply Hnth. exact Hx. }
    destruct (IH (S k) trips1 processed1 Hnth' H)
      as (new & groups & T & F & P & ND & CV).
    apply pair_step_cases in E.
    destruct E as [(I1 & I2 & I3)
                  |[(I1 & I2 & t & I3 & I4 & I5)
                   |(I1 & s & j & b & stop1 & stop2 & J1 & J2 & J3 & J4 & J5 & J6 & J7 & J8)]].
    + subst trips1 processed1. exists new, groups. repeat split; auto.
      intros x Hx. simpl in Hx. destruct (Nat.eq_dec x k) as [->|N].
      * eapply Permutation_in; [symmetry; exact P|]. apply in_or_app. auto.
      * apply CV. lia.
    + subst trips1 processed1. exists (t :: new), ([k] :: groups).
      split; [rewrite T, <- app_assoc; reflexivity|].
      split; [constructor; auto; econstructor; eauto|].
      split.
      { rewrite P. simpl.
        apply Permutation_trans with ((k :: processed) ++ concat groups);
          [apply Permutation_app_comm|]. simpl.
        constructor. apply Permutation_app_comm. }
      split.
      { intros N. apply ND. constructor; auto. }
      intros x Hx. simpl in Hx. destruct (Nat.eq_dec x k) as [->|N].
      * eapply Permutation_in; [symmetry; exact P|]. apply in_or_app. right. left. reflexivity.
      * apply CV. lia.
    + subst trips1 processed1.
      exists (shared_trip item_a b s stop1 stop2 :: new), ([k; j] :: groups).
      split; [rewrite T, <- app_assoc; reflexivity|].
      split; [constructor; auto; econstructor; eauto|].
      split.
      { rewrite P. simpl.
        apply Permutation_trans with ((j :: k :: processed) ++ concat groups);
          [apply Permutation_app_comm|]. simpl.
        apply Permutation_trans with (k :: j :: processed ++ concat groups);
          [apply perm_swap|].
        do 2 constructor. apply Permutation_app_comm. }
      split.
      { intros N. apply ND. constructor.
        - intros [X|X]; [congruence|auto].
        - constructor; auto. }
      intros x Hx. simpl in Hx. destruct (Nat.eq_dec x k) as [->|N].
      * eapply Permutation_in; [symmetry; exact P|]. apply in_or_app. right. right. left. reflexivity.
      * apply CV. lia.
Qed.

(** Every leftover item is carried by exactly one emitted trip: the
    index groups of the new trips together are the indices of
    [leftovers], each once. *)
Lemma pair_leftovers_groups leftovers trips trips' :
  pair_leftovers leftovers trips = Ok trips' ->
  exists new groups,
    trips' = trips ++ new /\
    Forall2 (emitted leftovers) new groups /\
    Permutation (concat groups) (seq 0 (length leftovers)).
Proof.
  unfold pair_leftovers. intros H. bind_inv H. destruct a as [trips1 processed1].
  simpl in H. inversion H; subst trips1; clear H.
  unfold enumerate in E.
  apply pair_fold_groups in E; [|intros x item Hx; exact Hx].
  destruct E as (new & groups & T & F & P & ND & CV).
  exists new, groups. split; [exact T|]. split; [exact F|].
  rewrite app_nil_r in P. rewrite <- P.
  apply NoDup_Permutation.
  - apply ND. constructor.
  - apply seq_NoDup.
  - intros x. rewrite in_seq. split.
    + intros Hx. split; [lia|]. simpl.
      apply (Permutation_in _ P) in Hx.
      apply in_concat in Hx as (g & Hg & Hxg).
      destruct (Forall2_In_r _ _ _ _ F Hg) as (t & _ & Ht).
      apply emitted_in_range in Ht. rewrite Forall_forall in Ht. auto.
    + intros Hx. apply CV. lia.
Qed.

(* ------------------------------------------------------------------ *)
(** ** Truck tiers *)

Lemma one_bound : (12 * one < 2 ^ 2100)%Z.
Proof. reflexivity. Qed.

Lemma get_best_truck_fits v :
  is_nan v = false -> (BIG_TRUCK <? v) = false ->
  (v <=? truck_caps (fst (get_best_truck v))) = true.
Proof.
  intros N B. unfold get_best_truck.
  pose proof one_pos as P.
  destruct (v <=? SMALL_TRUCK) eqn:S.
  - destruct AVOID_SMALL_TRUCKS; simpl; [|exact S].
    change (truck_caps "Medium_Truck") with MEDIUM_TRUCK.
    float_facts. apply leb_iff. rewrite fval_MEDIUM_TRUCK.
    rewrite fval_SMALL_TRUCK in *. repeat split; auto. lia.
  - destruct (v <=? MEDIUM_TRUCK) eqn:M; simpl; [exact M|].
    change (truck_caps "Big_Truck") with BIG_TRUCK.
    apply ltb_false_iff in B. apply leb_iff.
    destruct B as [B|[B|B]]; [discriminate|congruence|]. auto.
Qed.

Lemma fragment_volume_finite v : fragment_volume v -> ffinite v = true.
Proof.
  intros [H1 H2]. pose proof one_pos. pose proof one_bound.
  float_facts. rewrite fval_MEDIUM_TRUCK, fval_zero in *.
  apply ffinite_iff. split; auto. lia.
Qed.

Lemma fragment_volume_val v :
  fragment_volume v -> is_nan v = false /\ (0 < fval v < 7 * one)%Z.
Proof.
  intros [H1 H2]. float_facts. rewrite fval_MEDIUM_TRUCK, fval_zero in *. auto.
Qed.

Lemma leftover_trip_inv item_a t :
  leftover_trip item_a = Ok t ->
  truck_type t = fst (get_best_truck (lo_volume item_a)) /\
  stops t = [lo_customer_id item_a] /\
  volume t = lo_volume item_a /\
  concrete_age_at_finish t = None /\
  route_type t = Leftover.
Proof.
  unfold leftover_trip. intros H.
  destruct (get_best_truck (lo_volume item_a)) as [t_type t_cap].
  bind_inv H. inversion H; subst t. simpl. auto.
Qed.

Lemma emitted_within_capacity leftovers t g :
  Forall (fun it => fragment_volume (lo_volume it)) leftovers ->
  emitted leftovers t g -> within_capacity t.
Proof.
  intros F H. rewrite Forall_forall in F. unfold within_capacity.
  inversion H as [i a t' Hn Ht | i j a b s st1 st2 Ha Hb Hij Hadm Hst]; subst.
  - apply nth_error_In in Hn. specialize (F _ Hn).
    apply leftover_trip_inv in Ht as (T1 & T2 & T3 & T4 & T5).
    rewrite T1, T3. apply fragment_volume_val in F as [N V].
    apply get_best_truck_fits; auto.
    pose proof one_pos.
    apply ltb_false_iff. right. right. rewrite fval_BIG_TRUCK. lia.
  - apply nth_error_In in Ha, Hb.
    pose proof (F _ Ha) as Fa. pose proof (F _ Hb) as Fb.
    destruct Hadm as (s1 & s2 & d1 & d2 & d3 & A1 & A2 & A3 & A4 & A5 & A6 & A7 & A8).
    subst s. simpl.
    apply get_best_truck_fits; auto.
    apply add_not_nan; apply fragment_volume_finite; auto.
Qed.

(* ------------------------------------------------------------------ *)
(** ** Step 1: full loads *)

Lemma direct_trip_inv order ty cap t :
  direct_trip order ty cap = Ok t ->
  truck_type t = ty /\ stops t = [customer_id order] /\ volume t = cap /\
  route_type t = Direct.
Proof.
  unfold direct_trip. intros H. bind_inv H. inversion H; subst t. simpl. auto.
Qed.

Lemma direct_loop_spec fuel order vol trips leftovers trips' leftovers' :
  direct_loop fuel order vol trips leftovers = Ok (trips', leftovers') ->
  exists new_trips new_leftovers,
    trips' = trips ++ new_trips /\ leftovers' = leftovers ++ new_leftovers /\
    Forall (direct_of order) new_trips /\
    Forall (fragment_of order) new_leftovers /\
    (length new_leftovers <= 1)%nat.
Proof.
  revert vol trips leftovers.
  induction fuel as [|fuel IH]; intros vol trips leftovers H; simpl in H;
    [discriminate|].
  destruct (0 <? vol) eqn:Pos.
  - destruct (BIG_TRUCK <=? vol) eqn:Big.
    + bind_inv H. apply direct_trip_inv in E as (T1 & T2 & T3 & T4).
      destruct (IH _ _ _ H) as (nt & nl & E1 & E2 & F1 & F2 & L).
      exists (a :: nt), nl. rewrite E1, <- app_assoc. simpl.
      repeat split; auto. constructor; auto. repeat split; auto.
    + destruct (MEDIUM_TRUCK <=? vol) eqn:Med.
      * bind_inv H. apply direct_trip_inv in E as (T1 & T2 & T3 & T4).
        destruct (IH _ _ _ H) as (nt & nl & E1 & E2 & F1 & F2 & L).
        exists (a :: nt), nl. rewrite E1, <- app_assoc. simpl.
        repeat split; auto. constructor; auto. repeat split; auto.
      * destruct fuel as [|fuel']; simpl in H; [discriminate|].
        change (0 <? 0) with false in H. inversion H; subst.
        exists [], [leftover_item order vol]. rewrite app_nil_r.
        repeat split; auto. constructor; [|constructor].
        unfold fragment_of, fragment_volume. simpl. repeat split; auto.
        apply ltb_iff. apply ltb_iff in Pos. destruct Pos as (P1 & P2 & P3).
        apply leb_false_iff in Med. destruct Med as [M|[M|M]];
          [discriminate|congruence|]. auto.
  - inversion H; subst. exists [], []. rewrite !app_nil_r. repeat split; auto.
Qed.

Lemma direct_of_within_capacity order t : direct_of order t -> within_capacity t.
Proof.
  intros (_ & _ & [[T V]|[T V]]); unfold within_capacity; rewrite T, V; reflexivity.
Qed.

(** The trips and the leftovers of step 1, for the orders it processes. *)
Lemma direct_fold_spec fuel orders trips leftovers st :
  foldM (direct_step fuel) (trips, leftovers) orders = Ok st ->
  exists new_trips new_leftovers,
    fst st = trips ++ new_trips /\ snd st = leftovers ++ new_leftovers /\
    Forall (fun t => exists o, In o orders /\ direct_of o t) new_trips /\
    Forall (fun it => exists o, In o orders /\ fragment_of o it) new_leftovers.
Proof.
  revert trips leftovers.
  induction orders as [|o orders IH]; intros trips leftovers H; cbn [foldM] in H.
  - inversion H; subst. exists [], []. simpl. rewrite !app_nil_r. auto.
  - bind_inv H. destruct a as [trips1 leftovers1].
    unfold direct_step in E. simpl in E.
    apply direct_loop_spec in E as (nt & nl & E1 & E2 & F1 & F2 & _).
    destruct (IH _ _ H) as (nt' & nl' & E3 & E4 & F3 & F4).
    exists (nt ++ nt'), (nl ++ nl'). subst trips1 leftovers1.
    rewrite E3, E4, <- !app_assoc. repeat split; auto.
    + apply Forall_app. split.
      * eapply Forall_impl; [|exact F1]. intros t Ht. exists o. simpl. auto.
      * eapply Forall_impl; [|exact F3]. intros t (o' & Ho & Ht). exists o'. simpl. auto.
    + apply Forall_app. split.
      * eapply Forall_impl; [|exact F2]. intros t Ht. exists o. simpl. auto.
      * eapply Forall_impl; [|exact F4]. intros t (o' & Ho & Ht). exists o'. simpl. auto.
Qed.

Lemma Forall2_In_l {A B : Type} (R : A -> B -> Prop) l l' x :
  Forall2 R l l' -> In x l -> exists y, In y l' /\ R x y.
Proof.
  induction 1 as [|x' y l l' Hxy F IH]; simpl; intros H.
  - contradiction.
  - destruct H as [->|H].
    + exists y. auto.
    + destruct (IH H) as (y' & Hy' & Hr). exists y'. auto.
Qed.

(* ------------------------------------------------------------------ *)
(** ** Capacity bound *)

(** C6: every trip [generate_trips_for_pool] emits, of any route type,
    carries a volume that is at most the capacity of the truck type it
    names (Small 3.0, Medium 7.0, Big 12.0), whatever the value of the
    small-truck-avoidance flag [AVOID_SMALL_TRUCKS]: with the flag set, a
    load of at most 3.0 is billed against the Medium capacity, which it
    fits all the more. *)
Theorem trips_within_capacity (fuel : nat) (pool : list Orders) (g : rng) :
  forall trips g',
    generate_trips_for_pool fuel pool g = Ok (trips, g') ->
    Forall within_capacity trips.
Proof.
  intros trips g' H. unfold generate_trips_for_pool in H.
  destruct (prioritize_pool_orders pool g) as [sorted_pool g1].
  bind_inv H. rename a into st. bind_inv H. inversion H; subst a g1; clear H.
  apply direct_fold_spec in E as (nt & nl & E1 & E2 & F1 & F2).
  simpl in E1, E2. rewrite E1, E2 in E0.
  apply pair_leftovers_groups in E0 as (new & groups & T & F & _).
  subst trips. apply Forall_app. split.
  - eapply Forall_impl; [|exact F1]. intros t (o & _ & Ht).
    eapply direct_of_within_capacity; eauto.
  - assert (FL : Forall (fun it => fragment_volume (lo_volume it))
                        (sort_desc lo_volume nl)).
    { eapply Permutation_Forall; [symmetry; apply sort_desc_perm|].
      eapply Forall_impl; [|exact F2]. intros it (o & _ & Hf). apply Hf. }
    apply Forall_forall. intros t Ht.
    destruct (Forall2_In_l _ _ _ _ F Ht) as (grp & _ & He).
    eapply emitted_within_capacity; eauto.
Qed.

(* ------------------------------------------------------------------ *)
(** ** Lifespan bound of Shared trips *)

Lemma admissible_pair_age item_a item_b j s :
  admissible_pair item_a item_b j s ->
  exists stop1 stop2 age,
    best_stops_order s = [stop1; stop2] /\
    ([stop1; stop2] = [item_a; item_b] \/ [stop1; stop2] = [item_b; item_a]) /\
    second_stop_age stop1 stop2 = Ok age /\
    (MAX_CONCRETE_LIFESPAN <? age) = false.
Proof.
  intros (s1 & s2 & d1 & d2 & d3 & A1 & A2 & A3 & A4 & A5 & A6 & A7 & A8).
  exists s1, s2.
  exists (TIME_LOADING + get_travel_time d1 + TIME_SERVICE
          + get_travel_time d2 + TIME_SERVICE).
  subst s. simpl. repeat split; auto.
  unfold second_stop_age. rewrite A3. simpl. rewrite A4. reflexivity.
Qed.

Section Lifespan.

(** The arc tangent of the C library, called as [calculate_distance]
    calls it, on two square roots, returns no number below zero (its
    values there lie between 0 and pi/2). *)
Hypothesis atan2_range :
  forall a r, math_atan2 (sqrt a) (sqrt (1 - a)) = Value r -> (r <? 0) = false.

Lemma calculate_distance_not_below coord1 coord2 d :
  calculate_distance coord1 coord2 = Ok d -> (d <? 0) = false.
Proof using atan2_range.
  unfold calculate_distance. intros H.
  destruct (is_nan (latitude coord1) || is_nan (longitude coord1) ||
            is_nan (latitude coord2) || is_nan (longitude coord2)).
  - inversion H. reflexivity.
  - repeat (bind_inv H).
    unfold math_sqrt in E5, E6.
    destruct (_ <? 0) in E5; inversion E5; subst a5.
    destruct (_ <? 0) in E6; inversion E6; subst a6.
    unfold lift in E7.
    destruct (math_atan2 _ _) as [r|e] eqn:T in E7; inversion E7; subst a7.
    apply atan2_range in T.
    inversion H; subst d.
    eapply const_mul_not_below; [reflexivity|].
    eapply const_mul_not_below; [reflexivity|]. exact T.
Qed.

Lemma get_travel_time_nonneg d :
  (d <? 0) = false -> nonneg (get_travel_time d) = true.
Proof.
  intros B. unfold get_travel_time. destruct (is_nan d) eqn:N.
  - reflexivity.
  - eapply mul_const_nonneg; [reflexivity|].
    eapply div_const_nonneg; [reflexivity|].
    unfold nonneg. rewrite N, B. reflexivity.
Qed.

(** The age at the second stop is a number. *)
Lemma second_stop_age_nonneg stop1 stop2 age :
  second_stop_age stop1 stop2 = Ok age -> nonneg age = true.
Proof using atan2_range.
  unfold second_stop_age. intros H. bind_inv H. bind_inv H.
  inversion H; subst age.
  apply calculate_distance_not_below in E, E0.
  apply get_travel_time_nonneg in E, E0.
  repeat apply add_nonneg; auto.
Qed.

(** C1: every Shared trip the pairing stage emits has a concrete age at
    its second stop of at most 6.0 hours: the stops of the trip are two
    of the leftover items, in the sequenced order, and the age computed
    for that route, loading + travel(plant, stop1) + service +
    travel(stop1, stop2) + service, passed the guard [age > 6.0] and is
    a number.  (The arc tangent returns no negative number, so that no
    distance is negative.) *)
Theorem shared_trips_within_lifespan (leftovers : list LeftoverItem)
  (trips0 trips : list Trip) :
  pair_leftovers leftovers trips0 = Ok trips ->
  exists new,
    trips = trips0 ++ new /\
    forall t, In t new -> route_type t = Shared -> within_lifespan leftovers t.
Proof using atan2_range.
  intros H. unfold within_lifespan.
  apply pair_leftovers_groups in H as (new & groups & T & F & _).
  exists new. split; [exact T|]. intros t Ht Sh.
  destruct (Forall2_In_l _ _ _ _ F Ht) as (grp & _ & He).
  inversion He as [i a t' Hn Hl | i j a b s st1 st2 Ha Hb Hij Hadm Hst]; subst.
  - apply leftover_trip_inv in Hl as (_ & _ & _ & _ & R). congruence.
  - destruct (admissible_pair_age _ _ _ _ Hadm) as (s1 & s2 & age & B1 & B2 & B3 & B4).
    rewrite Hst in B1. inversion B1; subst s1 s2. clear B1.
    apply nth_error_In in Ha, Hb.
    exists st1, st2, age. simpl.
    assert (In st1 leftovers /\ In st2 leftovers) as [I1 I2].
    { destruct B2 as [B2|B2]; inversion B2; subst; auto. }
    repeat split; auto.
    pose proof (second_stop_age_nonneg _ _ _ B3) as N.
    unfold nonneg in N. apply andb_prop in N as [N _].
    apply negb_true_iff in N.
    apply leb_iff. apply ltb_false_iff in B4.
    destruct B4 as [B4|[B4|B4]]; [discriminate|congruence|auto].
Qed.

End Lifespan.

(* ------------------------------------------------------------------ *)
(** ** The score of a pairing *)

Lemma pair_candidate_feasible item_a item_b j c :
  pair_candidate item_a item_b j = Ok c ->
  pair_feasible item_a item_b
  = Ok (match c with Some _ => true | None => false end) /\
  forall c', c = Some c' -> pair_score item_a item_b = Ok (best_metric c').
Proof.
  unfold pair_candidate, pair_feasible, pair_score, second_stop_age. intros H.
  destruct (BIG_TRUCK <? lo_volume item_a + lo_volume item_b) eqn:V.
  - inversion H; subst c. split; [reflexivity|discriminate].
  - destruct (get_best_truck (lo_volume item_a + lo_volume item_b))
      as [t_type t_cap] eqn:T.
    bind_inv H. rewrite E. simpl.
    bind_inv H. rewrite E0. simpl.
    bind_inv H. rewrite E1. simpl.
    bind_inv H. rewrite E2. simpl.
    bind_inv H. rewrite E3. simpl.
    bind_inv H.
    match type of H with
    | (if ?c then _ else _) = _ => destruct c eqn:Age
    end; inversion H; subst c; simpl.
    + split; [reflexivity|discriminate].
    + split; [reflexivity|]. intros c' Ec. inversion Ec; subst c'. reflexivity.
Qed.

(** C5: when the outer loop reaches an unmatched item A, every candidate
    partner B has the score [distance(stop1, stop2) + 5.0 * (truck
    capacity - combined volume)] over the sequenced stops, and A is
    paired, in a Shared trip, with a feasible B whose score is minimal
    among the feasible candidates; when no candidate is feasible, A is
    sent alone.  (Scores are taken to be numbers below +infinity.) *)
Theorem pair_step_min_score (leftovers : list LeftoverItem) (trips : list Trip)
  (processed : list nat) (i : nat) (item_a : LeftoverItem)
  (trips' : list Trip) (processed' : list nat) :
  ~ In i processed ->
  (forall j item_b sc,
      nth_error leftovers j = Some item_b ->
      pair_score item_a item_b = Ok sc -> (sc <? infinity) = true) ->
  pair_step leftovers (trips, processed) (i, item_a) = Ok (trips', processed') ->
  paired_with_best leftovers trips processed i item_a trips' processed' \/
  sent_alone leftovers trips processed i item_a trips' processed'.
Proof.
  intros NI Hfin H. unfold paired_with_best, sent_alone.
  apply pair_step_cases in H.
  destruct H as [(I1 & _)
                |[(_ & Hs & t & I3 & I4 & I5)
                 |(_ & s & j & b & stop1 & stop2 & J1 & J2 & J3 & J4 & J5 & J6 & J7 & J8)]].
  - contradiction.
  - right. split.
    + intros j' b' Hn Hij Hnp.
      unfold find_partner in Hs.
      apply search_spec in Hs as (_ & _ & _ & S4); [|reflexivity].
      destruct (S4 j' b') as (c & Hc & Hm).
      { apply enumerate_In. exact Hn. }
      { apply eligible_iff. auto. }
      apply pair_candidate_feasible in Hc as [Hf Hsc].
      destruct c as [c'|]; [|exact Hf]. exfalso.
      specialize (Hm c' eq_refl). specialize (Hsc c' eq_refl).
      change (best_metric search_init) with infinity in Hm.
      rewrite (Hfin j' b' _ Hn Hsc) in Hm. discriminate.
    + apply leftover_trip_inv in I3 as (T1 & T2 & T3 & T4 & T5).
      exists t. auto.
  - left.
    pose proof J1 as Hs. unfold find_partner in Hs.
    apply search_spec in Hs as (_ & _ & S3 & S4); [|reflexivity].
    destruct S3 as [S3|(j0 & b0 & K1 & K2 & K3 & K4)].
    { exfalso. destruct J5 as (s1 & s2 & d1 & d2 & d3 & A1 & A2 & A3 & A4 & A5 & A6 & A7 & A8).
      subst s. discriminate. }
    assert (j0 = j /\ b0 = b) as [-> ->].
    { pose proof (pair_candidate_Some _ _ _ _ K3) as (s1 & s2 & d1 & d2 & d3 & A1 & A2 & A3 & A4 & A5 & A6 & A7 & A8).
      destruct J5 as (s1' & s2' & d1' & d2' & d3' & A1' & A2' & A3' & A4' & A5' & A6' & A7' & A8').
      rewrite A8 in A8'. inversion A8'; subst j0.
      apply enumerate_In in K1. split; congruence. }
    apply pair_candidate_feasible in K3 as [Hf Hsc].
    specialize (Hsc s eq_refl). simpl in Hf.
    exists j, b, (best_metric s), stop1, stop2, (shared_trip item_a b s stop1 stop2).
    assert (Eopt : optimize_stop_sequence item_a b = Ok [stop1; stop2]).
    { destruct J5 as (s1 & s2 & d1 & d2 & d3 & A1 & A2 & A3 & A4 & A5 & A6 & A7 & A8).
      subst s. simpl in J6. inversion J6; subst. exact A1. }
    repeat split; auto.
    intros j' b' Hn Hij Hnp Hfe.
    destruct (S4 j' b') as (c & Hc & Hm).
    { apply enumerate_In. exact Hn. }
    { apply eligible_iff. auto. }
    apply pair_candidate_feasible in Hc as [Hf' Hsc'].
    rewrite Hfe in Hf'. destruct c as [c'|]; [|discriminate].
    specialize (Hm c' eq_refl). specialize (Hsc' c' eq_refl).
    exists (best_metric c'). split; [exact Hsc'|].
    pose proof (Hfin j b _ J2 Hsc) as F1. pose proof (Hfin j' b' _ Hn Hsc') as F2.
    float_facts. apply leb_iff. repeat split; auto.
    destruct Hm as [Hm|[Hm|Hm]]; [congruence|congruence|exact Hm].
Qed.

(* ------------------------------------------------------------------ *)
(** ** Fleet scheduling: the plant clock and first-fit reuse *)

Lemma fval_START_HOUR : fval START_HOUR = (32 * 2 ^ 1072)%Z.
Proof. vm_compute. reflexivity. Qed.

Lemma fval_TIME_LOADING : fval TIME_LOADING = (2 ^ 1072)%Z.
Proof. vm_compute. reflexivity. Qed.

Lemma one_quarters : one = (4 * 2 ^ 1072)%Z.
Proof. reflexivity. Qed.

(** Below 2^50 trips the clock is exact: trip [i] starts at
    [START_HOUR + i * TIME_LOADING], as real numbers. *)
Lemma clock_exact i :
  (Z.of_nat i < 2 ^ 50)%Z ->
  ffinite (clock i) = true /\
  fval (clock i) = (fval START_HOUR + Z.of_nat i * fval TIME_LOADING)%Z.
Proof.
  induction i as [|i IH]; intros B.
  - split; [reflexivity|]. simpl. lia.
  - destruct IH as [F V]; [lia|].
    assert (P : (0 < 2 ^ 1072)%Z) by reflexivity.
    change (clock (S i)) with (clock i + TIME_LOADING).
    destruct (add_exact (clock i) TIME_LOADING) as [V' F']; auto.
    + rewrite V, fval_START_HOUR, fval_TIME_LOADING.
      right. exists (33 + Z.of_nat i)%Z, 1072%Z.
      split; [|split; [|lia]].
      * rewrite Z.abs_eq by nia. ring.
      * assert ((2 ^ 50 < 2 ^ 53 - 33)%Z) by reflexivity. lia.
    + split; [exact F'|]. rewrite V', V, Nat2Z.inj_succ. ring.
Qed.

Lemma clock_mono i j :
  (i <= j)%nat -> (Z.of_nat j < 2 ^ 50)%Z -> (clock i <=? clock j) = true.
Proof.
  intros L B.
  destruct (clock_exact i) as [Fi Vi]; [lia|].
  destruct (clock_exact j) as [Fj Vj]; [lia|].
  apply ffinite_iff in Fi as [Ni _]. apply ffinite_iff in Fj as [Nj _].
  apply leb_iff. repeat split; auto.
  rewrite Vi, Vj, fval_TIME_LOADING.
  assert (P : (0 < 2 ^ 1072)%Z) by reflexivity. nia.
Qed.

Lemma find_truck_Some fleet0 needed_type start_time k idx :
  find_truck fleet0 needed_type start_time k = Some idx ->
  (k <= idx)%nat /\
  exists truck,
    nth_error fleet0 (idx - k) = Some truck /\
    truck_free needed_type start_time truck = true /\
    forall j truck', (j < idx - k)%nat -> nth_error fleet0 j = Some truck' ->
                     truck_free needed_type start_time truck' = false.
Proof.
  revert k. induction fleet0 as [|truck rest IH]; intros k H; simpl in H.
  - discriminate.
  - fold (truck_free needed_type start_time truck) in H.
    destruct (truck_free needed_type start_time truck) eqn:T.
    + inversion H; subst idx. split; [lia|]. exists truck.
      rewrite Nat.sub_diag. simpl. repeat split; auto. intros j t' Hj. lia.
    + destruct (IH _ H) as (L & t & N & F & M). split; [lia|]. exists t.
      replace (idx - k)%nat with (S (idx - S k)) by lia. simpl.
      repeat split; auto. intros [|j] t' Hj Hn; simpl in Hn.
      * inversion Hn; subst. exact T.
      * apply (M j); auto. lia.
Qed.

Lemma find_truck_None fleet0 needed_type start_time k :
  find_truck fleet0 needed_type start_time k = None ->
  Forall (fun truck => truck_free needed_type start_time truck = false) fleet0.
Proof.
  revert k. induction fleet0 as [|truck rest IH]; intros k H; simpl in H.
  - constructor.
  - fold (truck_free needed_type start_time truck) in H.
    destruct (truck_free needed_type start_time truck) eqn:T; [discriminate|].
    constructor; eauto.
Qed.

Lemma assign_trip_spec st trip :
  exists st' slot,
    assign_trip st trip = Ok (st', slot) /\ first_fit_step st trip st' slot.
Proof.
  unfold assign_trip, first_fit_step.
  destruct (find_truck (fleet st) (truck_type trip) (plant_ready_time st) 0)
    as [idx|] eqn:F.
  - apply find_truck_Some in F as (_ & truck & N & T & M).
    rewrite Nat.sub_0_r in N, M.
    unfold get_item. rewrite N. simpl.
    eexists. eexists. split; [reflexivity|]. simpl.
    repeat split; auto. left. exists idx, truck. repeat split; auto.
  - apply find_truck_None in F.
    eexists. eexists. split; [reflexivity|]. simpl.
    repeat split; auto.
Qed.

Lemma assign_all_run st trips :
  exists stf slots,
    assign_all st trips = Ok (stf, slots) /\ fleet_run st trips slots stf.
Proof.
  revert st. induction trips as [|trip trips IH]; intros st; simpl.
  - exists st, []. split; [reflexivity|constructor].
  - destruct (assign_trip_spec st trip) as (st' & slot & E & S).
    destruct (IH st') as (stf & slots & E' & R).
    rewrite E. simpl. rewrite E'. simpl.
    exists stf, (slot :: slots). split; [reflexivity|]. econstructor; eauto.
Qed.

Lemma nth_error_combine {A B : Type} (l1 : list A) (l2 : list B) k a b :
  nth_error (combine l1 l2) k = Some (a, b) <->
  nth_error l1 k = Some a /\ nth_error l2 k = Some b.
Proof.
  revert l2 k. induction l1 as [|x l1 IH]; intros l2 k.
  - simpl. destruct k; simpl; split; try discriminate; intros [H _]; discriminate.
  - destruct l2 as [|y l2].
    + simpl. destruct k; simpl; split; try discriminate; intros [_ H]; discriminate.
    + destruct k as [|k]; simpl.
      * split.
        -- intros H. inversion H; subst. split; reflexivity.
        -- intros [H1 H2]. inversion H1; inversion H2; subst. reflexivity.
      * apply IH.
Qed.

Lemma Forall2_nth_error {A B : Type} (R : A -> B -> Prop) l1 l2 :
  Forall2 R l1 l2 ->
  forall k b, nth_error l2 k = Some b -> exists a, nth_error l1 k = Some a /\ R a b.
Proof.
  induction 1 as [|x y l1 l2 Hxy F IH]; intros k b Hk.
  - destruct k; discriminate.
  - destruct k as [|k]; simpl in Hk.
    + inversion Hk; subst. exists x. split; [reflexivity|exact Hxy].
    + apply IH. exact Hk.
Qed.

Lemma write_schedule_ids id entry acc :
  map fst (write_schedule id entry acc) = map fst acc.
Proof.
  unfold write_schedule. rewrite map_map. apply map_ext_in. intros [i e] _. simpl.
  destruct (Nat.eqb i id) eqn:E; simpl; [|reflexivity].
  apply Nat.eqb_eq in E. auto.
Qed.

Lemma write_schedule_nth id entry acc k i e :
  nth_error acc k = Some (i, e) ->
  nth_error (write_schedule id entry acc) k
  = Some (if Nat.eqb i id then (id, entry) else (i, e)).
Proof.
  intros H. unfold write_schedule. rewrite nth_error_map, H. reflexivity.
Qed.

(** What the entries written one after the other leave to be seen. *)
Lemma written_spec (L : list (nat * ScheduledTrip)) :
  map fst (written [] L) = map fst L /\
  forall k id e0,
    nth_error L k = Some (id, e0) ->
    exists i e,
      (k <= i)%nat /\ nth_error L i = Some (id, e) /\
      (forall j x, (i < j)%nat -> nth_error L j = Some x -> fst x <> id) /\
      nth_error (written [] L) k = Some (id, e).
Proof.
  induction L as [|[id' e'] L [IH1 IH2]] using rev_ind.
  - split; [reflexivity|]. intros k id e0 H. destruct k; discriminate.
  - unfold written in *. rewrite fold_left_app. cbn [fold_left fst snd].
    set (out := fold_left _ L []) in *.
    assert (Len : length out = length L).
    { rewrite <- (length_map fst out), IH1, length_map. reflexivity. }
    split.
    { rewrite !map_app, write_schedule_ids, IH1. reflexivity. }
    intros k id e0 Hk.
    destruct (Nat.lt_ge_cases k (length L)) as [Lt|Ge].
    + rewrite nth_error_app1 in Hk by exact Lt.
      destruct (IH2 k id e0 Hk) as (i & e & Hki & Hi & Hlast & Hout).
      assert (Li : (i < length L)%nat).
      { apply nth_error_Some. rewrite Hi. discriminate. }
      destruct (Nat.eqb id id') eqn:E.
      * apply Nat.eqb_eq in E. subst id'.
        exists (length L), e'. split; [lia|]. split.
        { rewrite nth_error_app2 by lia. rewrite Nat.sub_diag. reflexivity. }
        split.
        { intros j x Hj Hx. exfalso.
          assert (nth_error (L ++ [(id, e')]) j <> None) by (rewrite Hx; discriminate).
          apply nth_error_Some in H. rewrite length_app in H. simpl in H. lia. }
        rewrite nth_error_app1
          by (unfold write_schedule; rewrite length_map; lia).
        rewrite (write_schedule_nth _ _ _ _ _ _ Hout), Nat.eqb_refl. reflexivity.
      * exists i, e. split; [exact Hki|]. split.
        { rewrite nth_error_app1 by exact Li. exact Hi. }
        split.
        { intros j x Hj Hx.
          destruct (Nat.lt_ge_cases j (length L)) as [Lj|Gj].
          - rewrite nth_error_app1 in Hx by exact Lj. eapply Hlast; eauto.
          - rewrite nth_error_app2 in Hx by exact Gj.
            destruct (j - length L)%nat as [|d]; simpl in Hx.
            + inversion Hx; subst x. simpl. intros ->.
              rewrite Nat.eqb_refl in E. discriminate.
            + destruct d; discriminate. }
        rewrite nth_error_app1
          by (unfold write_schedule; rewrite length_map; lia).
        rewrite (write_schedule_nth _ _ _ _ _ _ Hout), E. reflexivity.
    + rewrite nth_error_app2 in Hk by exact Ge.
      destruct (k - length L)%nat as [|d] eqn:D; simpl in Hk;
        [|destruct d; discriminate].
      inversion Hk; subst id' e'. assert (k = length L) by lia. subst k.
      exists (length L), e0. split; [lia|]. split.
      { rewrite nth_error_app2 by lia. rewrite Nat.sub_diag. reflexivity. }
      split.
      { intros j x Hj Hx. exfalso.
        assert (nth_error (L ++ [(id, e0)]) j <> None) by (rewrite Hx; discriminate).
        apply nth_error_Some in H. rewrite length_app in H. simpl in H. lia. }
      rewrite nth_error_app2
        by (unfold write_schedule; rewrite length_map; lia).
      unfold write_schedule. rewrite length_map, Len, Nat.sub_diag. reflexivity.
Qed.

(** The loop of [schedule_fleet] renders the slot of every trip and
    writes it. *)
Lemma schedule_fold_entries refs st0 acc0 stf slots r :
  assign_all st0 (map snd refs) = Ok (stf, slots) ->
  foldM schedule_step (st0, acc0) refs = Ok r ->
  fst r = stf /\
  exists entries,
    snd r = written acc0 (combine (map fst refs) entries) /\
    Forall2 (fun e ts => render_schedule (snd (fst ts)) (snd ts) = Ok e)
            entries (combine refs slots).
Proof.
  revert st0 acc0 slots. induction refs as [|[id trip] refs IH];
    intros st0 acc0 slots A H; simpl in A; cbn [foldM] in H.
  - inversion A; inversion H; subst. simpl. split; [reflexivity|].
    exists []. split; [reflexivity|constructor].
  - bind_inv A. destruct a as [st1 slot]. bind_inv A. destruct a as [stf' slots'].
    simpl in A. inversion A; subst stf' slots; clear A.
    bind_inv H. unfold schedule_step in E1. simpl in E1.
    rewrite E in E1. simpl in E1. bind_inv E1. inversion E1; subst a; clear E1.
    destruct (IH _ _ _ E0 H) as (R1 & entries & R2 & R3).
    split; auto. exists (a0 :: entries). split.
    + rewrite R2. reflexivity.
    + simpl. constructor; auto.
Qed.

Lemma written_last refs slots entries :
  length slots = length refs ->
  Forall2 (fun e ts => render_schedule (snd (fst ts)) (snd ts) = Ok e)
          entries (combine refs slots) ->
  last_schedule refs slots (written [] (combine (map fst refs) entries)).
Proof.
  intros Ls F.
  assert (Le : length entries = length refs).
  { rewrite (Forall2_length F), length_combine, Ls. apply Nat.min_id. }
  destruct (written_spec (combine (map fst refs) entries)) as [W1 W2].
  split.
  { rewrite W1. clear - Le. revert entries Le.
    induction refs as [|r refs IH]; intros [|e entries] Le; simpl in *;
      try discriminate; auto.
    f_equal. apply IH. lia. }
  intros k id trip Hk.
  assert (exists e0, nth_error entries k = Some e0) as [e0 He0].
  { destruct (nth_error entries k) eqn:X; [eauto|].
    apply nth_error_None in X.
    assert (nth_error refs k <> None) by (rewrite Hk; discriminate).
    apply nth_error_Some in H. lia. }
  assert (HL : nth_error (combine (map fst refs) entries) k = Some (id, e0)).
  { apply nth_error_combine. split; [|exact He0].
    rewrite nth_error_map, Hk. reflexivity. }
  destruct (W2 k id e0 HL) as (i & e & Hki & Hi & Hlast & Hout).
  apply nth_error_combine in Hi as [Hi1 Hi2].
  rewrite nth_error_map in Hi1.
  destruct (nth_error refs i) as [[id_i trip_i]|] eqn:Ri; [|discriminate].
  simpl in Hi1. inversion Hi1; subst id_i.
  assert (exists slot, nth_error slots i = Some slot) as [slot Hs].
  { destruct (nth_error slots i) eqn:X; [eauto|].
    apply nth_error_None in X.
    assert (nth_error refs i <> None) by (rewrite Ri; discriminate).
    apply nth_error_Some in H. lia. }
  assert (Hc : nth_error (combine refs slots) i = Some ((id, trip_i), slot)).
  { apply nth_error_combine. split; assumption. }
  destruct (Forall2_nth_error _ _ _ F _ _ Hc) as (e' & He' & Hr).
  rewrite Hi2 in He'. inversion He'; subst e'. simpl in Hr.
  exists i, trip_i, slot, e. split; [exact Hki|]. split; [exact Ri|].
  split.
  { intros j [idj tj] Hj Hx.
    assert (exists ej, nth_error entries j = Some ej) as [ej Hej].
    { destruct (nth_error entries j) eqn:X; [eauto|].
      apply nth_error_None in X.
      assert (nth_error refs j <> None) by (rewrite Hx; discriminate).
      apply nth_error_Some in H. lia. }
    apply (Hlast j (idj, ej) Hj).
    apply nth_error_combine. split; [|exact Hej].
    rewrite nth_error_map, Hx. reflexivity. }
  split; [exact Hs|]. split; [exact Hr|exact Hout].
Qed.

Lemma fleet_run_clock st trips slots stf :
  fleet_run st trips slots stf ->
  forall i slot, nth_error slots i = Some slot ->
    slot_start slot = Nat.iter i (fun t => t + TIME_LOADING) (plant_ready_time st).
Proof.
  induction 1 as [st|st trip st' slot trips slots stf S R IH]; intros i s Hn.
  - destruct i; discriminate.
  - destruct S as (S1 & S2 & S3 & S4 & S5).
    destruct i as [|i]; simpl in Hn.
    + inversion Hn; subst s. simpl. exact S2.
    + rewrite (IH i s Hn), S4, Nat.iter_succ_r. reflexivity.
Qed.

Lemma assign_all_app st l1 l2 :
  assign_all st (l1 ++ l2) =
  (r1 <- assign_all st l1 ;;
   r2 <- assign_all (fst r1) l2 ;;
   Ok (fst r2, snd r1 ++ snd r2)).
Proof.
  revert st. induction l1 as [|trip l1 IH]; intros st; simpl.
  - destruct (assign_all st l2) as [[s sl]| |]; reflexivity.
  - destruct (assign_trip st trip) as [[st1 slot]| |]; simpl; try reflexivity.
    rewrite IH.
    destruct (assign_all st1 l1) as [[st2 sl1]| |]; simpl; try reflexivity.
    destruct (assign_all st2 l2) as [[st3 sl2]| |]; reflexivity.
Qed.

Lemma fleet_run_length st trips slots stf :
  fleet_run st trips slots stf -> length slots = length trips.
Proof. induction 1; simpl; auto. Qed.

Lemma fleet_run_final_clock st trips slots stf :
  fleet_run st trips slots stf ->
  plant_ready_time stf
  = Nat.iter (length trips) (fun t => t + TIME_LOADING) (plant_ready_time st).
Proof.
  induction 1 as [st|st trip st' slot trips slots stf S R IH].
  - reflexivity.
  - destruct S as (_ & _ & _ & S4 & _).
    rewrite IH, S4. cbn [length]. rewrite Nat.iter_succ_r. reflexivity.
Qed.

Lemma set_available_at_ids fleet0 idx end_time :
  map ft_id (set_available_at fleet0 idx end_time) = map ft_id fleet0 /\
  map ft_type (set_available_at fleet0 idx end_time) = map ft_type fleet0 /\
  length (set_available_at fleet0 idx end_time) = length fleet0.
Proof.
  revert idx. induction fleet0 as [|truck rest IH]; intros idx; simpl.
  - auto.
  - destruct idx as [|idx]; simpl; auto.
    destruct (IH idx) as (A & B & C). rewrite A, B, C. auto.
Qed.

Lemma first_fit_step_ids st trip st' slot :
  first_fit_step st trip st' slot -> sequential_ids st -> sequential_ids st'.
Proof.
  intros (_ & _ & _ & _ & S) [I1 I2]. unfold sequential_ids.
  destruct S as [(idx & truck & _ & _ & _ & _ & F & C)|(_ & _ & F & C)];
    rewrite F, C.
  - destruct (set_available_at_ids (fleet st) idx
                (plant_ready_time st + duration trip)) as (A & _ & L).
    rewrite A, L. auto.
  - rewrite map_app, length_app, seq_app, map_app, I1. simpl.
    split; [|lia]. do 2 f_equal. lia.
Qed.

Lemma fleet_run_ids st trips slots stf :
  fleet_run st trips slots stf -> sequential_ids st -> sequential_ids stf.
Proof.
  induction 1; auto. intros I. apply IHfleet_run.
  eapply first_fit_step_ids; eauto.
Qed.

Lemma fleet_init_ids : sequential_ids fleet_init.
Proof. split; reflexivity. Qed.

Lemma assign_all_is_run st trips stf slots :
  assign_all st trips = Ok (stf, slots) -> fleet_run st trips slots stf.
Proof.
  intros H. destruct (assign_all_run st trips) as (stf' & slots' & E & R).
  rewrite E in H. inversion H; subst. exact R.
Qed.

(** The one truck [set_available_at] touches, and the trucks it leaves
    alone. *)
Lemma set_available_at_nth fleet0 idx truck end_time :
  nth_error fleet0 idx = Some truck ->
  length (set_available_at fleet0 idx end_time) = length fleet0 /\
  nth_error (set_available_at fleet0 idx end_time) idx
  = Some {| ft_id := ft_id truck; ft_type := ft_type truck;
            ft_available_at := end_time |} /\
  forall j, j <> idx ->
            nth_error (set_available_at fleet0 idx end_time) j
            = nth_error fleet0 j.
Proof.
  revert idx. induction fleet0 as [|t rest IH]; intros idx H.
  - destruct idx; discriminate.
  - destruct idx as [|idx]; simpl in H |- *.
    + inversion H; subst t. split; [reflexivity|]. split; [reflexivity|].
      intros [|j] Hj; [contradiction|reflexivity].
    + destruct (IH idx H) as (L & N & O).
      split; [rewrite L; reflexivity|]. split; [exact N|].
      intros [|j] Hj; [reflexivity|]. simpl. apply O. intros ->. contradiction.
Qed.

Lemma truck_free_can_take trip start truck :
  truck_free (truck_type trip) start truck = true <-> can_take trip start truck.
Proof.
  unfold truck_free, can_take. rewrite andb_true_iff, String.eqb_eq.
  reflexivity.
Qed.

Lemma first_fit_step_first_fit st trip st' slot :
  first_fit_step st trip st' slot -> first_fit st trip st' slot.
Proof.
  intros (A1 & A2 & A3 & A4 & D). unfold first_fit.
  split; [exact A1|]. split; [exact A2|]. split; [exact A3|].
  split; [exact A4|].
  destruct D as [(idx & truck & B1 & B2 & B3 & B4 & B5 & B6)|(C1 & C2 & C3 & C4)].
  - left. exists idx, truck.
    destruct (set_available_at_nth (fleet st) idx truck
                (plant_ready_time st + duration trip) B1) as (L & N & O).
    split; [exact B1|]. split; [apply truck_free_can_take; exact B2|].
    split.
    { intros j truck' Hj Hn Hc. apply truck_free_can_take in Hc.
      rewrite (B3 j truck' Hj Hn) in Hc. discriminate. }
    split; [exact B4|]. rewrite B5.
    split; [exact L|]. split; [exact N|]. split; [exact O|exact B6].
  - right. split; [|auto].
    intros truck Hin Hc. apply truck_free_can_take in Hc.
    rewrite Forall_forall in C1. rewrite (C1 truck Hin) in Hc. discriminate.
Qed.

(** The entry written into a trip, field by field. *)
Lemma render_schedule_fields trip s e :
  render_schedule trip s = Ok e ->
  st_trip e = trip /\
  truck_id (st_schedule e) = slot_truck_id s /\
  format_time (slot_start s) = Ok (start_time (st_schedule e)) /\
  format_time (slot_end s) = Ok (end_time (st_schedule e)) /\
  duration_h (st_schedule e) = round_ndigits (duration trip) 2.
Proof.
  unfold render_schedule. intros H. bind_inv H. bind_inv H.
  inversion H; subst e. simpl. auto.
Qed.

Lemma last_schedule_shows refs slots out :
  last_schedule refs slots out -> shows_slots refs slots out.
Proof.
  intros (I & L). split; [exact I|].
  intros k id trip Hk.
  destruct (L k id trip Hk) as (i & trip_i & slot & entry & A1 & A2 & A3 & A4 & A5 & A6).
  exists i, trip_i, slot, entry.
  apply render_schedule_fields in A5 as (F1 & F2 & F3 & F4 & F5).
  repeat (split; [assumption|]). assumption.
Qed.

(** C3: [schedule_fleet] starts trip [i] (0-based) at the plant clock
    after [i] loading times, [START_HOUR + i * TIME_LOADING], whichever
    trucks were used; it gives the trip the first truck, in fleet order,
    whose type is the required one and whose free-at time is at most the
    start time, and sets the free-at time of that truck, and of no
    other, to start + duration; when there is none it appends a new
    truck of that type, with the next id in sequence, free at
    start + duration.  The assignments are made for every trip list;
    when [schedule_fleet] returns, its list holds the dictionaries of
    the input in order, each showing the truck id, the printed start and
    end and the rounded duration of the slot that was written into it
    last. *)
Theorem schedule_fleet_first_fit (refs : list (nat * Trip)) :
  let trips := map snd refs in
  exists stf slots,
    assign_all fleet_init trips = Ok (stf, slots) /\
    length slots = length trips /\
    (forall out, schedule_fleet refs = Ok out -> shows_slots refs slots out) /\
    forall i trip,
      nth_error trips i = Some trip ->
      exists st st' slot,
        assign_all fleet_init (firstn i trips) = Ok (st, firstn i slots) /\
        nth_error slots i = Some slot /\
        plant_ready_time st = clock i /\
        ((Z.of_nat i < 2 ^ 50)%Z ->
         fval (clock i) = (fval START_HOUR + Z.of_nat i * fval TIME_LOADING)%Z) /\
        sequential_ids st /\
        assign_trip st trip = Ok (st', slot) /\
        first_fit st trip st' slot.
Proof.
  intros trips.
  destruct (assign_all_run fleet_init trips) as (stf & slots & E & R).
  exists stf, slots. split; [exact E|].
  split; [eapply fleet_run_length; eauto|]. split.
  - intros out H. unfold schedule_fleet in H. bind_inv H. inversion H; subst out.
    destruct (schedule_fold_entries _ _ _ _ _ _ E E0) as (_ & entries & S1 & S2).
    simpl in S1. rewrite S1. apply last_schedule_shows.
    apply written_last; [|exact S2].
    apply fleet_run_length in R. unfold trips in R. rewrite length_map in R.
    exact R.
  - intros i trip Hn.
    pose proof (nth_error_split trips i Hn) as (l1 & l2 & Et & Li).
    assert (Ef : firstn i trips = l1).
    { rewrite Et, <- Li, firstn_app, Nat.sub_diag, firstn_all. simpl.
      apply app_nil_r. }
    rewrite Et in E. rewrite assign_all_app in E.
    bind_inv E. destruct a as [st sl1]. simpl in E.
    bind_inv E. destruct a as [stf' sl2]. simpl in E.
    inversion E; subst stf' slots; clear E.
    simpl in E1. bind_inv E1. destruct a as [st' slot].
    bind_inv E1. destruct a as [stf'' sl3]. simpl in E1.
    inversion E1; subst stf'' sl2; clear E1.
    pose proof (assign_all_is_run _ _ _ _ E0) as R1.
    pose proof (fleet_run_length _ _ _ _ R1) as L1.
    exists st, st', slot.
    assert (Es : firstn i (sl1 ++ slot :: sl3) = sl1).
    { rewrite <- Li, <- L1, firstn_app, Nat.sub_diag, firstn_all. simpl.
      apply app_nil_r. }
    rewrite Ef, Es. split; [exact E0|]. split.
    { rewrite nth_error_app2 by lia. rewrite L1, Li, Nat.sub_diag. reflexivity. }
    split.
    { rewrite (fleet_run_final_clock _ _ _ _ R1), Li. reflexivity. }
    split.
    { intros B. apply clock_exact. exact B. }
    split.
    { eapply fleet_run_ids; eauto. apply fleet_init_ids. }
    split; [exact E|].
    destruct (assign_trip_spec st trip) as (st2 & slot2 & A & S).
    rewrite A in E. inversion E; subst.
    apply first_fit_step_first_fit. exact S.
Qed.

(* ------------------------------------------------------------------ *)
(** ** Fleet scheduling: the fleet is as small as the schedule allows *)

Lemma sequential_ids_range st truck :
  sequential_ids st -> In truck (fleet st) ->
  (1 <= ft_id truck < truck_id_counter st)%Z.
Proof.
  intros [I1 I2] Hin. apply (in_map ft_id) in Hin. rewrite I1 in Hin.
  apply in_map_iff in Hin as (n & En & Hn). apply in_seq in Hn. lia.
Qed.

Lemma NoDup_map_inj {A B : Type} (f : A -> B) l x y :
  NoDup (map f l) -> In x l -> In y l -> f x = f y -> x = y.
Proof.
  induction l as [|a l IH]; simpl; intros ND Hx Hy E; [contradiction|].
  inversion ND as [|? ? NI ND']; subst.
  destruct Hx as [->|Hx], Hy as [->|Hy]; auto.
  - exfalso. apply NI. rewrite E. apply in_map. exact Hy.
  - exfalso. apply NI. rewrite <- E. apply in_map. exact Hx.
Qed.

Lemma sequential_ids_NoDup st : sequential_ids st -> NoDup (map ft_id (fleet st)).
Proof.
  intros [I1 _]. rewrite I1. apply Finite.Injective_map_NoDup.
  - intros a b E. lia.
  - apply seq_NoDup.
Qed.

Lemma set_available_at_In fleet0 idx truck end_time t' :
  nth_error fleet0 idx = Some truck -> NoDup (map ft_id fleet0) ->
  (In t' (set_available_at fleet0 idx end_time) <->
   t' = {| ft_id := ft_id truck; ft_type := ft_type truck;
           ft_available_at := end_time |}
   \/ (In t' fleet0 /\ ft_id t' <> ft_id truck)).
Proof.
  revert idx. induction fleet0 as [|a rest IH]; intros idx Hn ND.
  - destruct idx; discriminate.
  - inversion ND as [|? ? NI ND']; subst.
    destruct idx as [|idx]; simpl in Hn |- *.
    + inversion Hn; subst a. split.
      * intros [E|Hr]; [left; auto|]. right. split; auto.
        intros E. apply NI. rewrite <- E. apply in_map. exact Hr.
      * intros [E|[[E|Hr] N]]; auto. congruence.
    + rewrite (IH idx Hn ND'). split.
      * intros [E|[E|[Hr N]]]; auto.
        subst t'. right. split; auto. intros E. apply NI. rewrite E.
        apply in_map. eapply nth_error_In; eauto.
      * intros [E|[[E|Hr] N]]; auto.
Qed.

Lemma trucks_of_map fleet1 fleet2 c :
  map ft_type fleet1 = map ft_type fleet2 ->
  length (trucks_of c fleet1) = length (trucks_of c fleet2).
Proof.
  revert fleet2. induction fleet1 as [|a l1 IH]; intros [|b l2] E;
    simpl in E; try discriminate; auto.
  inversion E as [[E1 E2]]. simpl. rewrite E1.
  destruct (String.eqb (ft_type b) c); simpl; auto.
Qed.

Lemma nth_error_snoc {A : Type} (l : list A) x i y :
  nth_error (l ++ [x]) i = Some y ->
  (i < length l /\ nth_error l i = Some y)%nat \/ (i = length l /\ y = x).
Proof.
  intros H. destruct (Nat.lt_ge_cases i (length l)) as [L|G].
  - left. rewrite nth_error_app1 in H by exact L. auto.
  - right. rewrite nth_error_app2 in H by exact G.
    destruct (i - length l)%nat as [|n] eqn:E; simpl in H.
    + inversion H. split; [lia|auto].
    + destruct n; discriminate.
Qed.

Lemma nth_error_snoc_old {A : Type} (l : list A) x i y :
  nth_error l i = Some y -> nth_error (l ++ [x]) i = Some y.
Proof.
  intros H. rewrite nth_error_app1; auto. apply nth_error_Some. congruence.
Qed.

Lemma nth_error_snoc_new {A : Type} (l : list A) x :
  nth_error (l ++ [x]) (length l) = Some x.
Proof. rewrite nth_error_app2, Nat.sub_diag by lia. reflexivity. Qed.

Lemma clique_snoc c H idxs slot : clique c H idxs -> clique c (H ++ [slot]) idxs.
Proof.
  intros (ND & C1 & C2). split; [exact ND|]. split.
  - intros i Hi. destruct (C1 i Hi) as (s & Hs & Ts). exists s.
    split; auto. apply nth_error_snoc_old. exact Hs.
  - intros i j a b Hi Hj Hij Ha Hb.
    destruct (C1 i Hi) as (sa & Hsa & _). destruct (C1 j Hj) as (sb & Hsb & _).
    rewrite (nth_error_snoc_old _ slot _ _ Hsa) in Ha.
    rewrite (nth_error_snoc_old _ slot _ _ Hsb) in Hb.
    injection Ha as <-. injection Hb as <-. apply (C2 i j sa sb); auto.
Qed.

Lemma last_slot_snoc H truck l slot :
  last_slot H truck l -> slot_truck_id slot <> ft_id truck ->
  last_slot (H ++ [slot]) truck l.
Proof.
  intros (s & L1 & L2 & L3 & L4 & L5) N. exists s.
  split; [apply nth_error_snoc_old; exact L1|]. repeat split; auto.
  intros i s' Hi Ei. apply nth_error_snoc in Hi as [[_ Hi]|[_ ->]].
  - eapply L5; eauto.
  - contradiction.
Qed.

Lemma fleb_trans a b c :
  (a <=? b) = true -> (b <=? c) = true -> (a <=? c) = true.
Proof.
  intros H1 H2. float_facts. apply leb_iff. repeat split; auto. lia.
Qed.

Lemma fltb_not_leb a b : (a <? b) = true -> (b <=? a) = true -> False.
Proof. intros H1 H2. float_facts. lia. Qed.

Lemma truck_free_true ty start truck :
  truck_free ty start truck = true ->
  ft_type truck = ty /\ (ft_available_at truck <=? start) = true.
Proof.
  unfold truck_free. rewrite andb_true_iff, String.eqb_eq. auto.
Qed.

Lemma truck_free_false ty start truck :
  truck_free ty start truck = false -> ft_type truck = ty ->
  (ft_available_at truck <=? start) = false.
Proof.
  unfold truck_free. intros H E. rewrite E, String.eqb_refl in H. exact H.
Qed.

Lemma NoDup_map_filter {A B : Type} (f : A -> B) (p : A -> bool) l :
  NoDup (map f l) -> NoDup (map f (filter p l)).
Proof.
  induction l as [|a l IH]; simpl; intros ND; [constructor|].
  inversion ND as [|? ? NI ND']; subst.
  destruct (p a); simpl; auto. constructor; auto.
  intros Hin. apply NI. apply in_map_iff in Hin as (x & Ex & Hx).
  apply filter_In in Hx as [Hx _]. rewrite <- Ex. apply in_map. exact Hx.
Qed.

Lemma last_indices H fleet0 l :
  (forall truck, In truck fleet0 -> exists i, last_slot H truck i) ->
  (forall truck, In truck l -> In truck fleet0) ->
  NoDup (map ft_id l) ->
  exists idxs, Forall2 (last_slot H) l idxs /\ NoDup idxs.
Proof.
  intros Hlast. induction l as [|t l IH]; intros Hin ND.
  - exists []. split; constructor.
  - inversion ND as [|? ? NI ND']; subst.
    destruct IH as (idxs & F & NDi); auto.
    { intros x Hx. apply Hin. right. exact Hx. }
    destruct (Hlast t) as (lt & Lt); [apply Hin; left; reflexivity|].
    exists (lt :: idxs). split; [constructor; auto|].
    constructor; auto. intros Hl.
    destruct (Forall2_In_r _ _ _ _ F Hl) as (t' & Ht' & (s' & P1 & P2 & _)).
    destruct Lt as (s & Q1 & Q2 & _).
    rewrite P1 in Q1. injection Q1 as <-.
    apply NI. rewrite <- Q2, P2. apply in_map. exact Ht'.
Qed.

Lemma fleet_inv_step k H st trip st' slot :
  fleet_inv k H st ->
  first_fit_step st trip st' slot ->
  (slot_start slot <? slot_end slot) = true ->
  (Z.of_nat (S k) < 2 ^ 50)%Z ->
  fleet_inv (S k) (H ++ [slot]) st'.
Proof.
  intros I S ND B.
  pose proof S as (S1 & S2 & S3 & S4 & S5).
  destruct I as [Ilen Iclock Istart Iids Ilast Iowner Ivalid Iclique].
  pose proof (sequential_ids_NoDup _ Iids) as NDids.
  assert (Hold : forall i s, nth_error H i = Some s -> (i < k)%nat).
  { intros i s Hn. rewrite <- Ilen. apply nth_error_Some. congruence. }
  assert (Hnew : nth_error (H ++ [slot]) k = Some slot).
  { rewrite <- Ilen. apply nth_error_snoc_new. }
  assert (Cstart : slot_start slot = clock k) by congruence.
  assert (Cmono : forall i, (i <= k)%nat -> (clock i <=? clock k) = true).
  { intros i Hi. apply clock_mono; auto. lia. }
  assert (Pstart : forall i s, nth_error (H ++ [slot]) i = Some s ->
                               slot_start s = clock i).
  { intros i s Hn. apply nth_error_snoc in Hn as [[_ Hn]|[E ->]].
    - eapply Istart; eauto.
    - rewrite E, Ilen. exact Cstart. }
  destruct S5 as [(idx & truck & A1 & A2 & A3 & A4 & A5 & A6)
                 |(B1 & B2 & B3 & B4)].
  - (* a truck is reused *)
    apply truck_free_true in A2 as [Aty Afree].
    set (upd := {| ft_id := ft_id truck; ft_type := ft_type truck;
                   ft_available_at := plant_ready_time st + duration trip |}).
    assert (Hin : forall t', In t' (fleet st') <->
                             t' = upd \/ (In t' (fleet st) /\ ft_id t' <> ft_id truck)).
    { intros t'. rewrite A5. apply set_available_at_In; auto. }
    assert (Htruck : In truck (fleet st)) by (eapply nth_error_In; eauto).
    constructor.
    + rewrite length_app. simpl. lia.
    + rewrite S4, Iclock. reflexivity.
    + exact Pstart.
    + eapply first_fit_step_ids; eauto.
    + intros t' Ht'. apply Hin in Ht' as [->|[Ht' Nid]].
      * exists k, slot. split; [exact Hnew|]. simpl.
        repeat split; auto; try congruence.
        intros i s' Hi _. apply nth_error_snoc in Hi as [[Hi _]|[Hi _]]; lia.
      * destruct (Ilast t' Ht') as (l & L). exists l.
        apply last_slot_snoc; auto. congruence.
    + intros i s Hn. apply nth_error_snoc in Hn as [[_ Hn]|[_ ->]].
      * destruct (Iowner i s Hn) as (t & T1 & T2 & T3).
        destruct (Z.eq_dec (ft_id t) (ft_id truck)) as [E|N].
        -- assert (t = truck) by (eapply NoDup_map_inj; eauto). subst t.
           exists upd. split; [apply Hin; auto|]. simpl. auto.
        -- exists t. split; [apply Hin; auto|]. auto.
      * exists upd. split; [apply Hin; auto|]. simpl. split; congruence.
    + intros i j a b Hij Ha Hb Eid.
      apply nth_error_snoc in Hb as [[Lj Hb]|[Ej ->]].
      * apply nth_error_snoc in Ha as [[_ Ha]|[Ei _]]; [|lia].
        apply (Ivalid i j a b); auto.
      * apply nth_error_snoc in Ha as [[_ Ha]|[Ei _]]; [|lia].
        destruct (Ilast truck Htruck) as (l & sl & L1 & L2 & L3 & L4 & L5).
        assert (Hil : (i <= l)%nat) by (eapply L5; eauto; congruence).
        rewrite Cstart, <- Iclock.
        destruct (Nat.eq_dec i l) as [->|Nil].
        -- rewrite L1 in Ha. injection Ha as <-. rewrite L4. exact Afree.
        -- apply fleb_trans with (slot_start sl).
           ++ apply (Ivalid i l a sl); auto; [lia|congruence].
           ++ rewrite (Istart _ _ L1), Iclock. apply Cmono.
              apply Hold in L1. lia.
    + intros c. destruct (Iclique c) as (idxs & C & L).
      exists idxs. split; [apply clique_snoc; exact C|].
      rewrite L. apply trucks_of_map. rewrite A5.
      symmetry. apply set_available_at_ids.
  - (* a new truck is created *)
    set (new := {| ft_id := truck_id_counter st; ft_type := truck_type trip;
                   ft_available_at := plant_ready_time st + duration trip |}) in *.
    assert (Hrange : forall t, In t (fleet st) -> ft_id t <> truck_id_counter st).
    { intros t Ht. pose proof (sequential_ids_range _ _ Iids Ht). lia. }
    constructor.
    + rewrite length_app. simpl. lia.
    + rewrite S4, Iclock. reflexivity.
    + exact Pstart.
    + eapply first_fit_step_ids; eauto.
    + intros t' Ht'. rewrite B3 in Ht'. apply in_app_or in Ht' as [Ht'|[<-|[]]].
      * destruct (Ilast t' Ht') as (l & L). exists l.
        apply last_slot_snoc; auto. rewrite B2. intros E. eapply Hrange; eauto.
      * exists k, slot. split; [exact Hnew|]. simpl.
        repeat split; auto.
        intros i s' Hi _. apply nth_error_snoc in Hi as [[Hi _]|[Hi _]]; lia.
    + intros i s Hn. rewrite B3. apply nth_error_snoc in Hn as [[_ Hn]|[_ ->]].
      * destruct (Iowner i s Hn) as (t & T1 & T2 & T3).
        exists t. split; [apply in_or_app; auto|]. auto.
      * exists new. split; [apply in_or_app; right; left; reflexivity|].
        simpl. split; congruence.
    + intros i j a b Hij Ha Hb Eid.
      apply nth_error_snoc in Hb as [[Lj Hb]|[Ej ->]].
      * apply nth_error_snoc in Ha as [[_ Ha]|[Ei _]]; [|lia].
        apply (Ivalid i j a b); auto.
      * apply nth_error_snoc in Ha as [[_ Ha]|[Ei _]]; [|lia].
        exfalso. destruct (Iowner i a Ha) as (t & T1 & T2 & T3).
        apply (Hrange t T1). congruence.
    + intros c. destruct (String.eqb (truck_type trip) c) eqn:Ec.
      * (* the slots the busy trucks served last, and the new slot *)
        apply String.eqb_eq in Ec.
        destruct (last_indices H (fleet st) (trucks_of c (fleet st)) Ilast)
          as (idxs & F & NDi).
        { intros t Ht. apply filter_In in Ht. tauto. }
        { apply NoDup_map_filter. exact NDids. }
        assert (Hbusy : forall i, In i idxs ->
                  exists t s, In t (fleet st) /\ ft_type t = c /\
                              nth_error H i = Some s /\ slot_type s = c /\
                              (slot_end s <=? clock k) = false).
        { intros i Hi.
          destruct (Forall2_In_r _ _ _ _ F Hi) as (t & Ht & (s & P1 & P2 & P3 & P4 & _)).
          apply filter_In in Ht as [Ht Tc]. apply String.eqb_eq in Tc.
          exists t, s. repeat split; auto; [congruence|].
          rewrite P4, <- Iclock. rewrite Forall_forall in B1.
          apply truck_free_false with (ty := truck_type trip); auto. congruence. }
        exists (k :: idxs). split.
        -- split; [|split].
           ++ constructor; auto. intros Hk.
              destruct (Hbusy k Hk) as (_ & s & _ & _ & Hs & _).
              apply Hold in Hs. lia.
           ++ intros i [<-|Hi].
              ** exists slot. split; [exact Hnew|congruence].
              ** destruct (Hbusy i Hi) as (_ & s & _ & _ & Hs & Ts & _).
                 exists s. split; auto. apply nth_error_snoc_old. exact Hs.
           ++ assert (Hnk : forall j b, In j idxs -> nth_error (H ++ [slot]) j = Some b ->
                                        ~ compatible slot b).
              { intros j b Hj Hb.
                destruct (Hbusy j Hj) as (_ & s & _ & _ & Hs & _ & Bs).
                rewrite (nth_error_snoc_old _ slot _ _ Hs) in Hb. injection Hb as <-.
                intros [Cp|Cp].
                - apply (fltb_not_leb _ _ ND).
                  apply fleb_trans with (slot_start s); auto.
                  rewrite (Istart _ _ Hs), Cstart. apply Cmono.
                  apply Hold in Hs. lia.
                - rewrite Cstart in Cp. congruence. }
              assert (Hold2 : forall i j a b, In i idxs -> In j idxs ->
                                nth_error (H ++ [slot]) i = Some a ->
                                nth_error (H ++ [slot]) j = Some b ->
                                (slot_end a <=? slot_start b) = true -> False).
              { intros i j a b Hi Hj Ha Hb Cp.
                destruct (Hbusy i Hi) as (_ & sa & _ & _ & Hsa & _ & Ba).
                destruct (Hbusy j Hj) as (_ & sb & _ & _ & Hsb & _ & Bb).
                rewrite (nth_error_snoc_old _ slot _ _ Hsa) in Ha. injection Ha as <-.
                rewrite (nth_error_snoc_old _ slot _ _ Hsb) in Hb. injection Hb as <-.
                assert (X : (slot_end sa <=? clock k) = true).
                { apply fleb_trans with (slot_start sb); auto.
                  rewrite (Istart _ _ Hsb). apply Cmono. apply Hold in Hsb. lia. }
                congruence. }
              intros i j a b [<-|Hi] [<-|Hj] Hij Ha Hb.
              ** contradiction.
              ** rewrite Hnew in Ha. injection Ha as <-. eapply Hnk; eauto.
              ** rewrite Hnew in Hb. injection Hb as <-.
                 intros [Cp|Cp]; eapply (Hnk i a); eauto; [right|left]; exact Cp.
              ** intros [Cp|Cp]; [eapply (Hold2 i j)|eapply (Hold2 j i)]; eauto.
        -- rewrite B3. unfold trucks_of. rewrite filter_app. simpl.
           rewrite Ec, String.eqb_refl, length_app. simpl.
           apply Forall2_length in F. fold (trucks_of c (fleet st)). lia.
      * destruct (Iclique c) as (idxs & C & L).
        exists idxs. split; [apply clique_snoc; exact C|].
        rewrite L, B3. unfold trucks_of. rewrite filter_app. simpl.
        rewrite Ec, app_nil_r. reflexivity.
Qed.

Lemma fleet_inv_init : fleet_inv 0 [] fleet_init.
Proof.
  constructor.
  - reflexivity.
  - reflexivity.
  - intros i s Hn. destruct i; discriminate.
  - apply fleet_init_ids.
  - intros truck [].
  - intros i s Hn. destruct i; discriminate.
  - intros i j a b _ Hn. destruct i; discriminate.
  - intros c. exists []. split; [|reflexivity].
    split; [constructor|]. split; intros i; intros; contradiction.
Qed.

Lemma fleet_inv_run k H st trips slots stf :
  fleet_inv k H st ->
  fleet_run st trips slots stf ->
  Forall (fun s => (slot_start s <? slot_end s) = true) slots ->
  (Z.of_nat (k + length trips) < 2 ^ 50)%Z ->
  fleet_inv (k + length trips) (H ++ slots) stf.
Proof.
  intros I R. revert k H I.
  induction R as [st|st trip st' slot trips slots stf Hs R IH]; intros k H I F B.
  - rewrite app_nil_r, Nat.add_0_r. exact I.
  - inversion F as [|? ? F1 F2]; subst. cbn [length] in B |- *.
    replace (k + S (length trips))%nat with (S k + length trips)%nat in * by lia.
    replace (H ++ slot :: slots) with ((H ++ [slot]) ++ slots)
      by (rewrite <- app_assoc; reflexivity).
    apply IH; auto.
    apply (fleet_inv_step k H st trip st' slot); auto. lia.
Qed.

Lemma fleet_run_slot st trips slots stf :
  fleet_run st trips slots stf ->
  forall i trip slot,
    nth_error trips i = Some trip -> nth_error slots i = Some slot ->
    slot_type slot = truck_type trip /\
    slot_end slot = slot_start slot + duration trip.
Proof.
  induction 1 as [st|st trip0 st' slot0 trips slots stf S R IH];
    intros i trip slot Ht Hs.
  - destruct i; discriminate.
  - destruct i as [|i]; simpl in Ht, Hs.
    + inversion Ht; inversion Hs; subst.
      destruct S as (S1 & S2 & S3 & _). rewrite S3, S2. auto.
    + eapply IH; eauto.
Qed.

(** Slots of which one ends by the start of the other share no time. *)
Lemma compatible_no_overlap a b : compatible a b -> ~ overlap a b.
Proof.
  intros [C|C] (t & A1 & A2 & B1 & B2); float_facts; lia.
Qed.

(** Two slots that take time, and of which neither ends by the start of
    the other, share the later of their two starts. *)
Lemma incompatible_overlap a b :
  (slot_start a <? slot_end a) = true ->
  (slot_start b <? slot_end b) = true ->
  ~ compatible a b -> overlap a b.
Proof.
  intros Sa Sb NC. unfold compatible in NC.
  destruct (slot_end a <=? slot_start b) eqn:E1; [exfalso; auto|].
  destruct (slot_end b <=? slot_start a) eqn:E2; [exfalso; auto|].
  apply ltb_iff in Sa as (Na1 & Na2 & Va).
  apply ltb_iff in Sb as (Nb1 & Nb2 & Vb).
  apply leb_false_iff in E1 as [E1|[E1|E1]]; try congruence.
  apply leb_false_iff in E2 as [E2|[E2|E2]]; try congruence.
  destruct (Z.le_gt_cases (fval (slot_start a)) (fval (slot_start b))) as [L|G].
  - exists (slot_start b). split; [|split; [|split]].
    + apply leb_iff. auto.
    + apply ltb_iff. auto.
    + apply leb_iff. split; [|split]; auto. apply Z.le_refl.
    + apply ltb_iff. auto.
  - exists (slot_start a). split; [|split; [|split]].
    + apply leb_iff. split; [|split]; auto. apply Z.le_refl.
    + apply ltb_iff. auto.
    + apply leb_iff. split; [|split]; auto. apply Z.lt_le_incl. exact G.
    + apply ltb_iff. auto.
Qed.

(** A slot that takes no time shares none. *)
Lemma empty_slot_no_overlap a b :
  (slot_end b <=? slot_start b) = true -> ~ overlap a b /\ ~ overlap b a.
Proof.
  intros E. split; intros (t & A1 & A2 & B1 & B2); float_facts; lia.
Qed.

(** The slots of trips that take time end after they start. *)
Lemma takes_time_slots trips slots stf :
  fleet_run fleet_init trips slots stf ->
  (forall i trip, nth_error trips i = Some trip -> takes_time i trip) ->
  Forall (fun s => (slot_start s <? slot_end s) = true) slots.
Proof.
  intros R T. apply Forall_forall. intros s Hs.
  apply In_nth_error in Hs as (i & Hi).
  assert (exists trip, nth_error trips i = Some trip) as (trip & Ht).
  { destruct (nth_error trips i) as [trip|] eqn:X; [eauto|].
    apply nth_error_None in X.
    rewrite <- (fleet_run_length _ _ _ _ R) in X.
    apply nth_error_None in X. congruence. }
  destruct (fleet_run_slot _ _ _ _ R i trip s Ht Hi) as (_ & E).
  pose proof (fleet_run_clock _ _ _ _ R i s Hi) as C.
  change (slot_start s = clock i) in C.
  rewrite E, C. apply (T i trip Ht).
Qed.

(** C4, for trips that take time: at the end of a run of the scheduler,
    for every truck type, the trucks created are exactly as many as the
    schedule needs.  The schedule computed runs on them: no truck is
    given two slots whose intervals [[start_time, end_time)] overlap,
    and every trip of the type is on a created truck of the type.  And
    no assignment of trucks to the scheduled slots of that type, by
    which a truck never serves two overlapping slots, gets by with fewer
    trucks.  Every trip must take time: the end [start + duration] of
    trip [i], computed at its start [START_HOUR + i * TIME_LOADING],
    is later than that start, which a duration that is negative, zero,
    NaN or too small to move the float does not give; and there are
    fewer than 2^50 trips, so that the plant clock is exact. *)
Theorem fleet_is_minimum (trips : list Trip) (stf : FleetState)
  (slots : list Slot) :
  (Z.of_nat (length trips) < 2 ^ 50)%Z ->
  (forall i trip, nth_error trips i = Some trip -> takes_time i trip) ->
  assign_all fleet_init trips = Ok (stf, slots) ->
  forall c : string, minimum_fleet c slots (fleet stf).
Proof.
  intros B T E c. unfold minimum_fleet.
  apply assign_all_is_run in E.
  pose proof (takes_time_slots _ _ _ E T) as F.
  pose proof (fleet_inv_run 0 [] fleet_init trips slots stf fleet_inv_init E F B) as I.
  simpl in I.
  destruct I as [Ilen Iclock Istart Iids Ilast Iowner Ivalid Iclique].
  split; [|split].
  - intros i j a b Hij Ha Hb _ _ Eid. unfold assigned_truck in Eid.
    rewrite Ha, Hb in Eid.
    apply compatible_no_overlap.
    destruct (Nat.lt_ge_cases i j) as [L|G].
    + left. apply (Ivalid i j a b); auto.
    + right. apply (Ivalid j i b a); auto. lia.
  - intros i s Hn Ts. unfold assigned_truck. rewrite Hn.
    destruct (Iowner i s Hn) as (t & T1 & T2 & T3).
    rewrite <- T2. apply in_map. apply filter_In. split; auto.
    apply String.eqb_eq. congruence.
  - intros assign ids Ex Hids.
    destruct (Iclique c) as (idxs & (ND & C1 & C2) & L).
    rewrite <- L. rewrite <- (length_map assign idxs).
    apply NoDup_incl_length.
    + clear L. induction idxs as [|i idxs IHi]; simpl; [constructor|].
      inversion ND as [|? ? NI ND']; subst. constructor.
      * intros Hin. apply in_map_iff in Hin as (j & Ej & Hj).
        destruct (C1 i (or_introl eq_refl)) as (a & Ha & Ta).
        destruct (C1 j (or_intror Hj)) as (b & Hb & Tb).
        assert (Hij : i <> j) by (intros ->; contradiction).
        apply (Ex i j a b); auto.
        rewrite Forall_forall in F.
        apply incompatible_overlap.
        -- apply F. apply (nth_error_In _ _ Ha).
        -- apply F. apply (nth_error_In _ _ Hb).
        -- apply (C2 i j a b); simpl; auto.
      * apply IHi; auto.
        -- intros x Hx. apply C1. right. exact Hx.
        -- intros x y a b Hx Hy. apply C2; right; assumption.
    + intros z Hz. apply in_map_iff in Hz as (i & <- & Hi).
      destruct (C1 i Hi) as (s & Hs & Ts). eapply Hids; eauto.
Qed.

(* ------------------------------------------------------------------ *)
(** ** Termination of the direct-packing loop *)

Lemma lift_fueled {A : Type} (c : checked A) : lift c <> OutOfFuel.
Proof. destruct c; discriminate. Qed.

Lemma calculate_distance_fueled coord1 coord2 :
  calculate_distance coord1 coord2 <> OutOfFuel.
Proof.
  unfold calculate_distance.
  destruct (is_nan (latitude coord1) || is_nan (longitude coord1)
            || is_nan (latitude coord2) || is_nan (longitude coord2));
    [discriminate|].
  repeat match goal with
         | |- bind (lift ?c) _ <> _ => destruct c; simpl; [|discriminate]
         | |- bind (math_sqrt ?x) _ <> _ =>
             unfold math_sqrt at 1; destruct (x <? 0); simpl; [discriminate|]
         end.
  discriminate.
Qed.

Lemma direct_trip_fueled order ty cap : direct_trip order ty cap <> OutOfFuel.
Proof.
  unfold direct_trip.
  pose proof (calculate_distance_fueled PLANT_COORDS (coordinates order)) as H.
  destruct (calculate_distance PLANT_COORDS (coordinates order));
    simpl; congruence.
Qed.

(** Subtracting a truck capacity from a volume below 2^53 is exact. *)
Lemma sub_capacity_exact vol cap cz :
  ffinite vol = true -> ffinite cap = true ->
  fval cap = (cz * one)%Z -> (0 < cz)%Z ->
  (cz * one <= fval vol < 2 ^ 53 * one)%Z ->
  fval (vol - cap) = (fval vol - cz * one)%Z /\ ffinite (vol - cap) = true.
Proof.
  intros Fv Fc Vc Pc [L U].
  destruct (sub_exact vol cap Fv Fc) as [V F]; [|rewrite V, Vc; auto].
  rewrite Vc. pose proof one_pos as P1.
  unfold fval in *. pose proof (Prim2SF_valid vol) as Val.
  unfold ffinite in Fv.
  destruct (Prim2SF vol) as [s|s| |s m e]; try discriminate.
  - simpl in L. nia.
  - unfold valid_binary in Val. cbn [SFval] in *.
    pose proof (bounded_inv _ _ Val) as (He & _).
    pose proof (bounded_mantissa _ _ Val) as (Um & Lm).
    assert (Pe : (0 < 2 ^ (e + 1074))%Z) by (apply pow2_pos; lia).
    destruct s; unfold cond_Zopp in *; [nia|].
    assert (He0 : (e <= 0)%Z).
    { destruct (Z.le_gt_cases e 0) as [Le|Ge]; auto. exfalso.
      specialize (Lm ltac:(lia)).
      assert ((2 * one <= 2 ^ (e + 1074))%Z).
      { unfold one. change (2 * 2 ^ 1074)%Z with (2 ^ 1075)%Z.
        apply Z.pow_le_mono_r; lia. }
      assert ((2 ^ 53 = 2 * 2 ^ 52)%Z) by reflexivity.
      assert ((0 < 2 ^ 52)%Z) by reflexivity. nia. }
    assert (Eone : one = (2 ^ (- e) * 2 ^ (e + 1074))%Z).
    { unfold one. rewrite <- Z.pow_add_r by lia. f_equal. lia. }
    assert (Pn : (0 < 2 ^ (- e))%Z) by (apply pow2_pos; lia).
    set (K := (Zpos m - cz * 2 ^ (- e))%Z).
    assert (EK : (Zpos m * 2 ^ (e + 1074) - cz * one = K * 2 ^ (e + 1074))%Z).
    { subst K. rewrite Eone. ring. }
    assert (UK : (K < 2 ^ 53)%Z).
    { subst K. assert ((0 <= cz * 2 ^ (- e))%Z) by nia. lia. }
    rewrite EK.
    assert (K0 : (0 <= K)%Z).
    { apply (Z.mul_le_mono_pos_r 0 K (2 ^ (e + 1074))); [lia|].
      rewrite <- EK. lia. }
    destruct (Z.eq_dec K 0) as [->|NK].
    + left. reflexivity.
    + right. exists K, (e + 1074)%Z. split; [|split].
      * apply Z.abs_eq. nia.
      * lia.
      * lia.
Qed.

Lemma ffinite_capacities :
  ffinite BIG_TRUCK = true /\ ffinite MEDIUM_TRUCK = true.
Proof. split; reflexivity. Qed.

Lemma direct_loop_fuel n fuel order vol trips leftovers :
  ffinite vol = true ->
  (fval vol < 2 ^ 53 * one)%Z ->
  (fval vol <= 7 * one * Z.of_nat n)%Z ->
  (n + 2 <= fuel)%nat ->
  direct_loop fuel order vol trips leftovers <> OutOfFuel.
Proof.
  pose proof one_pos as P1.
  revert fuel vol trips leftovers.
  induction n as [|n IH]; intros fuel vol trips leftovers F U M L;
    (destruct fuel as [|fuel]; [lia|]); simpl.
  - destruct (0 <? vol) eqn:Pos; [|discriminate].
    exfalso. float_facts. rewrite fval_zero in *. lia.
  - destruct (0 <? vol) eqn:Pos; [|discriminate].
    destruct (BIG_TRUCK <=? vol) eqn:Big.
    + pose proof (direct_trip_fueled order "Big_Truck" BIG_TRUCK) as Hd.
      destruct (direct_trip order "Big_Truck" BIG_TRUCK) as [t|e|];
        simpl; [|discriminate|congruence].
      apply leb_iff in Big as (_ & _ & Big). rewrite fval_BIG_TRUCK in Big.
      destruct (sub_capacity_exact vol BIG_TRUCK 12) as [V Fv]; auto;
        try reflexivity; try lia.
      apply IH; auto; lia.
    + destruct (MEDIUM_TRUCK <=? vol) eqn:Med.
      * pose proof (direct_trip_fueled order "Medium_Truck" MEDIUM_TRUCK) as Hd.
        destruct (direct_trip order "Medium_Truck" MEDIUM_TRUCK) as [t|e|];
          simpl; [|discriminate|congruence].
        apply leb_iff in Med as (_ & _ & Med). rewrite fval_MEDIUM_TRUCK in Med.
        destruct (sub_capacity_exact vol MEDIUM_TRUCK 7) as [V Fv]; auto;
          try reflexivity; try lia.
        apply IH; auto; lia.
      * destruct fuel as [|fuel]; [lia|]. simpl.
        change (0 <? 0) with false. discriminate.
Qed.

Lemma ceil_bound M :
  (M <= 7 * one * Z.of_nat (Z.to_nat ((M + 7 * one - 1) / (7 * one))))%Z.
Proof.
  pose proof one_pos as P1. set (d := (7 * one)%Z). assert (Pd : (0 < d)%Z) by lia.
  destruct (Z.le_gt_cases M 0) as [Le|Gt].
  - assert ((0 <= Z.of_nat (Z.to_nat ((M + d - 1) / d)))%Z) by lia. nia.
  - rewrite Z2Nat.id by (apply Z.div_pos; lia).
    pose proof (Z.div_mod (M + d - 1) d ltac:(lia)) as E.
    pose proof (Z.mod_pos_bound (M + d - 1) d Pd) as R. lia.
Qed.

(** C10, for volumes below 2^53: for every order whose volume is a finite
    float below 2^53 the direct-packing loop terminates: subtracting a truck
    capacity is then exact, each iteration takes at least 7.0 off the
    remaining volume or sets it to 0, and the loop runs at most
    [ceil (volume / 7.0) + 1] iterations (one unit of fuel more pays for
    the last evaluation of the loop test). *)
Theorem direct_loop_terminates (fuel : nat) (order : Orders) (vol : float)
  (trips : list Trip) (leftovers : list LeftoverItem) :
  is_finite vol = true ->
  (vol <? 0x1p53) = true ->
  (iterations_bound vol + 1 <= fuel)%nat ->
  direct_loop fuel order vol trips leftovers <> OutOfFuel.
Proof.
  intros F U L. rewrite is_finite_spec in F.
  apply ltb_iff in U as (_ & _ & U).
  change (fval 0x1p53) with (2 ^ 53 * one)%Z in U.
  unfold iterations_bound in L.
  apply (direct_loop_fuel (Z.to_nat ((fval vol + 7 * one - 1) / (7 * one))));
    auto; [apply ceil_bound | lia].
Qed.

(** A volume of 1e18 never shrinks: [1e18 - 12.0] rounds back to 1e18.
    With coordinates on the fallback path of [calculate_distance] (so
    that no trip computation raises) the loop runs for ever. *)
Lemma direct_loop_stalls (order : Orders) (fuel : nat)
  (trips : list Trip) (leftovers : list LeftoverItem) :
  is_nan (latitude (coordinates order)) = true ->
  direct_loop fuel order 1e18 trips leftovers = OutOfFuel.
Proof.
  intros N. revert trips. induction fuel as [|fuel IH]; intros trips; simpl.
  - reflexivity.
  - change (0 <? 1e18) with true. change (BIG_TRUCK <=? 1e18) with true.
    cbv iota. unfold direct_trip, calculate_distance.
    cbn [latitude longitude PLANT_COORDS].
    change (is_nan 47.624) with false. change (is_nan 19.0655) with false.
    rewrite N. simpl.
    replace (1e18 - BIG_TRUCK) with 1e18 by reflexivity.
    apply IH.
Qed.

(* ------------------------------------------------------------------ *)
(** ** Volume conservation *)

Lemma total_volume_app l1 l2 :
  total_volume (l1 ++ l2) = (total_volume l1 + total_volume l2)%Z.
Proof. induction l1 as [|t l1 IH]; simpl; [reflexivity|]. rewrite IH. ring. Qed.

Lemma direct_loop_exact fuel order vol trips leftovers trips' leftovers' :
  ffinite vol = true ->
  (0 <= fval vol < 2 ^ 53 * one)%Z ->
  direct_loop fuel order vol trips leftovers = Ok (trips', leftovers') ->
  exists new_trips new_leftovers,
    trips' = trips ++ new_trips /\ leftovers' = leftovers ++ new_leftovers /\
    Forall (direct_of order) new_trips /\
    Forall (fragment_of order) new_leftovers /\
    (length new_leftovers <= 1)%nat /\
    (total_volume new_trips + total_fragments new_leftovers = fval vol)%Z.
Proof.
  pose proof one_pos as P1.
  revert vol trips leftovers.
  induction fuel as [|fuel IH]; intros vol trips leftovers F B H; simpl in H;
    [discriminate|].
  destruct (0 <? vol) eqn:Pos.
  - destruct (BIG_TRUCK <=? vol) eqn:Big.
    + bind_inv H. apply direct_trip_inv in E as (T1 & T2 & T3 & T4).
      apply leb_iff in Big as (_ & _ & Big). rewrite fval_BIG_TRUCK in Big.
      destruct (sub_capacity_exact vol BIG_TRUCK 12) as [V Fv]; auto;
        try reflexivity; try lia.
      destruct (IH _ _ _ Fv ltac:(lia) H) as (nt & nl & E1 & E2 & F1 & F2 & L & S).
      exists (a :: nt), nl. rewrite E1, <- app_assoc. simpl.
      split; [reflexivity|]. split; [exact E2|]. split.
      { constructor; auto. repeat split; auto. }
      split; [exact F2|]. split; [exact L|].
      rewrite T3, fval_BIG_TRUCK. lia.
    + destruct (MEDIUM_TRUCK <=? vol) eqn:Med.
      * bind_inv H. apply direct_trip_inv in E as (T1 & T2 & T3 & T4).
        apply leb_iff in Med as (_ & _ & Med). rewrite fval_MEDIUM_TRUCK in Med.
        destruct (sub_capacity_exact vol MEDIUM_TRUCK 7) as [V Fv]; auto;
          try reflexivity; try lia.
        destruct (IH _ _ _ Fv ltac:(lia) H) as (nt & nl & E1 & E2 & F1 & F2 & L & S).
        exists (a :: nt), nl. rewrite E1, <- app_assoc. simpl.
        split; [reflexivity|]. split; [exact E2|]. split.
        { constructor; auto. repeat split; auto. }
        split; [exact F2|]. split; [exact L|].
        rewrite T3, fval_MEDIUM_TRUCK. lia.
      * destruct fuel as [|fuel']; simpl in H; [discriminate|].
        change (0 <? 0) with false in H. inversion H; subst.
        exists [], [leftover_item order vol]. rewrite app_nil_r.
        split; [reflexivity|]. split; [reflexivity|]. split; [constructor|].
        split.
        { constructor; [|constructor].
          unfold fragment_of, fragment_volume. simpl. repeat split; auto.
          apply ltb_iff. apply ltb_iff in Pos. destruct Pos as (Q1 & Q2 & Q3).
          apply leb_false_iff in Med. destruct Med as [M|[M|M]];
            [discriminate|congruence|]. auto. }
        split; [simpl; lia|]. simpl. lia.
  - inversion H; subst. exists [], []. rewrite !app_nil_r.
    split; [reflexivity|]. split; [reflexivity|]. split; [constructor|].
    split; [constructor|]. split; [simpl; lia|]. simpl.
    apply ltb_false_iff in Pos.
    apply ffinite_iff in F as [N _]. rewrite fval_zero in Pos.
    destruct Pos as [Q|[Q|Q]]; [discriminate|congruence|lia].
Qed.

Lemma valid_volume_val order :
  valid_volume order ->
  ffinite (order_volume order) = true /\
  (0 < fval (order_volume order) < 2 ^ 53 * one)%Z.
Proof.
  intros (F & P & U). rewrite is_finite_spec in F. split; [exact F|].
  apply ltb_iff in P as (_ & _ & P). apply ltb_iff in U as (_ & _ & U).
  rewrite fval_zero in P. change (fval 0x1p53) with (2 ^ 53 * one)%Z in U. lia.
Qed.

Lemma direct_fold_exact fuel orders trips leftovers st :
  Forall valid_volume orders ->
  foldM (direct_step fuel) (trips, leftovers) orders = Ok st ->
  exists parts,
    fst st = trips ++ concat (map fst parts) /\
    snd st = leftovers ++ concat (map snd parts) /\
    Forall2 order_part orders parts.
Proof.
  revert trips leftovers.
  induction orders as [|o orders IH]; intros trips leftovers V H; cbn [foldM] in H.
  - inversion H; subst. exists []. simpl. rewrite !app_nil_r.
    split; [reflexivity|]. split; [reflexivity|constructor].
  - inversion V as [|? ? Vo V']; subst.
    bind_inv H. destruct a as [trips1 leftovers1].
    unfold direct_step in E. simpl in E.
    apply valid_volume_val in Vo as [Fo Bo].
    apply direct_loop_exact in E as (nt & nl & E1 & E2 & F1 & F2 & L & S);
      auto; [|lia].
    destruct (IH _ _ V' H) as (parts & E3 & E4 & F3).
    exists ((nt, nl) :: parts). subst trips1 leftovers1.
    rewrite E3, E4. simpl. rewrite <- !app_assoc.
    split; [reflexivity|]. split; [reflexivity|].
    constructor; auto. repeat split; auto.
Qed.

Lemma map_nth_error_seq {A : Type} (l : list A) :
  map (nth_error l) (seq 0 (length l)) = map Some l.
Proof.
  induction l as [|x l IH]; simpl; [reflexivity|].
  f_equal. rewrite <- seq_shift, map_map, <- IH. apply map_ext. reflexivity.
Qed.

Lemma indexed_items_perm {A : Type} (l : list A) idxs items :
  Forall2 (fun i a => nth_error l i = Some a) idxs items ->
  Permutation idxs (seq 0 (length l)) ->
  Permutation items l.
Proof.
  intros F P.
  assert (E : map Some items = map (nth_error l) idxs).
  { clear P. induction F as [|i a idxs' items' Hi F' IH]; simpl; [reflexivity|].
    rewrite Hi, IH. reflexivity. }
  apply (Permutation_map (nth_error l)) in P.
  rewrite map_nth_error_seq, <- E in P.
  apply Permutation_map_inv in P as (l3 & E3 & P3).
  assert (items = l3).
  { clear - E3. revert l3 E3. induction items as [|a items IH]; intros [|b l3] E3;
      simpl in E3; try discriminate; auto.
    injection E3 as Ea Er. subst b. f_equal. apply IH. exact Er. }
  subst l3. symmetry. exact P3.
Qed.

Lemma emitted_carries leftovers t g :
  emitted leftovers t g ->
  exists items,
    Forall2 (fun i a => nth_error leftovers i = Some a) g items /\
    carries t items.
Proof.
  intros H.
  inversion H as [i a t' Hn Hl | i j a b s st1 st2 Ha Hb Hij Hadm Hst]; subst.
  - exists [a]. split; [repeat constructor; auto|].
    apply leftover_trip_inv in Hl as (T1 & T2 & T3 & T4 & T5).
    simpl. auto.
  - exists [a; b]. split; [repeat constructor; auto|].
    destruct (admissible_pair_age _ _ _ _ Hadm) as (s1 & s2 & age & B1 & B2 & _).
    rewrite Hst in B1. injection B1 as <- <-.
    simpl. split; [reflexivity|]. split; [reflexivity|].
    destruct B2 as [B2|B2]; injection B2 as -> ->; auto.
Qed.

Lemma Forall2_concat {A B : Type} (R : A -> B -> Prop) ls ls' :
  Forall2 (Forall2 R) ls ls' -> Forall2 R (concat ls) (concat ls').
Proof.
  induction 1 as [|l l' ls ls' H F IH]; simpl; [constructor|].
  apply Forall2_app; auto.
Qed.

Lemma emitted_groups_carry leftovers new groups :
  Forall2 (emitted leftovers) new groups ->
  Permutation (concat groups) (seq 0 (length leftovers)) ->
  exists item_groups,
    Forall2 carries new item_groups /\
    Permutation (concat item_groups) leftovers.
Proof.
  intros F P.
  assert (X : exists item_groups,
             Forall2 carries new item_groups /\
             Forall2 (Forall2 (fun i a => nth_error leftovers i = Some a))
                     groups item_groups).
  { clear P. induction F as [|t g new groups He F IH].
    - exists []. split; constructor.
    - destruct IH as (igs & C & N).
      destruct (emitted_carries _ _ _ He) as (items & Hi & Hc).
      exists (items :: igs). split; constructor; auto. }
  destruct X as (igs & C & N). exists igs. split; [exact C|].
  apply Forall2_concat in N.
  eapply indexed_items_perm; eauto.
Qed.

Lemma prioritize_permutation pool g :
  (forall g0 l, Permutation (fst (random_shuffle g0 l)) l) ->
  Forall (fun o => is_nan (order_volume o) = false) pool ->
  Permutation (fst (prioritize_pool_orders pool g)) pool.
Proof.
  intros Hsh N.
  assert (P : Permutation
                (filter (fun o => MEDIUM_TRUCK <=? order_volume o) pool
                 ++ filter (fun o => order_volume o <? MEDIUM_TRUCK) pool) pool).
  { clear - N. induction N as [|o pool No N IH]; simpl; [constructor|].
    destruct (MEDIUM_TRUCK <=? order_volume o) eqn:L.
    - replace (order_volume o <? MEDIUM_TRUCK) with false.
      + simpl. constructor. exact IH.
      + symmetry. apply ltb_false_iff. float_facts. auto.
    - replace (order_volume o <? MEDIUM_TRUCK) with true.
      + rewrite <- Permutation_middle. constructor. exact IH.
      + symmetry. apply ltb_iff. apply leb_false_iff in L.
        destruct L as [L|[L|L]]; [discriminate|congruence|auto]. }
  unfold prioritize_pool_orders.
  destruct (random_random g) as [u g1].
  destruct (u <? 0.45).
  - simpl. rewrite sort_desc_perm. exact P.
  - rewrite Hsh. exact P.
Qed.

(** C2, with a Shared trip counted for both of its customers: volume is
    conserved order by order.  For every
    order of the pool (volume positive, finite and below 2^53) the
    volumes of its Direct trips and of its leftover fragment, of which
    there is at most one, add up exactly to its [order_volume]; every
    leftover fragment is then carried by exactly one trip, alone in a
    Leftover trip of the fragment's volume or with one other fragment in
    a Shared trip, whose [volume] field is the float sum of the two
    fragments: a Shared trip lists both customers and counts the volume
    of both. *)
Theorem volume_conservation (fuel : nat) (pool : list Orders) (g : rng)
  (trips : list Trip) (g' : rng) :
  (forall g0 l, Permutation (fst (random_shuffle g0 l)) l) ->
  Forall valid_volume pool ->
  generate_trips_for_pool fuel pool g = Ok (trips, g') ->
  conserved pool trips.
Proof.
  intros Hsh V H. unfold conserved. unfold generate_trips_for_pool in H.
  assert (P : Permutation (fst (prioritize_pool_orders pool g)) pool).
  { apply prioritize_permutation; auto.
    eapply Forall_impl; [|exact V]. intros o (F & _).
    rewrite is_finite_spec in F. apply ffinite_iff in F. tauto. }
  destruct (prioritize_pool_orders pool g) as [sorted_pool g1]. simpl in P.
  bind_inv H. rename a into st. bind_inv H. inversion H; subst a g1; clear H.
  apply direct_fold_exact in E as (parts & E1 & E2 & F2).
  2:{ eapply Permutation_Forall; [symmetry; exact P|exact V]. }
  simpl in E1, E2. rewrite E1, E2 in E0.
  apply pair_leftovers_groups in E0 as (new & groups & T & F & Pg).
  destruct (emitted_groups_carry _ _ _ F Pg) as (igs & C & Pi).
  exists sorted_pool, parts, new, igs.
  split; [exact P|]. split; [exact F2|]. split; [exact T|]. split; [exact C|].
  rewrite Pi. apply sort_desc_perm.
Qed.

(* ------------------------------------------------------------------ *)
(** ** Orders the prioritisation keeps *)

Lemma add_nan_l x y : is_nan x = true -> is_nan (x + y) = true.
Proof.
  rewrite !is_nan_spec, add_spec. unfold SF64add, SFadd.
  destruct (Prim2SF x); try discriminate. reflexivity.
Qed.

Lemma add_nan_r x y : is_nan y = true -> is_nan (x + y) = true.
Proof.
  rewrite !is_nan_spec, add_spec. unfold SF64add, SFadd.
  destruct (Prim2SF x) as [[]|[]| |], (Prim2SF y) as [[]|[]| |];
    try discriminate; reflexivity.
Qed.

Lemma split_by_volume pool :
  Permutation
    (filter (fun o => MEDIUM_TRUCK <=? order_volume o) pool
     ++ filter (fun o => order_volume o <? MEDIUM_TRUCK) pool)
    (filter (fun o => negb (is_nan (order_volume o))) pool).
Proof.
  induction pool as [|o pool IH]; simpl; [constructor|].
  destruct (is_nan (order_volume o)) eqn:N; simpl.
  - replace (MEDIUM_TRUCK <=? order_volume o) with false.
    + replace (order_volume o <? MEDIUM_TRUCK) with false; [exact IH|].
      symmetry. apply ltb_false_iff. auto.
    + symmetry. apply leb_false_iff. auto.
  - destruct (MEDIUM_TRUCK <=? order_volume o) eqn:L.
    + replace (order_volume o <? MEDIUM_TRUCK) with false.
      * simpl. constructor. exact IH.
      * symmetry. apply ltb_false_iff. float_facts. auto.
    + replace (order_volume o <? MEDIUM_TRUCK) with true.
      * rewrite <- Permutation_middle. constructor. exact IH.
      * symmetry. apply ltb_iff. apply leb_false_iff in L.
        destruct L as [L|[L|L]]; [discriminate|congruence|auto].
Qed.

(** X1: in both modes [prioritize_pool_orders] returns a rearrangement
    of the orders of the pool whose volume is a number, each as often as
    it stands in the pool; an order whose volume is NaN is in neither of
    the two lists the function builds and is dropped.  ([random.shuffle]
    rearranges its list.) *)
Theorem prioritize_keeps_numbers (pool : list Orders) (g : rng) :
  (forall g0 l, Permutation (fst (random_shuffle g0 l)) l) ->
  Permutation (fst (prioritize_pool_orders pool g))
              (filter (fun o => negb (is_nan (order_volume o))) pool).
Proof.
  intros Hsh. unfold prioritize_pool_orders.
  destruct (random_random g) as [u g1].
  destruct (u <? 0.45).
  - simpl. rewrite sort_desc_perm. apply split_by_volume.
  - rewrite Hsh. apply split_by_volume.
Qed.

(* ------------------------------------------------------------------ *)
(** ** Travel times are numbers *)

(** X2: [get_travel_time] never returns NaN: a NaN distance is replaced
    by 1.0, and every other distance, the infinite ones included, gives
    a number or an infinity; a distance that is not below zero gives a
    travel time that is not below zero. *)
Theorem get_travel_time_number (dist_km : float) :
  is_nan (get_travel_time dist_km) = false /\
  ((dist_km <? 0) = false -> (get_travel_time dist_km <? 0) = false).
Proof.
  split.
  - unfold get_travel_time. destruct (is_nan dist_km) eqn:N; [reflexivity|].
    rewrite is_nan_spec in *. rewrite mul_spec, div_spec.
    change (Prim2SF 0x1.199999999999ap+0)
      with (S754_finite false 4953959590107546 (-52)).
    change (Prim2SF SPEED_KMH) with (S754_finite false 8444249301319680 (-47)).
    apply SFmul_not_nan_r. apply SFdiv_not_nan_r. exact N.
  - intros B. pose proof (get_travel_time_nonneg dist_km B) as H.
    unfold nonneg in H. apply andb_prop in H as [_ H].
    apply negb_true_iff in H. exact H.
Qed.

(* ------------------------------------------------------------------ *)
(** ** Statistics *)

Lemma add_not_below x y :
  (x <? 0) = false -> (y <? 0) = false -> (x + y <? 0) = false.
Proof.
  intros Bx By.
  destruct (is_nan x) eqn:Nx.
  { apply ltb_false_iff. left. apply add_nan_l. exact Nx. }
  destruct (is_nan y) eqn:Ny.
  { apply ltb_false_iff. left. apply add_nan_r. exact Ny. }
  assert (H : nonneg (x + y) = true).
  { apply add_nonneg; unfold nonneg.
    - rewrite Nx, Bx. reflexivity.
    - rewrite Ny, By. reflexivity. }
  unfold nonneg in H. apply andb_prop in H as [_ H].
  apply negb_true_iff in H. exact H.
Qed.

Lemma truck_caps_not_below t_type : (truck_caps t_type <? 0) = false.
Proof.
  unfold truck_caps.
  destruct (String.eqb t_type "Big_Truck"); [reflexivity|].
  destruct (String.eqb t_type "Medium_Truck"); [reflexivity|].
  destruct (String.eqb t_type "Small_Truck"); reflexivity.
Qed.

Lemma statistics_fold_not_below routes acc :
  (total_wasted_space acc <? 0) = false ->
  (total_capacity_used acc <? 0) = false ->
  (total_wasted_space (fold_left statistics_step routes acc) <? 0) = false /\
  (total_capacity_used (fold_left statistics_step routes acc) <? 0) = false.
Proof.
  revert acc. induction routes as [|[trip sched] routes IH]; intros acc W C.
  - simpl. auto.
  - simpl. apply IH; simpl.
    + apply add_not_below; [exact W|].
      destruct (truck_caps (truck_type trip) - volume trip <? 0) eqn:E;
        [reflexivity|exact E].
    + apply add_not_below; [exact C|apply truck_caps_not_below].
Qed.

(** X3: the wasted space [calculate_statistics] returns is never below
    zero, whatever the routes: a trip loaded beyond the capacity of its
    truck, or on a truck of an unknown type (capacity 0.0), counts as
    zero waste and not as a negative one; the capacity used is never
    below zero either. *)
Theorem wasted_space_not_negative (generated_routes : list Route) :
  (total_wasted_space (totals (calculate_statistics generated_routes)) <? 0)
  = false /\
  (total_capacity_used (totals (calculate_statistics generated_routes)) <? 0)
  = false.
Proof.
  unfold calculate_statistics. cbn [totals].
  apply statistics_fold_not_below; reflexivity.
Qed.

(** *** The sets of truck ids *)

Lemma existsb_Zeqb x l : existsb (Z.eqb x) l = true <-> In x l.
Proof.
  rewrite existsb_exists. split.
  - intros (y & Hy & E). apply Z.eqb_eq in E. subst. exact Hy.
  - intros H. exists x. split; [exact H|apply Z.eqb_refl].
Qed.

Lemma set_add_id_spec x s :
  NoDup s ->
  NoDup (set_add_id x s) /\ forall y, In y (set_add_id x s) <-> y = x \/ In y s.
Proof.
  intros N. unfold set_add_id. destruct (existsb (Z.eqb x) s) eqn:E.
  - apply existsb_Zeqb in E. split; [exact N|].
    intros y. split; [auto|]. intros [->|H]; auto.
  - assert (NI : ~ In x s).
    { intros H. apply existsb_Zeqb in H. congruence. }
    split.
    + apply NoDup_app; [exact N|repeat constructor; intros []|].
      intros y Hy [->|[]]. contradiction.
    + intros y. rewrite in_app_iff. simpl. split.
      * intros [H|[H|[]]]; auto.
      * intros [->|H]; auto.
Qed.

Lemma lookup_fleet_add c t_type t_id sets :
  lookup c (fleet_add t_type t_id sets)
  = if String.eqb c t_type
    then option_map (set_add_id t_id) (lookup c sets)
    else lookup c sets.
Proof.
  induction sets as [|[k v] sets IH]; simpl.
  - destruct (String.eqb c t_type); reflexivity.
  - destruct (String.eqb k t_type) eqn:Ek; simpl;
      destruct (String.eqb k c) eqn:Ec.
    + apply String.eqb_eq in Ek, Ec. subst.
      rewrite String.eqb_refl. reflexivity.
    + exact IH.
    + apply String.eqb_eq in Ec. subst k.
      rewrite Ek. reflexivity.
    + exact IH.
Qed.

(** The set kept for the type [c] holds the truck ids of the routes of
    that type, each once. *)
Lemma unique_fleet_fold c routes acc s :
  lookup c (unique_fleet acc) = Some s -> NoDup s ->
  exists s',
    lookup c (unique_fleet (fold_left statistics_step routes acc)) = Some s' /\
    NoDup s' /\
    forall id, In id s' <->
               In id s \/
               exists trip sched, In (trip, Some sched) routes /\
                                  truck_type trip = c /\ truck_id sched = id.
Proof.
  revert acc s. induction routes as [|[trip sched] routes IH]; intros acc s L N.
  - simpl. exists s. split; [exact L|]. split; [exact N|].
    intros id. split; [auto|]. intros [H|(t & sc & [] & _)]. exact H.
  - cbn [fold_left].
    destruct sched as [sc|].
    + destruct (String.eqb c (truck_type trip)) eqn:E.
      * destruct (set_add_id_spec (truck_id sc) s N) as [N' M'].
        destruct (IH (statistics_step acc (trip, Some sc)) (set_add_id (truck_id sc) s))
          as (s' & L' & N'' & M''); auto.
        { simpl. rewrite lookup_fleet_add, E, L. reflexivity. }
        exists s'. split; [exact L'|]. split; [exact N''|].
        intros id. rewrite M'', M'. apply String.eqb_eq in E. split.
        -- intros [[->|H]|(t & sc' & I & T & Ei)]; auto.
           ++ right. exists trip, sc. split; [left; reflexivity|auto].
           ++ right. exists t, sc'. split; [right; exact I|auto].
        -- intros [H|(t & sc' & [I|I] & T & Ei)]; auto.
           ++ inversion I; subst. auto.
           ++ right. exists t, sc'. auto.
      * destruct (IH (statistics_step acc (trip, Some sc)) s)
          as (s' & L' & N'' & M''); auto.
        { simpl. rewrite lookup_fleet_add, E. exact L. }
        exists s'. split; [exact L'|]. split; [exact N''|].
        intros id. rewrite M''. split.
        -- intros [H|(t & sc' & I & T & Ei)]; auto.
           right. exists t, sc'. split; [right; exact I|auto].
        -- intros [H|(t & sc' & [I|I] & T & Ei)]; auto.
           ++ inversion I; subst. rewrite String.eqb_refl in E. discriminate.
           ++ right. exists t, sc'. auto.
    + destruct (IH (statistics_step acc (trip, None)) s)
        as (s' & L' & N'' & M''); auto.
      exists s'. split; [exact L'|]. split; [exact N''|].
      intros id. rewrite M''. split.
      * intros [H|(t & sc' & I & T & Ei)]; auto.
        right. exists t, sc'. split; [right; exact I|auto].
      * intros [H|(t & sc' & [I|I] & T & Ei)]; auto.
        -- discriminate.
        -- right. exists t, sc'. auto.
Qed.

Lemma lookup_sizes {A B : Type} (f : A -> B) c (d : list (string * A)) :
  lookup c (map (fun p => (fst p, f (snd p))) d) = option_map f (lookup c d).
Proof.
  induction d as [|[k v] d IH]; simpl; [reflexivity|].
  destruct (String.eqb k c); [reflexivity|exact IH].
Qed.

(** *** The trucks of a run and the trucks of its slots *)

Lemma set_available_at_keys fleet0 idx end_time :
  truck_keys (set_available_at fleet0 idx end_time) = truck_keys fleet0.
Proof.
  revert idx. induction fleet0 as [|truck rest IH]; intros idx; simpl.
  - reflexivity.
  - destruct idx as [|idx]; simpl; [reflexivity|]. rewrite IH. reflexivity.
Qed.

Lemma truck_free_type needed_type start_time truck :
  truck_free needed_type start_time truck = true -> ft_type truck = needed_type.
Proof.
  unfold truck_free. intros H. apply andb_prop in H as [H _].
  apply String.eqb_eq. exact H.
Qed.

(** The trucks of the fleet are the trucks the slots name. *)
Lemma fleet_run_keys st trips slots stf :
  fleet_run st trips slots stf ->
  forall H,
    (forall p, In p (truck_keys (fleet st)) <-> In p (slot_keys H)) ->
    (forall p, In p (truck_keys (fleet stf)) <-> In p (slot_keys (H ++ slots))) /\
    Forall2 (fun trip s => slot_type s = truck_type trip) trips slots.
Proof.
  induction 1 as [st|st trip st' slot trips slots stf S R IH]; intros H I.
  - rewrite app_nil_r. split; [exact I|constructor].
  - destruct S as (S1 & _ & _ & _ & S5).
    destruct (IH (H ++ [slot])) as [I' F'].
    { intros p. unfold slot_keys. rewrite map_app, in_app_iff. simpl.
      fold (slot_keys H).
      destruct S5 as [(idx & truck & N & T & _ & Ei & Ef & _)|(_ & Ei & Ef & _)].
      - rewrite Ef, set_available_at_keys, I.
        apply truck_free_type in T.
        assert (Hin : In (slot_truck_id slot, slot_type slot) (slot_keys H)).
        { apply I. rewrite Ei, S1, <- T. unfold truck_keys.
          apply (in_map (fun t => (ft_id t, ft_type t))).
          eapply nth_error_In; eauto. }
        split; [auto|]. intros [X|[X|[]]]; [auto|]. subst p. exact Hin.
      - rewrite Ef. unfold truck_keys. rewrite map_app, in_app_iff. simpl.
        fold (truck_keys (fleet st)). rewrite I, Ei, S1. tauto. }
    split.
    + intros p. rewrite I'. rewrite <- app_assoc. reflexivity.
    + constructor; auto.
Qed.

Lemma NoDup_same_length (l1 l2 : list Z) :
  NoDup l1 -> NoDup l2 -> (forall x, In x l1 <-> In x l2) -> length l1 = length l2.
Proof.
  intros N1 N2 E. apply Permutation_length. apply NoDup_Permutation; auto.
Qed.

Lemma trucks_of_ids c fleet0 id :
  In id (map ft_id (trucks_of c fleet0)) <-> In (id, c) (truck_keys fleet0).
Proof.
  unfold trucks_of, truck_keys. rewrite !in_map_iff. split.
  - intros (t & E & Ht). apply filter_In in Ht as [Ht Ty].
    apply String.eqb_eq in Ty. exists t. subst. auto.
  - intros (t & E & Ht). inversion E; subst. exists t. split; [reflexivity|].
    apply filter_In. split; [exact Ht|apply String.eqb_refl].
Qed.

(** *** The schedule of distinct dictionaries *)

Lemma write_schedule_fresh id entry acc :
  ~ In id (map fst acc) -> write_schedule id entry acc = acc.
Proof.
  intros NI. unfold write_schedule. rewrite <- (map_id acc) at 2.
  apply map_ext_in. intros [i e] Hi. simpl.
  destruct (Nat.eqb i id) eqn:E; [|reflexivity].
  apply Nat.eqb_eq in E. subst i. exfalso. apply NI.
  apply (in_map fst) in Hi. exact Hi.
Qed.

Lemma written_distinct acc0 L :
  NoDup (map fst (acc0 ++ L)) -> written acc0 L = acc0 ++ L.
Proof.
  revert acc0. induction L as [|[id e] L IH]; intros acc0 N.
  - simpl. rewrite app_nil_r. reflexivity.
  - unfold written in *. cbn [fold_left fst snd].
    assert (NI : ~ In id (map fst acc0)).
    { rewrite map_app in N. simpl in N. apply NoDup_remove_2 in N.
      intros X. apply N. apply in_or_app. auto. }
    rewrite write_schedule_fresh by exact NI.
    rewrite IH; rewrite <- app_assoc; [reflexivity|exact N].
Qed.

Lemma map_fst_combine {A B : Type} (l1 : list A) (l2 : list B) :
  length l1 = length l2 -> map fst (combine l1 l2) = l1.
Proof.
  revert l2. induction l1 as [|x l1 IH]; intros [|y l2] L; simpl in *;
    try discriminate; auto.
  f_equal. apply IH. lia.
Qed.

Lemma map_snd_combine {A B : Type} (l1 : list A) (l2 : list B) :
  length l1 = length l2 -> map snd (combine l1 l2) = l2.
Proof.
  revert l2. induction l1 as [|x l1 IH]; intros [|y l2] L; simpl in *;
    try discriminate; auto.
  f_equal. apply IH. lia.
Qed.

(** With distinct dictionaries the schedule returned is, entry by entry,
    the trips with their own slots rendered. *)
Lemma schedule_fleet_distinct refs out stf slots :
  NoDup (map fst refs) ->
  schedule_fleet refs = Ok out ->
  assign_all fleet_init (map snd refs) = Ok (stf, slots) ->
  map fst out = map fst refs /\
  Forall2 (fun e ts => render_schedule (snd (fst ts)) (snd ts) = Ok e)
          (map snd out) (combine refs slots).
Proof.
  intros N H A. unfold schedule_fleet in H. bind_inv H. inversion H; subst out.
  destruct (schedule_fold_entries _ _ _ _ _ _ A E) as (_ & entries & S1 & S2).
  pose proof (assign_all_is_run _ _ _ _ A) as R.
  apply fleet_run_length in R. rewrite length_map in R.
  assert (Le : length entries = length refs).
  { rewrite (Forall2_length S2), length_combine, R. apply Nat.min_id. }
  assert (Li : length (map fst refs) = length entries)
    by (rewrite length_map; auto).
  rewrite S1, written_distinct.
  - simpl. rewrite map_fst_combine, map_snd_combine by exact Li. auto.
  - simpl. rewrite map_fst_combine by exact Li. exact N.
Qed.

Lemma render_schedule_inv trip s e :
  render_schedule trip s = Ok e ->
  st_trip e = trip /\ truck_id (st_schedule e) = slot_truck_id s.
Proof.
  unfold render_schedule. intros H. bind_inv H. bind_inv H.
  inversion H; subst e. simpl. auto.
Qed.

(** X4: run on the schedule [schedule_fleet] returns for trips that are
    distinct dictionaries, [calculate_statistics] reports, for each of
    the three truck types, as many physical trucks as the scheduler
    created of that type: every truck created serves a trip, and every
    trip shows the id of a truck of its type. *)
Theorem statistics_fleet_size (refs : list (nat * Trip))
  (out : list (nat * ScheduledTrip)) (stf : FleetState) (slots : list Slot)
  (c : string) :
  NoDup (map fst refs) ->
  schedule_fleet refs = Ok out ->
  assign_all fleet_init (map snd refs) = Ok (stf, slots) ->
  In c truck_names ->
  lookup c (fleet_sizes (calculate_statistics (routes_of out)))
  = Some (length (trucks_of c (fleet stf))).
Proof.
  intros N H A Hc.
  destruct (schedule_fleet_distinct _ _ _ _ N H A) as [_ F].
  pose proof (assign_all_is_run _ _ _ _ A) as R.
  destruct (fleet_run_keys _ _ _ _ R []) as [K T].
  { intros p. simpl. tauto. }
  simpl in K.
  pose proof (fleet_run_ids _ _ _ _ R fleet_init_ids) as Ids.
  apply sequential_ids_NoDup in Ids.
  unfold calculate_statistics. cbn [fleet_sizes].
  assert (L0 : lookup c (unique_fleet totals_init) = Some []).
  { destruct Hc as [<-|[<-|[<-|[]]]]; reflexivity. }
  destruct (unique_fleet_fold c (routes_of out) totals_init [] L0 (NoDup_nil _))
    as (s' & L' & N' & M').
  rewrite lookup_sizes, L'. simpl. f_equal.
  rewrite <- (length_map ft_id (trucks_of c (fleet stf))).
  apply NoDup_same_length; auto.
  { unfold trucks_of. apply NoDup_map_filter. exact Ids. }
  intros id. rewrite M', trucks_of_ids, K. split.
  - intros [[]|(trip & sched & I & Ty & Ei0)].
    unfold routes_of in I. apply in_map_iff in I as ([k e] & Ee & Ie).
    simpl in Ee. inversion Ee; subst trip sched. clear Ee.
    apply (in_map snd) in Ie. simpl in Ie.
    destruct (In_nth_error _ _ Ie) as (n & Hn).
    assert (exists ts, nth_error (combine refs slots) n = Some ts) as [[[k' trip] s] Hts].
    { destruct (nth_error (combine refs slots) n) eqn:X; [eauto|].
      apply nth_error_None in X. rewrite <- (Forall2_length F) in X.
      apply nth_error_None in X. congruence. }
    assert (Hr : render_schedule trip s = Ok e).
    { clear - F Hn Hts. revert n Hn Hts.
      induction F as [|x y l1 l2 Hxy F IH]; intros n Hn Hts.
      - destruct n; discriminate.
      - destruct n as [|n]; simpl in Hn, Hts.
        + inversion Hn; inversion Hts; subst. exact Hxy.
        + eapply IH; eauto. }
    apply render_schedule_inv in Hr as [Et Ei].
    apply nth_error_combine in Hts as [Hk Hs].
    assert (Hty : slot_type s = truck_type trip).
    { assert (Ht : nth_error (map snd refs) n = Some trip).
      { rewrite nth_error_map, Hk. reflexivity. }
      clear - T Ht Hs. revert n Ht Hs.
      induction T as [|x y l1 l2 Hxy T IH]; intros n Ht Hs.
      - destruct n; discriminate.
      - destruct n as [|n]; simpl in Ht, Hs.
        + inversion Ht; inversion Hs; subst. exact Hxy.
        + eapply IH; eauto. }
    unfold slot_keys. apply in_map_iff. exists s. split.
    + rewrite <- Ei0, <- Ty, Ei, Et, Hty. reflexivity.
    + eapply nth_error_In; eauto.
  - intros I. right. unfold slot_keys in I. apply in_map_iff in I as (s & Es & Is).
    inversion Es; subst id c. clear Es.
    destruct (In_nth_error _ _ Is) as (n & Hn).
    assert (exists r, nth_error refs n = Some r) as [[k trip] Hk].
    { destruct (nth_error refs n) eqn:X; [eauto|].
      apply nth_error_None in X. apply fleet_run_length in R.
      rewrite length_map in R. rewrite <- R in X.
      apply nth_error_None in X. congruence. }
    assert (Hts : nth_error (combine refs slots) n = Some ((k, trip), s)).
    { apply nth_error_combine. auto. }
    assert (exists e, nth_error (map snd out) n = Some e /\
                      render_schedule trip s = Ok e) as (e & He & Hr).
    { clear - F Hts. revert n Hts.
      induction F as [|x y l1 l2 Hxy F IH]; intros n Hts.
      - destruct n; discriminate.
      - destruct n as [|n]; simpl in Hts.
        + inversion Hts; subst. exists x. split; [reflexivity|exact Hxy].
        + apply IH. exact Hts. }
    apply render_schedule_inv in Hr as [Et Ei].
    assert (Hty : slot_type s = truck_type trip).
    { assert (Ht : nth_error (map snd refs) n = Some trip).
      { rewrite nth_error_map, Hk. reflexivity. }
      clear - T Ht Hn. revert n Ht Hn.
      induction T as [|x y l1 l2 Hxy T IH]; intros n Ht Hn.
      - destruct n; discriminate.
      - destruct n as [|n]; simpl in Ht, Hn.
        + inversion Ht; inversion Hn; subst. exact Hxy.
        + eapply IH; eauto. }
    exists (st_trip e), (st_schedule e). split; [|split].
    + apply nth_error_In in He. apply in_map_iff in He as ([k' e'] & Ee & Ie).
      simpl in Ee. subst e'. unfold routes_of. apply in_map_iff.
      exists (k', e). split; [reflexivity|exact Ie].
    + rewrite Et, Hty. reflexivity.
    + exact Ei.
Qed.

(* ------------------------------------------------------------------ *)
(** ** The schedule holds the trips it was given *)

(** What [schedule_fleet] returns, read entry by entry. *)
Lemma schedule_fleet_entries refs out :
  schedule_fleet refs = Ok out ->
  exists stf slots,
    assign_all fleet_init (map snd refs) = Ok (stf, slots) /\
    fleet_run fleet_init (map snd refs) slots stf /\
    last_schedule refs slots out.
Proof.
  intros H.
  destruct (assign_all_run fleet_init (map snd refs)) as (stf & slots & E & R).
  exists stf, slots. split; [exact E|]. split; [exact R|].
  unfold schedule_fleet in H. bind_inv H. inversion H; subst out.
  destruct (schedule_fold_entries _ _ _ _ _ _ E E0) as (_ & entries & S1 & S2).
  simpl in S1. rewrite S1. apply written_last; [|exact S2].
  apply fleet_run_length in R. rewrite length_map in R. exact R.
Qed.

(** X5: [schedule_fleet] returns the trips it was given, as many and in
    the same order, none dropped, repeated or moved, and writes nothing
    into a trip but its [schedule] entry, whose [duration_h] is the
    rounded duration of the trip.  (A dictionary that stands in the list
    more than once is one trip: equal identities carry equal
    contents.) *)
Theorem schedule_fleet_keeps_trips (refs : list (nat * Trip))
  (out : list (nat * ScheduledTrip)) :
  (forall i j r1 r2,
      nth_error refs i = Some r1 -> nth_error refs j = Some r2 ->
      fst r1 = fst r2 -> snd r1 = snd r2) ->
  schedule_fleet refs = Ok out ->
  map (fun e => (fst e, st_trip (snd e))) out = refs /\
  Forall (fun e => duration_h (st_schedule (snd e))
                   = round_ndigits (duration (st_trip (snd e))) 2) out.
Proof.
  intros W H.
  destruct (schedule_fleet_entries _ _ H) as (stf & slots & _ & _ & I & L).
  assert (Len : length out = length refs).
  { rewrite <- (length_map fst out), I, length_map. reflexivity. }
  split.
  - apply nth_error_ext. intros k. rewrite nth_error_map.
    destruct (nth_error refs k) as [[id trip]|] eqn:Hk.
    + destruct (L k id trip Hk) as (i & trip_i & slot & entry & _ & Hi & _ & _ & Hr & Ho).
      rewrite Ho. simpl.
      apply render_schedule_fields in Hr as (Et & _).
      rewrite Et. f_equal. f_equal.
      apply (W i k (id, trip_i) (id, trip) Hi Hk). reflexivity.
    + apply nth_error_None in Hk. rewrite <- Len in Hk.
      apply nth_error_None in Hk. rewrite Hk. reflexivity.
  - apply Forall_forall. intros e He.
    destruct (In_nth_error _ _ He) as (k & Hk).
    assert (exists r, nth_error refs k = Some r) as [[id trip] Hr].
    { destruct (nth_error refs k) eqn:X; [eauto|].
      apply nth_error_None in X. rewrite <- Len in X.
      apply nth_error_None in X. congruence. }
    destruct (L k id trip Hr) as (i & trip_i & slot & entry & _ & _ & _ & _ & Hren & Ho).
    rewrite Ho in Hk. inversion Hk; subst e. simpl.
    apply render_schedule_fields in Hren as (Et & _ & _ & _ & Ed).
    rewrite Et. exact Ed.
Qed.

(* ------------------------------------------------------------------ *)
(** ** The times shown in a schedule *)

(** *** Floats and integers *)

Lemma SF_of_val x y :
  valid_binary x = true -> valid_binary y = true ->
  SFfinite x = true -> SFfinite y = true ->
  SFval x = SFval y -> SFval x <> 0%Z -> x = y.
Proof.
  intros Vx Vy Fx Fy E NZ.
  assert (C : SFcompare x y = Some Eq).
  { rewrite SFcompare_val; auto.
    - rewrite E, Z.compare_refl. reflexivity.
    - destruct x; try discriminate; reflexivity.
    - destruct y; try discriminate; reflexivity. }
  destruct x as [sx|sx| |sx mx ex], y as [sy|sy| |sy my ey]; try discriminate.
  - exfalso. apply NZ. reflexivity.
  - exfalso. apply NZ. reflexivity.
  - exfalso. apply NZ. rewrite E. reflexivity.
  - unfold SFcompare in C.
    assert (Em : forall c, match (ex ?= ey)%Z with Eq => c | Lt => Lt | Gt => Gt end = Eq ->
                           ex = ey /\ c = Eq).
    { intros c H. destruct (ex ?= ey)%Z eqn:Ce; try discriminate.
      apply Z.compare_eq in Ce. auto. }
    destruct sx, sy; try discriminate.
    + inversion C as [C']. 
      destruct (ex ?= ey)%Z eqn:Ce; try discriminate.
      apply Z.compare_eq in Ce. subst ey.
      destruct (Pos.compare_cont Eq mx my) eqn:Cm; try discriminate.
      apply (Pos.compare_eq mx my) in Cm. subst. reflexivity.
    + inversion C as [C']. 
      destruct (ex ?= ey)%Z eqn:Ce; try discriminate.
      apply Z.compare_eq in Ce. subst ey.
      apply (Pos.compare_eq mx my) in C'. subst. reflexivity.
Qed.

(** A finite float is determined by its value, the zeros apart. *)
Lemma fval_inj x y :
  ffinite x = true -> ffinite y = true -> fval x = fval y -> fval x <> 0%Z -> x = y.
Proof.
  unfold ffinite, fval. intros Fx Fy E NZ.
  rewrite <- (SF2Prim_Prim2SF x), <- (SF2Prim_Prim2SF y). f_equal.
  apply SF_of_val; auto using Prim2SF_valid.
Qed.

Lemma fval_zero_inv x : ffinite x = true -> fval x = 0%Z -> x = 0 \/ x = -0.
Proof.
  unfold ffinite, fval. intros F E.
  pose proof (Prim2SF_valid x) as V.
  destruct (Prim2SF x) as [s|s| |s m e] eqn:P; try discriminate.
  - rewrite <- (SF2Prim_Prim2SF x), P. destruct s; [right|left]; reflexivity.
  - exfalso. simpl in V.
    pose proof (finite_val_range m e V) as R.
    destruct s; cbn [SFval cond_Zopp] in E; lia.
Qed.

(** [int(x)] truncates toward zero. *)
Lemma float_to_int_val x :
  ffinite x = true -> float_to_int x = Ok (Z.quot (fval x) one).
Proof.
  unfold ffinite, fval, float_to_int. intros F.
  pose proof (Prim2SF_valid x) as V.
  destruct (Prim2SF x) as [s|s| |s m e] eqn:P; try discriminate.
  - reflexivity.
  - simpl in V. apply bounded_inv in V as ((Lo & Hi) & _).
    f_equal. cbn [SFval].
    assert (Po : (0 < one)%Z) by reflexivity.
    assert (Q : (Z.quot (Zpos m * 2 ^ (e + 1074)) one
                 = if (0 <=? e)%Z then Z.shiftl (Zpos m) e
                   else Z.shiftr (Zpos m) (- e))%Z).
    { rewrite Z.quot_div_nonneg by (try apply Z.mul_nonneg_nonneg; try lia;
                                    apply Z.pow_nonneg; lia).
      destruct (0 <=? e)%Z eqn:S0.
      - apply Z.leb_le in S0. rewrite Z.shiftl_mul_pow2 by lia.
        unfold one. rewrite Z.pow_add_r by lia.
        rewrite Z.mul_assoc. apply Z.div_mul. apply Z.pow_nonzero; lia.
      - apply Z.leb_gt in S0. rewrite Z.shiftr_div_pow2 by lia.
        unfold one.
        replace 1074%Z with ((e + 1074) + (- e))%Z at 2 by lia.
        rewrite (Z.pow_add_r 2 (e + 1074) (- e)) by lia.
        rewrite (Z.mul_comm (Zpos m)).
        apply Z.div_mul_cancel_l; apply Z.pow_nonzero; lia. }
    destruct s; cbn [cond_Zopp].
    + rewrite Z.quot_opp_l by (unfold one; apply Z.pow_nonzero; lia).
      rewrite Q. reflexivity.
    + rewrite Q. reflexivity.
Qed.

(** An integer below 2^53 is converted exactly. *)
Lemma int_to_float_exact z :
  (Z.abs z < 2 ^ 53)%Z ->
  exists f, int_to_float z = Ok f /\ fval f = (z * one)%Z /\ ffinite f = true.
Proof.
  intros B. unfold int_to_float.
  destruct (binary_normalize_exact z 0) as (V & Va & Fi).
  { lia. }
  { destruct (Z.eq_dec z 0) as [->|NZ]; [left; reflexivity|].
    right. exists (Z.abs z), 1074%Z. split; [|lia].
    rewrite Z.abs_mul. rewrite (Z.abs_eq (2 ^ _)) by (apply Z.pow_nonneg; lia).
    reflexivity. }
  set (bn := binary_normalize prec emax z 0 false) in *.
  exists (SF2Prim bn).
  assert (P : Prim2SF (SF2Prim bn) = bn) by (apply Prim2SF_SF2Prim; exact Va).
  assert (I : is_infinity (SF2Prim bn) = false).
  { unfold is_infinity. rewrite eqb_spec, abs_spec, P.
    destruct bn; try discriminate; reflexivity. }
  rewrite I. split; [reflexivity|].
  unfold fval, ffinite. rewrite P. auto.
Qed.

(** *** The start times *)

Lemma clock_value i :
  (Z.of_nat i < 2 ^ 50)%Z ->
  ffinite (clock i) = true /\
  fval (clock i) = ((32 + Z.of_nat i) * 2 ^ 1072)%Z.
Proof.
  intros B. destruct (clock_exact i B) as [F V]. split; [exact F|].
  rewrite V, fval_START_HOUR, fval_TIME_LOADING. ring.
Qed.

Lemma minutes_of_quarter z r :
  ffinite z = true -> (0 <= r < 4)%Z -> fval z = (r * 2 ^ 1072)%Z ->
  float_to_int (z * 60) = Ok (15 * r)%Z.
Proof.
  intros F R V.
  assert (Hr : r = 0%Z \/ r = 1%Z \/ r = 2%Z \/ r = 3%Z) by lia.
  destruct Hr as [-> | [-> | [-> | ->]]].
  - destruct (fval_zero_inv z F V) as [E|E]; rewrite E; reflexivity.
  - rewrite (fval_inj z 0.25); [reflexivity|exact F|reflexivity|exact V|].
    rewrite V. discriminate.
  - rewrite (fval_inj z 0.5); [reflexivity|exact F|reflexivity|exact V|].
    rewrite V. discriminate.
  - rewrite (fval_inj z 0.75); [reflexivity|exact F|reflexivity|exact V|].
    rewrite V. discriminate.
Qed.

(** The plant clock as [format_time] writes it. *)
Lemma format_time_clock i :
  (Z.of_nat i < 2 ^ 50)%Z -> format_time (clock i) = Ok (clock_text i).
Proof.
  intros B. destruct (clock_value i B) as [F V].
  assert (N : is_nan (clock i) = false) by (apply ffinite_iff in F; tauto).
  assert (P : (0 < 2 ^ 1072)%Z) by reflexivity.
  set (n := Z.of_nat i) in *.
  assert (Hn : (0 <= n)%Z) by (unfold n; lia).
  assert (Q : Z.quot (fval (clock i)) one = (8 + n / 4)%Z).
  { rewrite V, one_quarters.
    rewrite Z.quot_div_nonneg by lia.
    rewrite Z.div_mul_cancel_r by lia.
    replace (32 + n)%Z with (n + 8 * 4)%Z by ring.
    rewrite Z.div_add by lia. ring. }
  unfold format_time. rewrite N, (float_to_int_val _ F), Q.
  cbn [bind].
  pose proof (Z.div_pos n 4 Hn ltac:(lia)) as Dp.
  assert (Dle : (n / 4 <= n)%Z).
  { apply Z.div_le_upper_bound; lia. }
  destruct (int_to_float_exact (8 + n / 4)) as (f & Ef & Vf & Ff).
  { assert ((2 ^ 50 + 8 < 2 ^ 53)%Z) by reflexivity. lia. }
  rewrite Ef. cbn [bind].
  assert (Vz : (fval (clock i) - fval f = (n mod 4) * 2 ^ 1072)%Z).
  { rewrite V, Vf, one_quarters.
    pose proof (Z.div_mod n 4 ltac:(lia)) as Dm. nia. }
  pose proof (Z.mod_pos_bound n 4 ltac:(lia)) as Mb.
  destruct (sub_exact (clock i) f F Ff) as [Vs Fs].
  { rewrite Vz. destruct (Z.eq_dec (n mod 4) 0) as [->|NZ]; [left; reflexivity|].
    right. exists (n mod 4)%Z, 1072%Z. split; [|split; [|lia]].
    - rewrite Z.abs_eq by nia. reflexivity.
    - assert ((4 < 2 ^ 53)%Z) by reflexivity. lia. }
  rewrite Vz in Vs.
  rewrite (minutes_of_quarter _ (n mod 4) Fs Mb Vs). cbn [bind].
  unfold clock_text. fold n.
  destruct (24 <=? 8 + n / 4)%Z eqn:D; [reflexivity|].
  apply Z.leb_gt in D. unfold n in *.
  rewrite (Z.mod_small (8 + Z.of_nat i / 4) 24) by lia. reflexivity.
Qed.

(** X6: for trips that are distinct dictionaries (fewer than 2^50 of
    them) the [start_time] [schedule_fleet] shows for the [k]-th trip is
    the clock time 08:00 plus [k] quarters of an hour: [HH:MM], with the
    day offset [ (+Nd)] once 24 hours are passed. *)
Theorem schedule_start_times (refs : list (nat * Trip))
  (out : list (nat * ScheduledTrip)) :
  NoDup (map fst refs) ->
  (Z.of_nat (length refs) < 2 ^ 50)%Z ->
  schedule_fleet refs = Ok out ->
  forall k e, nth_error out k = Some e ->
              start_time (st_schedule (snd e)) = clock_text k.
Proof.
  intros N B H k e Hk.
  destruct (schedule_fleet_entries _ _ H) as (stf & slots & _ & R & I & L).
  assert (Len : length out = length refs).
  { rewrite <- (length_map fst out), I, length_map. reflexivity. }
  assert (Lk : (k < length refs)%nat).
  { rewrite <- Len. apply nth_error_Some. rewrite Hk. discriminate. }
  destruct (nth_error refs k) as [[id trip]|] eqn:Hr.
  2:{ apply nth_error_None in Hr. lia. }
  destruct (L k id trip Hr) as (i & trip_i & slot & entry & Hki & Hi & _ & Hs & Hren & Ho).
  assert (i = k).
  { assert (Ei : nth_error (map fst refs) i = Some id)
      by (rewrite nth_error_map, Hi; reflexivity).
    assert (Ek : nth_error (map fst refs) k = Some id)
      by (rewrite nth_error_map, Hr; reflexivity).
    apply (proj1 (NoDup_nth_error (map fst refs)) N).
    - apply nth_error_Some. rewrite Ei. discriminate.
    - rewrite Ei, Ek. reflexivity. }
  subst i. rewrite Ho in Hk. inversion Hk; subst e. simpl.
  apply render_schedule_fields in Hren as (_ & _ & Est & _).
  rewrite (fleet_run_clock _ _ _ _ R k slot Hs) in Est.
  change (Nat.iter k (fun t => t + TIME_LOADING) (plant_ready_time fleet_init))
    with (clock k) in Est.
  rewrite format_time_clock in Est by lia.
  inversion Est. reflexivity.
Qed.

(** *** Times that cannot be shown *)

Lemma colon_text_not_error a b : (a ++ ":" ++ b)%string <> "ERROR"%string.
Proof.
  destruct a as [|c1 [|c2 [|c3 [|c4 [|c5 [|c6 a]]]]]]; simpl; intros H;
    inversion H.
Qed.

Lemma format_time_error x s :
  format_time x = Ok s -> (s = "ERROR"%string <-> is_nan x = true).
Proof.
  unfold format_time. destruct (is_nan x) eqn:N; intros H.
  - inversion H. split; auto.
  - bind_inv H. bind_inv H. bind_inv H.
    destruct (if (24 <=? a)%Z then _ else _) as [h off].
    inversion H; subst s. split; [|discriminate].
    intros Q. exfalso. revert Q. apply colon_text_not_error.
Qed.

Lemma add_finite_nan x y : ffinite x = true -> is_nan (x + y) = is_nan y.
Proof.
  unfold ffinite. rewrite !is_nan_spec, add_spec. intros F.
  destruct (Prim2SF x) as [sx|sx| |sx mx ex] eqn:Px; try discriminate;
    destruct (Prim2SF y) as [sy|sy| |sy my ey] eqn:Py;
    unfold SF64add, SFadd; try reflexivity.
  - destruct sx, sy; reflexivity.
  - apply binary_normalize_not_nan.
Qed.

(** X7: in the schedule of fewer than 2^50 trips no [start_time] is the
    text ERROR, and the [end_time] of an entry is the text ERROR exactly
    when the duration of its trip is NaN: a trip without a duration is
    scheduled, and takes a truck, without an exception. *)
Theorem schedule_error_times (refs : list (nat * Trip))
  (out : list (nat * ScheduledTrip)) :
  (Z.of_nat (length refs) < 2 ^ 50)%Z ->
  schedule_fleet refs = Ok out ->
  Forall (fun e =>
            start_time (st_schedule (snd e)) <> "ERROR"%string /\
            (end_time (st_schedule (snd e)) = "ERROR"%string <->
             is_nan (duration (st_trip (snd e))) = true)) out.
Proof.
  intros B H.
  destruct (schedule_fleet_entries _ _ H) as (stf & slots & _ & R & I & L).
  assert (Len : length out = length refs).
  { rewrite <- (length_map fst out), I, length_map. reflexivity. }
  apply Forall_forall. intros e He.
  destruct (In_nth_error _ _ He) as (k & Hk).
  assert (exists r, nth_error refs k = Some r) as [[id trip] Hr].
  { destruct (nth_error refs k) eqn:X; [eauto|].
    apply nth_error_None in X. rewrite <- Len in X.
    apply nth_error_None in X. congruence. }
  destruct (L k id trip Hr) as (i & trip_i & slot & entry & _ & Hi & _ & Hs & Hren & Ho).
  rewrite Ho in Hk. inversion Hk; subst e. simpl.
  assert (Li : (i < length refs)%nat).
  { apply nth_error_Some. rewrite Hi. discriminate. }
  apply render_schedule_fields in Hren as (Et & _ & Est & Een & _).
  assert (Hstart : slot_start slot = clock i).
  { rewrite (fleet_run_clock _ _ _ _ R i slot Hs). reflexivity. }
  assert (Hend : slot_end slot = clock i + duration trip_i).
  { assert (Ht : nth_error (map snd refs) i = Some trip_i)
      by (rewrite nth_error_map, Hi; reflexivity).
    destruct (fleet_run_slot _ _ _ _ R i trip_i slot Ht Hs) as [_ E].
    rewrite E, Hstart. reflexivity. }
  destruct (clock_value i ltac:(lia)) as [F _].
  split.
  - rewrite Hstart in Est. intros E.
    apply (format_time_error _ _ Est) in E.
    apply ffinite_iff in F. destruct F as [F _]. congruence.
  - rewrite (format_time_error _ _ Een), Hend, Et.
    rewrite (add_finite_nan _ _ F). reflexivity.
Qed.

(* ------------------------------------------------------------------ *)
(** ** The trips of a pool *)

Lemma prioritize_filter_perm pool g :
  (forall g0 l, Permutation (fst (random_shuffle g0 l)) l) ->
  Permutation (fst (prioritize_pool_orders pool g))
              (filter (fun o => negb (is_nan (order_volume o))) pool).
Proof.
  intros Hsh. unfold prioritize_pool_orders.
  destruct (random_random g) as [u g1].
  destruct (u <? 0.45).
  - simpl. rewrite sort_desc_perm. apply split_by_volume.
  - rewrite Hsh. apply split_by_volume.
Qed.

(** The trips of one order, each with the call that made it. *)
Lemma direct_loop_trips fuel order vol trips leftovers trips' leftovers' :
  direct_loop fuel order vol trips leftovers = Ok (trips', leftovers') ->
  exists new_trips new_leftovers,
    trips' = trips ++ new_trips /\ leftovers' = leftovers ++ new_leftovers /\
    Forall (fun t => exists ty cap, direct_trip order ty cap = Ok t) new_trips /\
    Forall (fragment_of order) new_leftovers /\
    (length new_leftovers <= 1)%nat.
Proof.
  revert vol trips leftovers.
  induction fuel as [|fuel IH]; intros vol trips leftovers H; simpl in H;
    [discriminate|].
  destruct (0 <? vol) eqn:Pos.
  - destruct (BIG_TRUCK <=? vol) eqn:Big.
    + bind_inv H.
      destruct (IH _ _ _ H) as (nt & nl & E1 & E2 & F1 & F2 & L).
      exists (a :: nt), nl. rewrite E1, <- app_assoc. simpl.
      repeat split; auto. constructor; eauto.
    + destruct (MEDIUM_TRUCK <=? vol) eqn:Med.
      * bind_inv H.
        destruct (IH _ _ _ H) as (nt & nl & E1 & E2 & F1 & F2 & L).
        exists (a :: nt), nl. rewrite E1, <- app_assoc. simpl.
        repeat split; auto. constructor; eauto.
      * destruct fuel as [|fuel']; simpl in H; [discriminate|].
        change (0 <? 0) with false in H. inversion H; subst.
        exists [], [leftover_item order vol]. rewrite app_nil_r.
        repeat split; auto. constructor; [|constructor].
        unfold fragment_of, fragment_volume. simpl. repeat split; auto.
        apply ltb_iff. apply ltb_iff in Pos. destruct Pos as (P1 & P2 & P3).
        apply leb_false_iff in Med. destruct Med as [M|[M|M]];
          [discriminate|congruence|]. auto.
  - inversion H; subst. exists [], []. rewrite !app_nil_r. repeat split; auto.
Qed.

Lemma direct_fold_parts fuel orders trips leftovers st :
  foldM (direct_step fuel) (trips, leftovers) orders = Ok st ->
  exists parts,
    fst st = trips ++ concat (map fst parts) /\
    snd st = leftovers ++ concat (map snd parts) /\
    Forall2 (fun o p =>
               Forall (fun t => exists ty cap, direct_trip o ty cap = Ok t) (fst p) /\
               Forall (fragment_of o) (snd p) /\
               (length (snd p) <= 1)%nat) orders parts.
Proof.
  revert trips leftovers.
  induction orders as [|o orders IH]; intros trips leftovers H; cbn [foldM] in H.
  - inversion H; subst. exists []. simpl. rewrite !app_nil_r.
    split; [reflexivity|]. split; [reflexivity|constructor].
  - bind_inv H. destruct a as [trips1 leftovers1].
    unfold direct_step in E. simpl in E.
    apply direct_loop_trips in E as (nt & nl & E1 & E2 & F1 & F2 & L).
    destruct (IH _ _ H) as (parts & E3 & E4 & F3).
    exists ((nt, nl) :: parts). subst trips1 leftovers1.
    rewrite E3, E4. simpl. rewrite <- !app_assoc.
    split; [reflexivity|]. split; [reflexivity|].
    constructor; auto.
Qed.

(** One fragment at most per order: the leftovers are at different
    customers when the orders are. *)
Lemma fragments_ids orders (parts : list (list Trip * list LeftoverItem)) :
  Forall2 (fun o p =>
             Forall (fun t => exists ty cap, direct_trip o ty cap = Ok t) (fst p) /\
             Forall (fragment_of o) (snd p) /\
             (length (snd p) <= 1)%nat) orders parts ->
  (forall it, In it (concat (map snd parts)) ->
              exists o, In o orders /\ fragment_of o it) /\
  (NoDup (map customer_id orders) ->
   NoDup (map lo_customer_id (concat (map snd parts)))).
Proof.
  induction 1 as [|o p orders parts (_ & Fo & Lo) F [IH1 IH2]]; simpl.
  - split; [intros it []|constructor].
  - split.
    + intros it Hi. apply in_app_or in Hi as [Hi|Hi].
      * exists o. split; [left; reflexivity|].
        rewrite Forall_forall in Fo. auto.
      * destruct (IH1 it Hi) as (o' & Ho' & Fr). exists o'. auto.
    + intros N. inversion N as [|? ? NI N']; subst.
      rewrite map_app.
      destruct (snd p) as [|it [|it' rest]]; simpl in *; [auto| |lia].
      constructor; [|auto].
      inversion Fo as [|? ? (Ei & _) _]; subst.
      intros X. apply in_map_iff in X as (it2 & E2 & I2).
      destruct (IH1 it2 I2) as (o' & Ho' & (Ei' & _)).
      apply NI. rewrite <- Ei, <- E2, Ei'. apply in_map. exact Ho'.
Qed.

Lemma direct_trip_stops order ty cap t :
  direct_trip order ty cap = Ok t ->
  route_type t = Direct /\ stops t = [customer_id order].
Proof. intros H. apply direct_trip_inv in H as (_ & S & _ & R). auto. Qed.

(** The stops of a trip of the pairing stage. *)
Lemma emitted_stops leftovers t g :
  NoDup (map lo_customer_id leftovers) ->
  emitted leftovers t g ->
  stops_of_kind (map lo_customer_id leftovers) t.
Proof.
  intros N He. unfold stops_of_kind.
  inversion He as [i a t' Hn Hl | i j a b s st1 st2 Ha Hb Hij Hadm Hst]; subst.
  - apply leftover_trip_inv in Hl as (_ & S & _ & _ & R). rewrite R.
    exists (lo_customer_id a). split; [exact S|].
    apply in_map. eapply nth_error_In; eauto.
  - simpl.
    destruct Hadm as (s1 & s2 & d1 & d2 & d3 & _ & A2 & _ & _ & _ & _ & _ & A8).
    subst s. simpl in Hst. inversion Hst; subst s1 s2. clear Hst.
    assert (D : lo_customer_id a <> lo_customer_id b).
    { intros E. apply Hij.
      assert (Ia : nth_error (map lo_customer_id leftovers) i = Some (lo_customer_id a))
        by (rewrite nth_error_map, Ha; reflexivity).
      assert (Ib : nth_error (map lo_customer_id leftovers) j = Some (lo_customer_id a))
        by (rewrite nth_error_map, Hb, E; reflexivity).
      apply (proj1 (NoDup_nth_error _) N).
      - apply nth_error_Some. rewrite Ia. discriminate.
      - rewrite Ia, Ib. reflexivity. }
    assert (Ina : In (lo_customer_id a) (map lo_customer_id leftovers))
      by (apply in_map; eapply nth_error_In; eauto).
    assert (Inb : In (lo_customer_id b) (map lo_customer_id leftovers))
      by (apply in_map; eapply nth_error_In; eauto).
    exists (lo_customer_id st1), (lo_customer_id st2).
    split; [reflexivity|].
    destruct A2 as [A2|A2]; inversion A2; subst; auto.
Qed.

(** X8: every trip [generate_trips_for_pool] emits for a pool of
    different customers stops at customers of the pool, a Shared trip at
    two different ones (an order is never paired with itself) and a
    Direct or Leftover trip at one: no truck makes more than two
    deliveries.  ([random.shuffle] rearranges its list.) *)
Theorem trips_stops (fuel : nat) (pool : list Orders) (g : rng)
  (trips : list Trip) (g' : rng) :
  (forall g0 l, Permutation (fst (random_shuffle g0 l)) l) ->
  NoDup (map customer_id pool) ->
  generate_trips_for_pool fuel pool g = Ok (trips, g') ->
  Forall (stops_of_kind (map customer_id pool)) trips.
Proof.
  intros Hsh N H. unfold generate_trips_for_pool in H.
  pose proof (prioritize_filter_perm pool g Hsh) as P.
  destruct (prioritize_pool_orders pool g) as [sorted_pool g1]. simpl in P.
  assert (Sub : forall o, In o sorted_pool -> In o pool).
  { intros o Ho. apply (Permutation_in _ P) in Ho.
    apply filter_In in Ho. apply Ho. }
  assert (Ns : NoDup (map customer_id sorted_pool)).
  { eapply Permutation_NoDup.
    - apply Permutation_map. symmetry. exact P.
    - apply NoDup_map_filter. exact N. }
  bind_inv H. rename a into st. bind_inv H. inversion H; subst a g1; clear H.
  apply direct_fold_parts in E as (parts & E1 & E2 & F).
  simpl in E1, E2.
  destruct (fragments_ids _ _ F) as [Fr Nf]. specialize (Nf Ns).
  set (leftovers := sort_desc lo_volume (snd st)) in E0.
  assert (Pl : Permutation leftovers (concat (map snd parts))).
  { unfold leftovers. rewrite E2. apply sort_desc_perm. }
  assert (Nl : NoDup (map lo_customer_id leftovers)).
  { eapply Permutation_NoDup; [|exact Nf].
    apply Permutation_map. symmetry. exact Pl. }
  assert (Il : forall x, In x (map lo_customer_id leftovers) ->
                         In x (map customer_id pool)).
  { intros x Hx. apply in_map_iff in Hx as (it & Ex & Hit).
    apply (Permutation_in _ Pl) in Hit.
    destruct (Fr it Hit) as (o & Ho & (Ei & _)).
    rewrite <- Ex, Ei. apply in_map. auto. }
  apply pair_leftovers_groups in E0 as (new & groups & T & Fe & _).
  rewrite T, E1. simpl. apply Forall_app. split.
  - apply Forall_forall. intros t Ht. apply in_concat in Ht as (l & Hl & Ht).
    apply in_map_iff in Hl as (p & <- & Hp).
    destruct (Forall2_In_r _ _ _ _ F Hp) as (o & Ho & (Fd & _)).
    rewrite Forall_forall in Fd. destruct (Fd t Ht) as (ty & cap & Ed).
    apply direct_trip_stops in Ed as [R S]. unfold stops_of_kind.
    rewrite R. exists (customer_id o). split; [exact S|].
    apply in_map. auto.
  - apply Forall_forall. intros t Ht.
    destruct (Forall2_In_l _ _ _ _ Fe Ht) as (grp & _ & He).
    pose proof (emitted_stops _ _ _ Nl He) as K. unfold stops_of_kind in K |- *.
    destruct (route_type t).
    + destruct K as (a & S & I). exists a. auto.
    + destruct K as (a & b & S & D & Ia & Ib). exists a, b. auto.
    + destruct K as (a & S & I). exists a. auto.
Qed.

(* ------------------------------------------------------------------ *)
(** ** The times of the trips *)

Lemma direct_trip_times order ty cap t :
  direct_trip order ty cap = Ok t ->
  exists d,
    calculate_distance PLANT_COORDS (coordinates order) = Ok d /\
    duration t = TIME_LOADING + get_travel_time d + TIME_SERVICE + get_travel_time d /\
    concrete_age_at_finish t = Some (TIME_LOADING + get_travel_time d + TIME_SERVICE).
Proof.
  unfold direct_trip. intros H. bind_inv H. inversion H; subst t. simpl.
  exists a. auto.
Qed.

Lemma leftover_trip_times item_a t :
  leftover_trip item_a = Ok t ->
  exists d,
    calculate_distance PLANT_COORDS (lo_coordinates item_a) = Ok d /\
    duration t = TIME_LOADING + get_travel_time d + TIME_SERVICE + get_travel_time d /\
    concrete_age_at_finish t = None.
Proof.
  unfold leftover_trip. intros H.
  destruct (get_best_truck (lo_volume item_a)) as [ty cap].
  bind_inv H. inversion H; subst t. simpl. exists a. auto.
Qed.

Section Times.

Hypothesis atan2_range :
  forall a r, math_atan2 (sqrt a) (sqrt (1 - a)) = Value r -> (r <? 0) = false.

Lemma travel_nonneg coord1 coord2 d :
  calculate_distance coord1 coord2 = Ok d -> nonneg (get_travel_time d) = true.
Proof using atan2_range.
  intros H. apply get_travel_time_nonneg.
  eapply calculate_distance_not_below; eauto.
Qed.

Lemma emitted_timed leftovers t g : emitted leftovers t g -> timed t.
Proof using atan2_range.
  intros He. unfold timed.
  inversion He as [i a t' Hn Hl | i j a b s st1 st2 Ha Hb Hij Hadm Hst]; subst.
  - apply leftover_trip_times in Hl as (d & D & Ed & Ea). rewrite Ed, Ea.
    apply travel_nonneg in D. split; [|exact I].
    repeat apply add_nonneg; auto.
  - simpl. split; [|exact I].
    destruct Hadm as (s1 & s2 & d1 & d2 & d3 & _ & _ & A3 & A4 & A5 & _ & _ & A8).
    subst s. simpl.
    apply travel_nonneg in A3, A4, A5.
    repeat apply add_nonneg; auto.
Qed.

(** X9: the duration of every trip [generate_trips_for_pool] emits, and
    the concrete age of every Direct trip, is a number, not NaN, and not
    below zero.  (The arc tangent returns no number below zero where
    [calculate_distance] calls it.) *)
Theorem trips_timed (fuel : nat) (pool : list Orders) (g : rng)
  (trips : list Trip) (g' : rng) :
  generate_trips_for_pool fuel pool g = Ok (trips, g') ->
  Forall timed trips.
Proof using atan2_range.
  intros H. unfold generate_trips_for_pool in H.
  destruct (prioritize_pool_orders pool g) as [sorted_pool g1].
  bind_inv H. rename a into st. bind_inv H. inversion H; subst a g1; clear H.
  apply direct_fold_parts in E as (parts & E1 & _ & F).
  simpl in E1.
  apply pair_leftovers_groups in E0 as (new & groups & T & Fe & _).
  rewrite T, E1. simpl. apply Forall_app. split.
  - apply Forall_forall. intros t Ht. apply in_concat in Ht as (l & Hl & Ht).
    apply in_map_iff in Hl as (p & <- & Hp).
    destruct (Forall2_In_r _ _ _ _ F Hp) as (o & Ho & (Fd & _)).
    rewrite Forall_forall in Fd. destruct (Fd t Ht) as (ty & cap & Ed).
    apply direct_trip_times in Ed as (d & D & Ed & Ea).
    unfold timed. rewrite Ed, Ea. apply travel_nonneg in D.
    split; repeat apply add_nonneg; auto.
  - apply Forall_forall. intros t Ht.
    destruct (Forall2_In_l _ _ _ _ Fe Ht) as (grp & _ & He).
    eapply emitted_timed; eauto.
Qed.

End Times.

(* ------------------------------------------------------------------ *)
(** ** The full loads of an order *)

Lemma full_loads_big v :
  (12 * one <= v)%Z ->
  full_loads v = BIG_TRUCK :: full_loads (v - 12 * one) /\
  rest_of v = rest_of (v - 12 * one).
Proof.
  pose proof one_pos as P1. intros L.
  assert (D : (v / (12 * one) = (v - 12 * one) / (12 * one) + 1)%Z).
  { replace v with ((v - 12 * one) + 1 * (12 * one))%Z at 1 by ring.
    apply Z.div_add. lia. }
  assert (M : (v mod (12 * one) = (v - 12 * one) mod (12 * one))%Z).
  { replace v with ((v - 12 * one) + 1 * (12 * one))%Z at 1 by ring.
    apply Z_mod_plus_full. }
  unfold full_loads, rest_of. rewrite D, M.
  assert (Q : (0 <= (v - 12 * one) / (12 * one))%Z) by (apply Z.div_pos; lia).
  rewrite Z2Nat.inj_add by lia. rewrite Nat.add_comm. simpl. auto.
Qed.

Lemma full_loads_medium v :
  (7 * one <= v < 12 * one)%Z ->
  full_loads v = [MEDIUM_TRUCK] /\ rest_of v = (v - 7 * one)%Z /\
  full_loads (v - 7 * one) = [] /\ rest_of (v - 7 * one) = (v - 7 * one)%Z.
Proof.
  pose proof one_pos as P1. intros L.
  unfold full_loads, rest_of.
  rewrite (Z.div_small v), (Z.mod_small v) by lia.
  rewrite (Z.div_small (v - 7 * one)), (Z.mod_small (v - 7 * one)) by lia.
  destruct (7 * one <=? v)%Z eqn:A; [|apply Z.leb_gt in A; lia].
  destruct (7 * one <=? v - 7 * one)%Z eqn:B; [apply Z.leb_le in B; lia|].
  simpl. auto.
Qed.

Lemma full_loads_small v :
  (0 <= v < 7 * one)%Z -> full_loads v = [] /\ rest_of v = v.
Proof.
  pose proof one_pos as P1. intros L.
  unfold full_loads, rest_of.
  rewrite (Z.div_small v), (Z.mod_small v) by lia.
  destruct (7 * one <=? v)%Z eqn:A; [apply Z.leb_le in A; lia|].
  simpl. auto.
Qed.

Lemma direct_loop_loads fuel order vol trips leftovers trips' leftovers' :
  ffinite vol = true ->
  (0 <= fval vol < 2 ^ 53 * one)%Z ->
  direct_loop fuel order vol trips leftovers = Ok (trips', leftovers') ->
  map volume trips' = map volume trips ++ full_loads (fval vol) /\
  map (fun it => fval (lo_volume it)) leftovers'
  = map (fun it => fval (lo_volume it)) leftovers
    ++ (if (0 <? rest_of (fval vol))%Z then [rest_of (fval vol)] else []).
Proof.
  pose proof one_pos as P1.
  revert vol trips leftovers.
  induction fuel as [|fuel IH]; intros vol trips leftovers F B H; simpl in H;
    [discriminate|].
  destruct (0 <? vol) eqn:Pos.
  - destruct (BIG_TRUCK <=? vol) eqn:Big.
    + bind_inv H. apply direct_trip_inv in E as (T1 & T2 & T3 & T4).
      apply leb_iff in Big as (_ & _ & Big). rewrite fval_BIG_TRUCK in Big.
      destruct (sub_capacity_exact vol BIG_TRUCK 12) as [V Fv]; auto;
        try reflexivity; try lia.
      destruct (IH _ _ _ Fv ltac:(lia) H) as [E1 E2].
      destruct (full_loads_big (fval vol) Big) as [L1 L2].
      rewrite E1, E2, V, L1, L2, map_app, <- app_assoc. simpl. rewrite T3. auto.
    + destruct (MEDIUM_TRUCK <=? vol) eqn:Med.
      * bind_inv H. apply direct_trip_inv in E as (T1 & T2 & T3 & T4).
        apply leb_iff in Med as (_ & _ & Med). rewrite fval_MEDIUM_TRUCK in Med.
        apply leb_false_iff in Big. rewrite fval_BIG_TRUCK in Big.
        apply ffinite_iff in F as [N Fr].
        destruct Big as [Q|[Q|Big]]; [discriminate|congruence|].
        destruct (sub_capacity_exact vol MEDIUM_TRUCK 7) as [V Fv]; auto;
          try reflexivity; try lia.
        { apply ffinite_iff. auto. }
        destruct (IH _ _ _ Fv ltac:(lia) H) as [E1 E2].
        destruct (full_loads_medium (fval vol) ltac:(lia)) as (L1 & L2 & L3 & L4).
        rewrite E1, E2, V, L1, L2, L3, L4, map_app, <- app_assoc. simpl.
        rewrite T3. auto.
      * destruct fuel as [|fuel']; simpl in H; [discriminate|].
        change (0 <? 0) with false in H. inversion H; subst.
        apply ltb_iff in Pos as (_ & N & Pos). rewrite fval_zero in Pos.
        apply leb_false_iff in Med. rewrite fval_MEDIUM_TRUCK in Med.
        destruct Med as [Q|[Q|Med]]; [discriminate|congruence|].
        destruct (full_loads_small (fval vol) ltac:(lia)) as [L1 L2].
        rewrite L1, L2, app_nil_r, map_app. simpl.
        destruct (0 <? fval vol)%Z eqn:A; [auto|apply Z.ltb_ge in A; lia].
  - inversion H; subst.
    apply ltb_false_iff in Pos.
    apply ffinite_iff in F as [N _]. rewrite fval_zero in Pos.
    destruct Pos as [Q|[Q|Q]]; [discriminate|congruence|].
    assert (Z0 : fval vol = 0%Z) by lia.
    destruct (full_loads_small (fval vol) ltac:(lia)) as [L1 L2].
    rewrite L1, L2, Z0, !app_nil_r. simpl. auto.
Qed.

(** X10: the direct-packing loop serves an order of volume [v] (a
    number from 0 up to 2^53) by Big trucks first: one Direct trip of
    12.0 for every whole 12.0 in [v], then one Direct trip of 7.0 when
    at least 7.0 remain, in this order; what is left after that, less
    than 7.0, becomes the one leftover fragment of the order when it is
    more than zero.  The volumes are exact. *)
Theorem direct_loop_big_first (fuel : nat) (order : Orders) (vol : float)
  (trips : list Trip) (leftovers : list LeftoverItem) :
  is_finite vol = true ->
  (0 <=? vol) = true ->
  (vol <? 0x1p53) = true ->
  direct_loop fuel order vol [] [] = Ok (trips, leftovers) ->
  map volume trips = full_loads (fval vol) /\
  Forall (direct_of order) trips /\
  map (fun it => fval (lo_volume it)) leftovers
  = (if (0 <? rest_of (fval vol))%Z then [rest_of (fval vol)] else []) /\
  (rest_of (fval vol) < 7 * one)%Z.
Proof.
  intros F L U H. rewrite is_finite_spec in F.
  apply leb_iff in L as (_ & _ & L). rewrite fval_zero in L.
  apply ltb_iff in U as (_ & _ & U).
  change (fval 0x1p53) with (2 ^ 53 * one)%Z in U.
  destruct (direct_loop_loads _ _ _ _ _ _ _ F (conj L U) H) as [E1 E2].
  apply direct_loop_spec in H as (nt & nl & T1 & _ & Fd & _).
  simpl in T1. subst nt.
  split; [exact E1|]. split; [exact Fd|]. split; [exact E2|].
  pose proof one_pos as P1. unfold rest_of.
  pose proof (Z.mod_pos_bound (fval vol) (12 * one) ltac:(lia)) as M.
  destruct (7 * one <=? fval vol mod (12 * one))%Z eqn:A.
  - lia.
  - apply Z.leb_gt in A. exact A.
Qed.

(* ------------------------------------------------------------------ *)
(** ** Exceptions of the trip generator *)

Lemma outcome_Ok {A : Type} (x : A) : distance_outcome (Ok x).
Proof. left. exists x. reflexivity. Qed.

Lemma outcome_bind {A B : Type} (m : result A) (k : A -> result B) :
  distance_outcome m ->
  (forall a, m = Ok a -> distance_outcome (k a)) ->
  distance_outcome (bind m k).
Proof.
  intros [[x E]|(e & c1 & c2 & E & D)] K; rewrite E; simpl.
  - apply K. exact E.
  - right. exists e, c1, c2. split; [reflexivity|exact D].
Qed.

Lemma outcome_foldM {St A : Type} (f : St -> A -> result St) (l : list A) :
  (forall s x, In x l -> distance_outcome (f s x)) ->
  forall s, distance_outcome (foldM f s l).
Proof.
  induction l as [|x l IH]; intros H s; simpl.
  - apply outcome_Ok.
  - apply outcome_bind; [apply H; left; reflexivity|].
    intros s' _. apply IH. intros s0 y Hy. apply H. right. exact Hy.
Qed.

Lemma outcome_distance coord1 coord2 :
  distance_outcome (calculate_distance coord1 coord2).
Proof.
  pose proof (calculate_distance_fueled coord1 coord2) as F.
  destruct (calculate_distance coord1 coord2) as [d|e|] eqn:E.
  - apply outcome_Ok.
  - right. exists e, coord1, coord2. split; [reflexivity|exact E].
  - congruence.
Qed.

Ltac distance_steps :=
  repeat (apply outcome_bind; [apply outcome_distance|intros ? _]).

Lemma outcome_optimize stop_a stop_b :
  distance_outcome (optimize_stop_sequence stop_a stop_b).
Proof.
  unfold optimize_stop_sequence. distance_steps.
  destruct (_ <=? _); apply outcome_Ok.
Qed.

(** The two stops read back from the sequenced route are always there. *)
Lemma outcome_pair_candidate item_a item_b j :
  distance_outcome (pair_candidate item_a item_b j).
Proof.
  unfold pair_candidate.
  destruct (BIG_TRUCK <? _); [apply outcome_Ok|].
  destruct (get_best_truck _) as [ty cap].
  apply outcome_bind; [apply outcome_optimize|intros stops Es].
  apply optimize_stop_sequence_inv in Es.
  destruct Es as [E|E]; rewrite E; cbn [get_item nth_error bind];
    distance_steps; destruct (MAX_CONCRETE_LIFESPAN <? _); apply outcome_Ok.
Qed.

Lemma outcome_search i item_a processed st cands :
  distance_outcome (foldM (consider_partner i item_a processed) st cands).
Proof.
  apply outcome_foldM. intros s [j item_b] _. rewrite consider_partner_eq.
  destruct (eligible i processed j); [|apply outcome_Ok].
  apply outcome_bind; [apply outcome_pair_candidate|].
  intros [c|] _; [destruct (_ <? _)|]; apply outcome_Ok.
Qed.

Lemma outcome_direct_trip order ty cap :
  distance_outcome (direct_trip order ty cap).
Proof. unfold direct_trip. distance_steps. apply outcome_Ok. Qed.

Lemma outcome_leftover_trip item_a : distance_outcome (leftover_trip item_a).
Proof.
  unfold leftover_trip. destruct (get_best_truck _) as [ty cap].
  distance_steps. apply outcome_Ok.
Qed.

(** The partner the search chose is an entry of [leftovers], and the
    route it recorded has two stops: none of the three subscripts of the
    outer loop is out of range. *)
Lemma outcome_pair_step leftovers st ia :
  distance_outcome (pair_step leftovers st ia).
Proof.
  destruct st as [trips processed], ia as [i item_a]. unfold pair_step.
  destruct (processed_mem i processed); [apply outcome_Ok|].
  apply outcome_bind; [apply outcome_search|intros s Es].
  unfold find_partner in Es.
  destruct (search_spec i item_a processed _ search_init s eq_refl Es)
    as (_ & _ & [E|(j & item_b & Hin & _ & Hc & _)] & _).
  - rewrite E. cbn [best_match_idx search_init].
    apply outcome_bind; [apply outcome_leftover_trip|intros t _].
    apply outcome_Ok.
  - apply pair_candidate_Some in Hc.
    destruct Hc as (s1 & s2 & d1 & d2 & d3 & _ & _ & _ & _ & _ & _ & _ & E).
    rewrite E. cbn [best_match_idx best_stops_order].
    apply enumerate_In in Hin. apply get_item_Ok in Hin. rewrite Hin.
    cbn [get_item nth_error bind]. apply outcome_Ok.
Qed.

Lemma outcome_direct_loop n fuel order vol trips leftovers :
  ffinite vol = true ->
  (fval vol < 2 ^ 53 * one)%Z ->
  (fval vol <= 7 * one * Z.of_nat n)%Z ->
  (n + 2 <= fuel)%nat ->
  distance_outcome (direct_loop fuel order vol trips leftovers).
Proof.
  pose proof one_pos as P1.
  revert fuel vol trips leftovers.
  induction n as [|n IH]; intros fuel vol trips leftovers F U M L;
    (destruct fuel as [|fuel]; [lia|]); simpl.
  - destruct (0 <? vol) eqn:Pos; [|apply outcome_Ok].
    exfalso. float_facts. rewrite fval_zero in *. lia.
  - destruct (0 <? vol) eqn:Pos; [|apply outcome_Ok].
    destruct (BIG_TRUCK <=? vol) eqn:Big.
    + apply outcome_bind; [apply outcome_direct_trip|intros t _].
      apply leb_iff in Big as (_ & _ & Big). rewrite fval_BIG_TRUCK in Big.
      destruct (sub_capacity_exact vol BIG_TRUCK 12) as [V Fv]; auto;
        try reflexivity; try lia.
      apply IH; auto; lia.
    + destruct (MEDIUM_TRUCK <=? vol) eqn:Med.
      * apply outcome_bind; [apply outcome_direct_trip|intros t _].
        apply leb_iff in Med as (_ & _ & Med). rewrite fval_MEDIUM_TRUCK in Med.
        destruct (sub_capacity_exact vol MEDIUM_TRUCK 7) as [V Fv]; auto;
          try reflexivity; try lia.
        apply IH; auto; lia.
      * destruct fuel as [|fuel]; [lia|]. simpl.
        change (0 <? 0) with false. apply outcome_Ok.
Qed.

Lemma outcome_direct_step fuel st order :
  is_finite (order_volume order) = true ->
  (order_volume order <? 0x1p53) = true ->
  (iterations_bound (order_volume order) + 1 <= fuel)%nat ->
  distance_outcome (direct_step fuel st order).
Proof.
  intros F U L. rewrite is_finite_spec in F.
  apply ltb_iff in U as (_ & _ & U).
  change (fval 0x1p53) with (2 ^ 53 * one)%Z in U.
  unfold iterations_bound in L. unfold direct_step.
  apply (outcome_direct_loop
           (Z.to_nat ((fval (order_volume order) + 7 * one - 1) / (7 * one))));
    auto; [apply ceil_bound | lia].
Qed.

(** X11: [generate_trips_for_pool] raises no exception of its own.  For a
    pool whose order volumes are finite floats below 2^53 (and a step
    budget that covers the direct-packing loop of every order) it returns
    its trips, or it raises the exception that a call of
    [calculate_distance] raised: [leftovers[best_match_idx]],
    [best_stops_order[0]] and [best_stops_order[1]] are never out of
    range, and no loop runs forever.  ([random.shuffle] is assumed to
    permute its list.) *)
Theorem generate_trips_returns (fuel : nat) (pool : list Orders) (g : rng) :
  (forall g0 l, Permutation (fst (random_shuffle g0 l)) l) ->
  Forall (fun o => is_finite (order_volume o) = true /\
                   (order_volume o <? 0x1p53) = true /\
                   (iterations_bound (order_volume o) + 1 <= fuel)%nat) pool ->
  distance_outcome (generate_trips_for_pool fuel pool g).
Proof.
  intros Hs Hp. unfold generate_trips_for_pool.
  pose proof (prioritize_filter_perm pool g Hs) as P.
  destruct (prioritize_pool_orders pool g) as [sorted_pool g']. simpl in P.
  apply outcome_bind.
  - apply outcome_foldM. intros s o Ho.
    apply (Permutation_in _ P) in Ho. apply filter_In in Ho.
    destruct Ho as [Hin _].
    rewrite Forall_forall in Hp. destruct (Hp o Hin) as (F & U & L).
    apply outcome_direct_step; assumption.
  - intros st _. apply outcome_bind; [|intros trips _; apply outcome_Ok].
    unfold pair_leftovers.
    apply outcome_bind; [|intros st' _; apply outcome_Ok].
    apply outcome_foldM. intros s ia _. apply outcome_pair_step.
Qed.

(* ------------------------------------------------------------------ *)
(** ** The entry point *)

Lemma map_fst_enumerate_from {A : Type} (l : list A) n :
  map fst (enumerate_from n l) = seq n (length l).
Proof.
  revert n. induction l as [|x l IH]; intros n; simpl; [reflexivity|].
  rewrite IH. reflexivity.
Qed.

Lemma map_snd_enumerate_from {A : Type} (l : list A) n :
  map snd (enumerate_from n l) = l.
Proof.
  revert n. induction l as [|x l IH]; intros n; simpl; [reflexivity|].
  rewrite IH. reflexivity.
Qed.

Lemma create_pools_members orders :
  Permutation (concat (map snd (create_pools orders))) orders.
Proof. exact (create_pools_by_perm_gen pool_key pool_key_eqb orders []). Qed.

(** [all_trips] is the concatenation of what the pools gave, pool by
    pool. *)
Lemma generate_all_trips_parts {K : Type} fuel (pools : list (K * list Orders))
  g trips g' :
  generate_all_trips fuel pools g = Ok (trips, g') ->
  exists parts,
    trips = concat parts /\
    Forall2 (fun p ts => exists g1 g2,
                 generate_trips_for_pool fuel (snd p) g1 = Ok (ts, g2))
            pools parts.
Proof.
  revert g trips g'.
  induction pools as [|[k pool] rest IH]; intros g trips g' H; simpl in H.
  - inversion H; subst. exists []. split; [reflexivity|constructor].
  - apply bind_Ok in H as ([ts g1] & E1 & H).
    apply bind_Ok in H as ([ts' g2] & E2 & H).
    inversion H; subst; clear H. simpl in E2.
    destruct (IH _ _ _ E2) as (parts & -> & F).
    exists (ts :: parts). split; [reflexivity|].
    constructor; [exists g, g1; exact E1|exact F].
Qed.

(** With every trip a dictionary of its own, the schedule holds the
    trips it was given. *)
Lemma schedule_fleet_contents refs out :
  NoDup (map fst refs) ->
  schedule_fleet refs = Ok out ->
  map (fun e => st_trip (snd e)) out = map snd refs.
Proof.
  intros N H.
  destruct (schedule_fleet_entries _ _ H) as (stf & slots & _ & _ & I & L).
  assert (Len : length out = length refs).
  { rewrite <- (length_map fst out), I, length_map. reflexivity. }
  apply nth_error_ext. intros k. rewrite !nth_error_map.
  destruct (nth_error refs k) as [[id trip]|] eqn:Hk.
  - destruct (L k id trip Hk)
      as (i & trip_i & slot & entry & _ & Hi & _ & _ & Hr & Ho).
    rewrite Ho. simpl.
    apply render_schedule_fields in Hr as (Et & _). rewrite Et. f_equal.
    assert (Eik : i = k).
    { apply (proj1 (NoDup_nth_error (map fst refs)) N).
      - rewrite length_map. apply nth_error_Some. congruence.
      - rewrite !nth_error_map, Hi, Hk. reflexivity. }
    subst i. congruence.
  - apply nth_error_None in Hk. rewrite <- Len in Hk.
    apply nth_error_None in Hk. rewrite Hk. reflexivity.
Qed.

Lemma create_route_trips fuel orders g out :
  create_route fuel orders g = Ok out ->
  exists trips g',
    generate_all_trips fuel (create_pools orders) g = Ok (trips, g') /\
    map (fun e => st_trip (snd e)) out = trips.
Proof.
  unfold create_route. intros H.
  apply bind_Ok in H as ([trips g'] & E & H). simpl in H.
  exists trips, g'. split; [exact E|].
  assert (N : NoDup (map fst (enumerate trips))).
  { unfold enumerate. rewrite map_fst_enumerate_from. apply seq_NoDup. }
  rewrite (schedule_fleet_contents _ _ N H).
  apply map_snd_enumerate_from.
Qed.

(** *** No order is dropped *)

Lemma direct_loop_serves fuel order vol trips leftovers trips' leftovers' :
  direct_loop fuel order vol trips leftovers = Ok (trips', leftovers') ->
  (0 <? vol) = true ->
  (exists t, In t trips' /\ stops t = [customer_id order]) \/
  (exists it, In it leftovers' /\ lo_customer_id it = customer_id order).
Proof.
  intros H Pos. destruct fuel as [|fuel]; [discriminate|].
  simpl in H. rewrite Pos in H.
  destruct (BIG_TRUCK <=? vol); [|destruct (MEDIUM_TRUCK <=? vol)].
  - apply bind_Ok in H as (t & E & H).
    apply direct_trip_stops in E as [_ S].
    apply direct_loop_spec in H as (nt & nl & -> & _).
    left. exists t. split; [|exact S].
    apply in_or_app. left. apply in_or_app. right. left. reflexivity.
  - apply bind_Ok in H as (t & E & H).
    apply direct_trip_stops in E as [_ S].
    apply direct_loop_spec in H as (nt & nl & -> & _).
    left. exists t. split; [|exact S].
    apply in_or_app. left. apply in_or_app. right. left. reflexivity.
  - apply direct_loop_spec in H as (nt & nl & _ & -> & _).
    right. exists (leftover_item order vol). split; [|reflexivity].
    apply in_or_app. left. apply in_or_app. right. left. reflexivity.
Qed.

Lemma direct_fold_serves fuel orders st0 st o :
  foldM (direct_step fuel) st0 orders = Ok st ->
  In o orders -> (0 <? order_volume o) = true ->
  (exists t, In t (fst st) /\ stops t = [customer_id o]) \/
  (exists it, In it (snd st) /\ lo_customer_id it = customer_id o).
Proof.
  revert st0.
  induction orders as [|x rest IH]; intros st0 H Hin Pos; [contradiction|].
  simpl in H. apply bind_Ok in H as ([t1 l1] & E & H).
  destruct Hin as [Hx|Hin].
  - subst x. unfold direct_step in E.
    apply direct_loop_serves in E; [|exact Pos].
    apply direct_fold_spec in H as (nt & nl & E1 & E2 & _).
    rewrite E1, E2.
    destruct E as [(t & I & S)|(it & I & S)]; [left; exists t|right; exists it];
      (split; [apply in_or_app; left; exact I|exact S]).
  - apply (IH (t1, l1)); assumption.
Qed.

(** A trip of the pairing stage stops at every item it carries. *)
Lemma emitted_serves leftovers t grp i it :
  emitted leftovers t grp -> In i grp ->
  nth_error leftovers i = Some it ->
  In (lo_customer_id it) (stops t).
Proof.
  intros He Hi Hn.
  destruct He as [i0 a t Ha Hl | i0 j a b s st1 st2 Ha Hb Hij Hadm Hst].
  - destruct Hi as [Hi|[]]. subst i0. rewrite Ha in Hn. inversion Hn; subst it.
    apply leftover_trip_inv in Hl as (_ & S & _). rewrite S. left. reflexivity.
  - destruct Hadm as (s1 & s2 & d1 & d2 & d3 & _ & A2 & _ & _ & _ & _ & _ & A8).
    subst s. simpl in Hst. inversion Hst; subst s1 s2. simpl.
    destruct Hi as [Hi|[Hi|[]]]; subst i.
    + rewrite Ha in Hn. inversion Hn; subst it.
      destruct A2 as [A2|A2]; inversion A2; subst; auto.
    + rewrite Hb in Hn. inversion Hn; subst it.
      destruct A2 as [A2|A2]; inversion A2; subst; auto.
Qed.

Lemma pool_serves fuel pool g trips g' o :
  (forall g0 l, Permutation (fst (random_shuffle g0 l)) l) ->
  generate_trips_for_pool fuel pool g = Ok (trips, g') ->
  In o pool -> (0 <? order_volume o) = true ->
  exists t, In t trips /\ In (customer_id o) (stops t).
Proof.
  intros Hs H Hin Pos. unfold generate_trips_for_pool in H.
  pose proof (prioritize_filter_perm pool g Hs) as P.
  destruct (prioritize_pool_orders pool g) as [sorted_pool g1]. simpl in P.
  apply bind_Ok in H as (st & E & H).
  apply bind_Ok in H as (ts & E0 & H). inversion H; subst ts g1; clear H.
  assert (Ho : In o sorted_pool).
  { apply (Permutation_in _ (Permutation_sym P)). apply filter_In.
    split; [exact Hin|]. apply ltb_iff in Pos as (_ & N & _).
    rewrite N. reflexivity. }
  apply pair_leftovers_groups in E0 as (new & groups & T & F & Pm).
  subst trips.
  destruct (direct_fold_serves _ _ _ _ _ E Ho Pos) as [(t & I & S)|(it & I & S)].
  - exists t. split; [apply in_or_app; left; exact I|].
    rewrite S. left. reflexivity.
  - assert (Is : In it (sort_desc lo_volume (snd st))).
    { apply (Permutation_in _ (Permutation_sym (sort_desc_perm _ _))).
      exact I. }
    destruct (In_nth_error _ _ Is) as (i & Hi).
    assert (Ic : In i (concat groups)).
    { apply (Permutation_in _ (Permutation_sym Pm)). apply in_seq.
      split; [apply Nat.le_0_l|]. simpl. apply nth_error_Some. congruence. }
    apply in_concat in Ic as (grp & Hg & Hig).
    destruct (Forall2_In_r _ _ _ _ F Hg) as (t & Ht & He).
    exists t. split; [apply in_or_app; right; exact Ht|].
    rewrite <- S. apply (emitted_serves _ _ _ _ _ He Hig Hi).
Qed.

Lemma create_pools_test_members orders :
  Permutation (concat (map snd (create_pools_test orders))) orders.
Proof.
  exact (create_pools_by_perm_gen pool_key_test pool_key_test_eqb orders []).
Qed.

Lemma create_route_test_trips fuel orders g out :
  create_route_test fuel orders g = Ok out ->
  exists trips g',
    generate_all_trips fuel (create_pools_test orders) g = Ok (trips, g') /\
    map (fun e => st_trip (snd e)) out = trips.
Proof.
  unfold create_route_test. intros H.
  apply bind_Ok in H as ([trips g'] & E & H). simpl in H.
  exists trips, g'. split; [exact E|].
  assert (N : NoDup (map fst (enumerate trips))).
  { unfold enumerate. rewrite map_fst_enumerate_from. apply seq_NoDup. }
  rewrite (schedule_fleet_contents _ _ N H).
  apply map_snd_enumerate_from.
Qed.

(** Whatever the pools, as long as they hold the orders. *)
Lemma all_trips_serve {K : Type} fuel (pools : list (K * list Orders))
  orders g trips g' o :
  (forall g0 l, Permutation (fst (random_shuffle g0 l)) l) ->
  Permutation (concat (map snd pools)) orders ->
  generate_all_trips fuel pools g = Ok (trips, g') ->
  In o orders -> (0 <? order_volume o) = true ->
  exists t, In t trips /\ In (customer_id o) (stops t).
Proof.
  intros Hs Pm Ha Hin Pos.
  destruct (generate_all_trips_parts _ _ _ _ _ Ha) as (parts & Ec & F).
  apply (Permutation_in _ (Permutation_sym Pm)) in Hin.
  apply in_concat in Hin as (pool & Hp & Ho).
  apply in_map_iff in Hp as (p & <- & Hp).
  destruct (Forall2_In_l _ _ _ _ F Hp) as (ts & Hts & g1 & g2 & Hg).
  destruct (pool_serves _ _ _ _ _ _ Hs Hg Ho Pos) as (t & It & Is).
  exists t. split; [|exact Is].
  rewrite Ec. apply in_concat. exists ts. split; assumption.
Qed.

(** X12: [create_route] drops no order that asks for concrete: when it
    returns, every order of the input whose volume is above zero has its
    customer among the stops of a returned route, whichever pool the
    order fell into and whether it went out as a Direct load, as a
    Shared load or as a Leftover.  This holds of [create_route.py],
    which pools on four fields, and of [test.py], which pools on three.
    ([random.shuffle] is assumed to permute its list.) *)
Theorem create_route_serves (fuel : nat) (orders : list Orders) (g : rng)
  (out : list (nat * ScheduledTrip)) :
  (forall g0 l, Permutation (fst (random_shuffle g0 l)) l) ->
  create_route fuel orders g = Ok out \/
  create_route_test fuel orders g = Ok out ->
  forall o, In o orders -> (0 <? order_volume o) = true ->
    exists e, In e out /\ In (customer_id o) (stops (st_trip (snd e))).
Proof.
  intros Hs H o Hin Pos.
  assert (exists t, In t (map (fun e => st_trip (snd e)) out) /\
                    In (customer_id o) (stops t)) as (t & Iall & Is).
  { destruct H as [H|H].
    - destruct (create_route_trips _ _ _ _ H) as (trips & g' & Ha & Et).
      rewrite Et.
      apply (all_trips_serve _ _ _ _ _ _ _ Hs (create_pools_members orders)
               Ha Hin Pos).
    - destruct (create_route_test_trips _ _ _ _ H) as (trips & g' & Ha & Et).
      rewrite Et.
      apply (all_trips_serve _ _ _ _ _ _ _ Hs (create_pools_test_members orders)
               Ha Hin Pos). }
  apply in_map_iff in Iall as (e & Ee & Ie).
  exists e. split; [exact Ie|]. rewrite Ee. exact Is.
Qed.

(** *** Loads and trucks of the returned routes *)

Lemma all_trips_within_capacity {K : Type} fuel (pools : list (K * list Orders))
  g trips g' :
  generate_all_trips fuel pools g = Ok (trips, g') ->
  Forall within_capacity trips.
Proof.
  intros H.
  destruct (generate_all_trips_parts _ _ _ _ _ H) as (parts & -> & F).
  apply Forall_forall. intros t Ht.
  apply in_concat in Ht as (ts & Hts & Ht).
  destruct (Forall2_In_r _ _ _ _ F Hts) as (p & _ & g1 & g2 & Hg).
  unfold generate_trips_for_pool in Hg.
  destruct (prioritize_pool_orders (snd p) g1) as [sorted_pool g3].
  apply bind_Ok in Hg as (st & E & Hg).
  apply bind_Ok in Hg as (ts' & E0 & Hg). inversion Hg; subst ts' g3; clear Hg.
  apply direct_fold_spec in E as (nt & nl & E1 & E2 & F1 & F2).
  simpl in E1, E2. rewrite E1, E2 in E0.
  apply pair_leftovers_groups in E0 as (new & groups & T & Fe & _).
  subst ts. apply in_app_or in Ht as [Ht|Ht].
  - rewrite Forall_forall in F1. destruct (F1 t Ht) as (o & _ & Hd).
    apply (direct_of_within_capacity o). exact Hd.
  - destruct (Forall2_In_l _ _ _ _ Fe Ht) as (grp & _ & He).
    apply (emitted_within_capacity _ _ _) with (2 := He).
    eapply Permutation_Forall; [symmetry; apply sort_desc_perm|].
    eapply Forall_impl; [|exact F2]. intros it (o & _ & Hf). apply Hf.
Qed.

(** X13: the routes [create_route] returns are the trips generated for
    the pools, pool after pool and in the order of generation, one route
    per trip and with nothing but the schedule added; and every one of
    them carries a load that fits the truck it names. *)
Theorem create_route_within_capacity (fuel : nat) (orders : list Orders)
  (g : rng) (out : list (nat * ScheduledTrip)) :
  create_route fuel orders g = Ok out ->
  (exists trips g',
      generate_all_trips fuel (create_pools orders) g = Ok (trips, g') /\
      map (fun e => st_trip (snd e)) out = trips) /\
  Forall (fun e => within_capacity (st_trip (snd e))) out.
Proof.
  intros H.
  destruct (create_route_trips _ _ _ _ H) as (trips & g' & Ha & Et).
  split; [exists trips, g'; split; assumption|].
  apply all_trips_within_capacity in Ha.
  rewrite <- Et in Ha. rewrite Forall_map in Ha. exact Ha.
Qed.

(* ------------------------------------------------------------------ *)
(** ** Truck types *)

Lemma get_best_truck_names v :
  In (fst (get_best_truck v)) truck_names /\
  (AVOID_SMALL_TRUCKS = true ->
   fst (get_best_truck v) <> "Small_Truck"%string).
Proof.
  unfold get_best_truck, truck_names.
  destruct (v <=? SMALL_TRUCK); [destruct AVOID_SMALL_TRUCKS|];
    [| |destruct (v <=? MEDIUM_TRUCK)]; simpl;
    (split; [auto|intros; discriminate]).
Qed.

Lemma emitted_fleet_truck leftovers t grp :
  emitted leftovers t grp -> fleet_truck t.
Proof.
  intros He. unfold fleet_truck.
  destruct He as [i a t Ha Hl | i j a b s st1 st2 Ha Hb Hij Hadm Hst].
  - apply leftover_trip_inv in Hl as (T & _). rewrite T.
    apply get_best_truck_names.
  - destruct Hadm as (s1 & s2 & d1 & d2 & d3 & _ & _ & _ & _ & _ & _ & _ & A8).
    subst s. simpl. apply get_best_truck_names.
Qed.

(** X14: every trip [generate_trips_for_pool] emits names one of the
    three truck types, Big, Medium or Small; and with the flag
    [AVOID_SMALL_TRUCKS] of [test.py] set, none of them names a Small
    truck: a load of at most 3.0 is then given a Medium truck. *)
Theorem trips_truck_types (fuel : nat) (pool : list Orders) (g : rng)
  (trips : list Trip) (g' : rng) :
  generate_trips_for_pool fuel pool g = Ok (trips, g') ->
  Forall fleet_truck trips.
Proof.
  intros H. unfold generate_trips_for_pool in H.
  destruct (prioritize_pool_orders pool g) as [sorted_pool g1].
  apply bind_Ok in H as (st & E & H).
  apply bind_Ok in H as (ts & E0 & H). inversion H; subst ts g1; clear H.
  apply direct_fold_spec in E as (nt & nl & E1 & _ & F1 & _).
  simpl in E1. rewrite E1 in E0.
  apply pair_leftovers_groups in E0 as (new & groups & T & F & _).
  subst trips. apply Forall_app. split.
  - eapply Forall_impl; [|exact F1].
    intros t (o & _ & _ & _ & [[Ty _]|[Ty _]]); unfold fleet_truck;
      rewrite Ty; (split; [simpl; auto|intros _; discriminate]).
  - apply Forall_forall. intros t Ht.
    destruct (Forall2_In_l _ _ _ _ F Ht) as (grp & _ & He).
    apply (emitted_fleet_truck _ _ _ He).
Qed.

(* ------------------------------------------------------------------ *)
(** ** The trip counts of the statistics *)

Lemma count_trip_tally t_type a b c :
  count_trip t_type [("Big_Truck", a); ("Medium_Truck", b); ("Small_Truck", c)]%string
  = [("Big_Truck", if String.eqb "Big_Truck" t_type then S a else a);
     ("Medium_Truck", if String.eqb "Medium_Truck" t_type then S b else b);
     ("Small_Truck", if String.eqb "Small_Truck" t_type then S c else c)]%string.
Proof.
  unfold count_trip. cbn [map fst snd].
  destruct (String.eqb "Big_Truck" t_type),
           (String.eqb "Medium_Truck" t_type),
           (String.eqb "Small_Truck" t_type); reflexivity.
Qed.

Lemma trip_counts_fold routes acc a b c :
  trip_counts acc
  = [("Big_Truck", a); ("Medium_Truck", b); ("Small_Truck", c)]%string ->
  trip_counts (fold_left statistics_step routes acc)
  = [("Big_Truck", a + routes_with "Big_Truck" routes);
     ("Medium_Truck", b + routes_with "Medium_Truck" routes);
     ("Small_Truck", c + routes_with "Small_Truck" routes)]%string%nat.
Proof.
  revert acc a b c.
  induction routes as [|[trip sched] rest IH]; intros acc a b c H.
  - simpl. unfold routes_with. simpl. rewrite !Nat.add_0_r. exact H.
  - cbn [fold_left].
    erewrite IH.
    2:{ unfold statistics_step. cbn [trip_counts]. rewrite H.
        apply count_trip_tally. }
    unfold routes_with. cbn [filter fst].
    rewrite (String.eqb_sym (truck_type trip) "Big_Truck"),
            (String.eqb_sym (truck_type trip) "Medium_Truck"),
            (String.eqb_sym (truck_type trip) "Small_Truck").
    destruct (String.eqb "Big_Truck" (truck_type trip)),
             (String.eqb "Medium_Truck" (truck_type trip)),
             (String.eqb "Small_Truck" (truck_type trip));
      cbn [length]; rewrite ?Nat.add_succ_r; reflexivity.
Qed.

(** X15: the trip counts of [calculate_statistics] count every route
    once, under the truck type it names: the count kept for Big, for
    Medium and for Small trucks is the number of routes of that type;
    a route that names any other type is counted nowhere, and no key is
    ever added to the dictionary. *)
Theorem trip_counts_tally (generated_routes : list Route) :
  trip_counts (totals (calculate_statistics generated_routes))
  = [("Big_Truck", routes_with "Big_Truck" generated_routes);
     ("Medium_Truck", routes_with "Medium_Truck" generated_routes);
     ("Small_Truck", routes_with "Small_Truck" generated_routes)]%string.
Proof.
  unfold calculate_statistics. cbn [totals].
  apply (trip_counts_fold generated_routes totals_init 0 0 0). reflexivity.
Qed.

End Engine.

(* ================================================================== *)
(** * Worked examples *)

Lemma shared_trips_within_lifespan_town :
  (forall a r, atan2_small (sqrt a) (sqrt (1 - a)) = Value r -> (r <? 0) = false) /\
  exists trips,
    pair_leftovers sin_small cos_small atan2_small pow_small false
      town_leftovers [] = Ok trips /\
    map stops trips = [[1; 3]; [4; 2]]%Z /\
    exists new,
      trips = [] ++ new /\
      forall t, In t new -> route_type t = Shared ->
        within_lifespan sin_small cos_small atan2_small pow_small
          town_leftovers t.
Proof.
  assert (H : forall a r, atan2_small (sqrt a) (sqrt (1 - a)) = Value r ->
                          (r <? 0) = false).
  { intros a r E. inversion E. apply sqrt_not_below. }
  split; [exact H|].
  eexists. split; [vm_compute; reflexivity|].
  split; [reflexivity|].
  apply (shared_trips_within_lifespan sin_small cos_small atan2_small pow_small
           false H town_leftovers []).
  vm_compute; reflexivity.
Defined.

(** Two orders of 5.0 m3 each are paired in one Shared trip of 10.0 m3
    that lists both customers: the trips referencing customer 1 carry
    10.0 m3, twice the volume customer 1 ordered. *)
Lemma shared_trip_counts_both_orders :
  exists trips,
    generate_trips_for_pool libm_unary libm_unary libm_binary libm_binary false
      unit draw_low shuffle_id 3
      [order_of 1 5 "C25/30"; order_of 2 5 "C25/30"] tt = Ok (trips, tt) /\
    map stops trips = [[1; 2]%Z] /\
    map route_type trips = [Shared] /\
    referenced_volume 1 trips = 10 /\
    order_volume (order_of 1 5 "C25/30") = 5 /\
    (referenced_volume 1 trips =? order_volume (order_of 1 5 "C25/30")) = false.
Proof.
  eexists. split; [vm_compute; reflexivity|].
  repeat split; vm_compute; reflexivity.
Qed.

Lemma volume_conservation_day :
  (forall g0 l, Permutation (fst (shuffle_id g0 l)) l) /\
  Forall valid_volume day_pool /\
  exists trips,
    generate_trips_for_pool libm_unary libm_unary libm_binary libm_binary false
      unit draw_low shuffle_id 4 day_pool tt = Ok (trips, tt) /\
    conserved day_pool trips.
Proof.
  assert (Hs : forall g0 l, Permutation (fst (shuffle_id g0 l)) l)
    by (intros; apply Permutation_refl).
  assert (Hv : Forall valid_volume day_pool)
    by (repeat constructor; vm_compute; reflexivity).
  split; [exact Hs|]. split; [exact Hv|].
  eexists. split; [vm_compute; reflexivity|].
  apply (volume_conservation libm_unary libm_unary libm_binary libm_binary false
           unit draw_low shuffle_id 4 day_pool tt _ tt Hs Hv).
  vm_compute; reflexivity.
Defined.

Lemma schedule_fleet_first_fit_day :
  exists stf slots,
    assign_all fleet_init day_trips = Ok (stf, slots) /\
    map slot_truck_id slots = [1; 2; 2; 3; 1]%Z /\
    map slot_start slots = [8; 8.25; 8.5; 8.75; 9] /\
    map (fun truck => (ft_id truck, ft_available_at truck)) (fleet stf)
    = [(1%Z, 10); (2%Z, 10.5); (3%Z, 9.25)] /\
    (forall out,
        schedule_fleet round_keep (enumerate day_trips) = Ok out ->
        shows_slots round_keep (enumerate day_trips) slots out) /\
    forall i trip,
      nth_error day_trips i = Some trip ->
      exists st st' slot,
        nth_error slots i = Some slot /\
        plant_ready_time st = clock i /\
        assign_trip st trip = Ok (st', slot) /\
        first_fit st trip st' slot.
Proof.
  destruct (schedule_fleet_first_fit round_keep (enumerate day_trips))
    as (stf & slots & E & _ & Hout & Hstep).
  exists stf, slots.
  change (map snd (enumerate day_trips)) with day_trips in E, Hstep.
  split; [exact E|].
  vm_compute in E. inversion E; subst stf slots; clear E.
  split; [reflexivity|]. split; [reflexivity|]. split; [reflexivity|].
  split; [exact Hout|].
  intros i trip Hi.
  destruct (Hstep i trip Hi) as (st & st' & slot & _ & A2 & A3 & _ & _ & A6 & A7).
  exists st, st', slot. auto.
Defined.

Lemma fleet_is_minimum_day :
  (Z.of_nat (length day_trips) < 2 ^ 50)%Z /\
  (forall i trip, nth_error day_trips i = Some trip -> takes_time i trip) /\
  exists stf slots,
    assign_all fleet_init day_trips = Ok (stf, slots) /\
    map slot_truck_id slots = [1; 2; 2; 3; 1]%Z /\
    forall c : string, minimum_fleet c slots (fleet stf).
Proof.
  assert (B : (Z.of_nat (length day_trips) < 2 ^ 50)%Z)
    by (vm_compute; reflexivity).
  assert (T : forall i trip, nth_error day_trips i = Some trip ->
                             takes_time i trip).
  { intros [|[|[|[|[|i]]]]] trip H; simpl in H;
      try (destruct i; discriminate);
      inversion H; subst trip; reflexivity. }
  split; [exact B|]. split; [exact T|].
  eexists. eexists. split; [vm_compute; reflexivity|].
  split; [reflexivity|].
  apply (fleet_is_minimum day_trips _ _ B T).
  vm_compute; reflexivity.
Defined.

(** A trip that ends before it starts gets a truck of its own, although
    it shares no time with the trip before it: the scheduler creates two
    Big trucks where one truck can serve both trips. *)
Lemma fleet_not_minimum :
  exists stf slots,
    assign_all fleet_init backward_trips = Ok (stf, slots) /\
    map (fun s => (slot_start s, slot_end s)) slots
    = [(8, 9); (8.25, 7.25)] /\
    length (trucks_of "Big_Truck" (fleet stf)) = 2%nat /\
    executable "Big_Truck" slots (fun _ => 1%Z) /\
    ~ minimum_fleet "Big_Truck" slots (fleet stf).
Proof.
  eexists. eexists. split; [vm_compute; reflexivity|].
  split; [reflexivity|]. split; [reflexivity|].
  assert (Ex : executable "Big_Truck"
                 [ {| slot_truck_id := 1; slot_type := "Big_Truck";
                      slot_start := 8; slot_end := 9 |};
                   {| slot_truck_id := 2; slot_type := "Big_Truck";
                      slot_start := 8.25; slot_end := 7.25 |} ]
                 (fun _ => 1%Z)).
  { assert (Em : forall a,
               ~ overlap a {| slot_truck_id := 2; slot_type := "Big_Truck";
                              slot_start := 8.25; slot_end := 7.25 |} /\
               ~ overlap {| slot_truck_id := 2; slot_type := "Big_Truck";
                            slot_start := 8.25; slot_end := 7.25 |} a)
      by (intros a; apply empty_slot_no_overlap; reflexivity).
    intros i j a b Hij Ha Hb _ _ _.
    destruct i as [|[|i]], j as [|[|j]]; simpl in Ha, Hb;
      try (destruct i; discriminate); try (destruct j; discriminate);
      try (exfalso; apply Hij; reflexivity);
      inversion Ha; inversion Hb; subst a b.
    - apply (proj1 (Em _)).
    - apply (proj2 (Em _)). }
  split; [exact Ex|].
  intros (_ & _ & M). specialize (M (fun _ => 1%Z) [1%Z] Ex).
  simpl in M. apply (Nat.nle_succ_diag_l 1). apply M.
  intros i s _ _. left. reflexivity.
Defined.

Lemma pair_step_min_score_town :
  ~ In 0%nat [] /\
  (forall j item_b sc,
      nth_error town_leftovers j = Some item_b ->
      pair_score sin_small cos_small atan2_small pow_small false
        (item_at 1 5 47.70 19.10) item_b = Ok sc ->
      (sc <? infinity) = true) /\
  exists trips' processed',
    pair_step sin_small cos_small atan2_small pow_small false town_leftovers
      ([], []) (0%nat, item_at 1 5 47.70 19.10)
    = Ok (trips', processed') /\
    processed' = [2; 0]%nat /\
    (paired_with_best sin_small cos_small atan2_small pow_small false
       town_leftovers [] [] 0 (item_at 1 5 47.70 19.10) trips' processed' \/
     sent_alone sin_small cos_small atan2_small pow_small
       town_leftovers [] [] 0 (item_at 1 5 47.70 19.10) trips' processed').
Proof.
  assert (Hn : ~ In 0%nat []) by (intros []).
  assert (Hf : forall j item_b sc,
      nth_error town_leftovers j = Some item_b ->
      pair_score sin_small cos_small atan2_small pow_small false
        (item_at 1 5 47.70 19.10) item_b = Ok sc ->
      (sc <? infinity) = true).
  { intros j item_b sc Hj Hs.
    destruct j as [|[|[|[|j]]]]; simpl in Hj;
      try (destruct j; discriminate);
      inversion Hj; subst item_b; vm_compute in Hs; inversion Hs; reflexivity. }
  split; [exact Hn|]. split; [exact Hf|].
  eexists. eexists. split; [vm_compute; reflexivity|].
  split; [reflexivity|].
  apply (pair_step_min_score sin_small cos_small atan2_small pow_small false
           town_leftovers [] [] 0 _ _ _ Hn Hf).
  vm_compute; reflexivity.
Defined.

Lemma trips_within_capacity_day :
  exists trips,
    generate_trips_for_pool libm_unary libm_unary libm_binary libm_binary true
      unit draw_low shuffle_id 4 day_pool tt = Ok (trips, tt) /\
    map volume trips = [12; 7; 6; 7.5] /\
    Forall within_capacity trips.
Proof.
  eexists. split; [vm_compute; reflexivity|].
  split; [reflexivity|].
  apply (trips_within_capacity libm_unary libm_unary libm_binary libm_binary true
           unit draw_low shuffle_id 4 day_pool tt _ tt).
  vm_compute; reflexivity.
Defined.

Lemma create_pools_stable_partition_day :
  one_value_per_object graded_orders /\
  map (map customer_id) (map snd (create_pools graded_orders))
  = [[1; 3]; [2; 5]; [4]]%Z /\
  partitions_stably same_material graded_orders
    (map snd (create_pools graded_orders)) /\
  partitions_stably same_material_test graded_orders
    (map snd (create_pools_test graded_orders)).
Proof.
  assert (W : one_value_per_object graded_orders).
  { intros a b Ha Hb. simpl in Ha, Hb.
    repeat (destruct Ha as [Ha|Ha]; [subst a|]); try contradiction;
      repeat (destruct Hb as [Hb|Hb]; [subst b|]); try contradiction;
      simpl; intros E; solve [reflexivity | discriminate]. }
  split; [exact W|]. split; [reflexivity|].
  exact (create_pools_stable_partition graded_orders W).
Defined.

Lemma prioritize_priority_mode_day :
  (fst (draw_low tt) <? 0.45) = true /\
  map customer_id (fst (prioritize_pool_orders unit draw_low shuffle_id
                          day_pool tt)) = [2; 1; 3; 4]%Z /\
  priority_order day_pool
    (fst (prioritize_pool_orders unit draw_low shuffle_id day_pool tt)).
Proof.
  split; [reflexivity|]. split; [reflexivity|].
  apply (prioritize_priority_mode unit draw_low shuffle_id day_pool tt).
  reflexivity.
Defined.

Lemma calculate_distance_nan_fallback_day :
  is_nan (latitude PLANT_COORDS) || is_nan (longitude PLANT_COORDS) ||
  is_nan (latitude site_unknown) || is_nan (longitude site_unknown) = true /\
  calculate_distance libm_unary libm_unary libm_binary libm_binary
    PLANT_COORDS site_unknown = Ok 50 /\
  forall dist_km : float,
    (is_nan dist_km = true -> get_travel_time dist_km = 1) /\
    (is_nan dist_km = false ->
     get_travel_time dist_km = (dist_km / SPEED_KMH) * 0x1.199999999999ap+0).
Proof.
  split; [reflexivity|].
  apply (calculate_distance_nan_fallback libm_unary libm_unary libm_binary
           libm_binary PLANT_COORDS site_unknown).
  reflexivity.
Defined.

(** An infinite distance is not finite, and its travel time is not the
    1.0 hour fallback: the guards are [math.isnan], which lets
    infinities through.  An infinite latitude is not caught either: it
    reaches [math.sin], which raises [ValueError] on an infinite
    argument. *)
Lemma infinity_not_caught :
  is_finite infinity = false /\
  is_nan infinity = false /\
  get_travel_time infinity = infinity /\
  (get_travel_time infinity =? 1) = false /\
  calculate_distance libm_unary libm_unary libm_binary libm_binary
    {| latitude := infinity; longitude := 0 |} PLANT_COORDS = Raise ValueError.
Proof. repeat split; reflexivity. Qed.

Lemma direct_loop_terminates_day :
  is_finite 20 = true /\
  (20 <? 0x1p53) = true /\
  (iterations_bound 20 + 1 <= 5)%nat /\
  direct_loop libm_unary libm_unary libm_binary libm_binary 5
    (order_of 2 20 "C25/30") 20 [] [] <> OutOfFuel.
Proof.
  assert (B : (iterations_bound 20 + 1 <= 5)%nat)
    by (vm_compute; apply le_n).
  split; [reflexivity|]. split; [reflexivity|]. split; [exact B|].
  apply (direct_loop_terminates libm_unary libm_unary libm_binary libm_binary 5
           (order_of 2 20 "C25/30") 20 [] []); [reflexivity|reflexivity|exact B].
Defined.

(** An order of 1e18 m3, a finite float: subtracting 12.0 from it gives
    1e18 back, the loop never reaches its exit, whatever the fuel and
    whatever the C library. *)
Lemma direct_loop_diverges :
  is_finite 1e18 = true /\
  1e18 - BIG_TRUCK = 1e18 /\
  forall (math_sin math_cos : float -> checked float)
         (math_atan2 float_pow : float -> float -> checked float) (fuel : nat),
    direct_loop math_sin math_cos math_atan2 float_pow fuel
      (order_of 1 1e18 "C25/30") 1e18 [] [] = OutOfFuel.
Proof.
  split; [reflexivity|]. split; [reflexivity|].
  intros. apply direct_loop_stalls. reflexivity.
Qed.

Lemma prioritize_keeps_numbers_gap :
  (forall g0 l, Permutation (fst (shuffle_id g0 l)) l) /\
  map customer_id (fst (prioritize_pool_orders unit draw_high shuffle_id
                          pool_with_gap tt)) = [2; 1]%Z /\
  Permutation (fst (prioritize_pool_orders unit draw_high shuffle_id
                      pool_with_gap tt))
              (filter (fun o => negb (is_nan (order_volume o))) pool_with_gap).
Proof.
  assert (H : forall g0 l, Permutation (fst (shuffle_id g0 l)) l)
    by (intros; apply Permutation_refl).
  split; [exact H|]. split; [reflexivity|].
  apply (prioritize_keeps_numbers unit draw_high shuffle_id pool_with_gap tt H).
Defined.

Lemma statistics_fleet_size_day :
  NoDup (map fst (enumerate day_trips)) /\
  In "Big_Truck"%string truck_names /\
  exists out stf slots,
    schedule_fleet round_keep (enumerate day_trips) = Ok out /\
    assign_all fleet_init (map snd (enumerate day_trips)) = Ok (stf, slots) /\
    length (trucks_of "Big_Truck" (fleet stf)) = 2%nat /\
    lookup "Big_Truck"
      (fleet_sizes (calculate_statistics (routes_of out)))
    = Some (length (trucks_of "Big_Truck" (fleet stf))).
Proof.
  assert (N : NoDup (map fst (enumerate day_trips))).
  { vm_compute. repeat constructor; simpl; intuition discriminate. }
  assert (I : In "Big_Truck"%string truck_names) by (left; reflexivity).
  split; [exact N|]. split; [exact I|].
  eexists. eexists. eexists.
  split; [vm_compute; reflexivity|].
  split; [vm_compute; reflexivity|].
  split; [reflexivity|].
  eapply (statistics_fleet_size round_keep (enumerate day_trips)).
  - exact N.
  - vm_compute; reflexivity.
  - vm_compute; reflexivity.
  - exact I.
Defined.

Lemma schedule_fleet_keeps_trips_day :
  (forall i j r1 r2,
      nth_error (enumerate day_trips) i = Some r1 ->
      nth_error (enumerate day_trips) j = Some r2 ->
      fst r1 = fst r2 -> snd r1 = snd r2) /\
  exists out,
    schedule_fleet round_keep (enumerate day_trips) = Ok out /\
    map (fun e => (fst e, st_trip (snd e))) out = enumerate day_trips /\
    Forall (fun e => duration_h (st_schedule (snd e))
                     = round_keep (duration (st_trip (snd e))) 2) out.
Proof.
  assert (W : forall i j r1 r2,
      nth_error (enumerate day_trips) i = Some r1 ->
      nth_error (enumerate day_trips) j = Some r2 ->
      fst r1 = fst r2 -> snd r1 = snd r2).
  { intros i j r1 r2 Hi Hj E.
    destruct i as [|[|[|[|[|i]]]]]; simpl in Hi;
      try (destruct i; discriminate);
      inversion Hi; subst r1;
      destruct j as [|[|[|[|[|j]]]]]; simpl in Hj;
      try (destruct j; discriminate);
      inversion Hj; subst r2; simpl in E; try discriminate; reflexivity. }
  split; [exact W|].
  eexists. split; [vm_compute; reflexivity|].
  apply (schedule_fleet_keeps_trips round_keep (enumerate day_trips) _ W).
  vm_compute; reflexivity.
Defined.

Lemma schedule_start_times_day :
  NoDup (map fst (enumerate day_trips)) /\
  (Z.of_nat (length (enumerate day_trips)) < 2 ^ 50)%Z /\
  exists out,
    schedule_fleet round_keep (enumerate day_trips) = Ok out /\
    map (fun e => start_time (st_schedule (snd e))) out
    = ["08:00"; "08:15"; "08:30"; "08:45"; "09:00"]%string /\
    forall k e, nth_error out k = Some e ->
                start_time (st_schedule (snd e)) = clock_text k.
Proof.
  assert (N : NoDup (map fst (enumerate day_trips))).
  { vm_compute. repeat constructor; simpl; intuition discriminate. }
  assert (B : (Z.of_nat (length (enumerate day_trips)) < 2 ^ 50)%Z)
    by (vm_compute; reflexivity).
  split; [exact N|]. split; [exact B|].
  eexists. split; [vm_compute; reflexivity|].
  split; [reflexivity|].
  apply (schedule_start_times round_keep (enumerate day_trips) _ N B).
  vm_compute; reflexivity.
Defined.

Lemma schedule_error_times_gap :
  (Z.of_nat (length (enumerate trips_with_gap)) < 2 ^ 50)%Z /\
  exists out,
    schedule_fleet round_keep (enumerate trips_with_gap) = Ok out /\
    map (fun e => end_time (st_schedule (snd e))) out
    = ["09:00"; "ERROR"]%string /\
    Forall (fun e =>
              start_time (st_schedule (snd e)) <> "ERROR"%string /\
              (end_time (st_schedule (snd e)) = "ERROR"%string <->
               is_nan (duration (st_trip (snd e))) = true)) out.
Proof.
  assert (B : (Z.of_nat (length (enumerate trips_with_gap)) < 2 ^ 50)%Z)
    by (vm_compute; reflexivity).
  split; [exact B|].
  eexists. split; [vm_compute; reflexivity|].
  split; [reflexivity|].
  apply (schedule_error_times round_keep (enumerate trips_with_gap) _ B).
  vm_compute; reflexivity.
Defined.

Lemma trips_stops_day :
  (forall g0 l, Permutation (fst (shuffle_id g0 l)) l) /\
  NoDup (map customer_id day_pool) /\
  exists trips,
    generate_trips_for_pool libm_unary libm_unary libm_binary libm_binary false
      unit draw_low shuffle_id 4 day_pool tt = Ok (trips, tt) /\
    map stops trips = [[2]; [2]; [1; 2]; [4; 3]]%Z /\
    Forall (stops_of_kind (map customer_id day_pool)) trips.
Proof.
  assert (Hs : forall g0 l, Permutation (fst (shuffle_id g0 l)) l)
    by (intros; apply Permutation_refl).
  assert (N : NoDup (map customer_id day_pool)).
  { vm_compute. repeat constructor; simpl; intuition discriminate. }
  split; [exact Hs|]. split; [exact N|].
  eexists. split; [vm_compute; reflexivity|].
  split; [reflexivity|].
  apply (trips_stops libm_unary libm_unary libm_binary libm_binary false
           unit draw_low shuffle_id 4 day_pool tt _ tt Hs N).
  vm_compute; reflexivity.
Defined.

Lemma trips_timed_town :
  (forall a r, atan2_small (sqrt a) (sqrt (1 - a)) = Value r -> (r <? 0) = false) /\
  exists trips,
    generate_trips_for_pool sin_small cos_small atan2_small pow_small false
      unit draw_low shuffle_id 4 town_pool tt = Ok (trips, tt) /\
    map route_type trips = [Direct; Direct; Shared; Leftover] /\
    Forall timed trips.
Proof.
  assert (H : forall a r, atan2_small (sqrt a) (sqrt (1 - a)) = Value r ->
                          (r <? 0) = false).
  { intros a r E. inversion E. apply sqrt_not_below. }
  split; [exact H|].
  eexists. split; [vm_compute; reflexivity|].
  split; [reflexivity|].
  apply (trips_timed sin_small cos_small atan2_small pow_small false
           unit draw_low shuffle_id H 4 town_pool tt _ tt).
  vm_compute; reflexivity.
Defined.

Lemma direct_loop_big_first_day :
  is_finite 32.5 = true /\
  (0 <=? 32.5) = true /\
  (32.5 <? 0x1p53) = true /\
  exists trips leftovers,
    direct_loop libm_unary libm_unary libm_binary libm_binary 6
      (order_of 2 32.5 "C25/30") 32.5 [] [] = Ok (trips, leftovers) /\
    map volume trips = [12; 12; 7] /\
    map lo_volume leftovers = [1.5] /\
    map volume trips = full_loads (fval 32.5) /\
    Forall (direct_of (order_of 2 32.5 "C25/30")) trips /\
    map (fun it => fval (lo_volume it)) leftovers
    = (if (0 <? rest_of (fval 32.5))%Z then [rest_of (fval 32.5)] else []) /\
    (rest_of (fval 32.5) < 7 * one)%Z.
Proof.
  split; [reflexivity|]. split; [reflexivity|]. split; [reflexivity|].
  eexists. eexists. split; [vm_compute; reflexivity|].
  split; [reflexivity|]. split; [reflexivity|].
  apply (direct_loop_big_first libm_unary libm_unary libm_binary libm_binary 6
           (order_of 2 32.5 "C25/30") 32.5); reflexivity.
Defined.

Lemma generate_trips_returns_day :
  (forall g0 l, Permutation (fst (shuffle_id g0 l)) l) /\
  Forall (fun o => is_finite (order_volume o) = true /\
                   (order_volume o <? 0x1p53) = true /\
                   (iterations_bound (order_volume o) + 1 <= 5)%nat) day_pool /\
  distance_outcome libm_unary libm_unary libm_binary libm_binary
    (generate_trips_for_pool libm_unary libm_unary libm_binary libm_binary false
       unit draw_low shuffle_id 5 day_pool tt).
Proof.
  assert (Hs : forall g0 l, Permutation (fst (shuffle_id g0 l)) l)
    by (intros; apply Permutation_refl).
  assert (Hp : Forall (fun o => is_finite (order_volume o) = true /\
                   (order_volume o <? 0x1p53) = true /\
                   (iterations_bound (order_volume o) + 1 <= 5)%nat) day_pool).
  { unfold day_pool.
    repeat (apply Forall_cons;
            [split; [reflexivity|split; [reflexivity|vm_compute; lia]]|]).
    apply Forall_nil. }
  split; [exact Hs|]. split; [exact Hp|].
  apply (generate_trips_returns libm_unary libm_unary libm_binary libm_binary
           false unit draw_low shuffle_id 5 day_pool tt Hs Hp).
Defined.

Lemma create_route_serves_day :
  (forall g0 l, Permutation (fst (shuffle_id g0 l)) l) /\
  (exists out,
      create_route libm_unary libm_unary libm_binary libm_binary false
        unit draw_low shuffle_id round_keep 5 exposed_orders tt = Ok out /\
      map (fun e => stops (st_trip (snd e))) out = [[1]; [2]]%Z) /\
  exists out,
    create_route_test libm_unary libm_unary libm_binary libm_binary true
      unit draw_low shuffle_id round_keep 5 exposed_orders tt = Ok out /\
    map (fun e => stops (st_trip (snd e))) out = [[1; 2]]%Z /\
    forall o, In o exposed_orders -> (0 <? order_volume o) = true ->
      exists e, In e out /\ In (customer_id o) (stops (st_trip (snd e))).
Proof.
  assert (Hs : forall g0 l, Permutation (fst (shuffle_id g0 l)) l)
    by (intros; apply Permutation_refl).
  split; [exact Hs|].
  split; [eexists; split; [vm_compute; reflexivity|reflexivity]|].
  eexists. split; [vm_compute; reflexivity|].
  split; [reflexivity|].
  apply (create_route_serves libm_unary libm_unary libm_binary libm_binary true
           unit draw_low shuffle_id round_keep 5 exposed_orders tt _ Hs).
  right. vm_compute; reflexivity.
Defined.

Lemma create_route_within_capacity_day :
  exists out,
    create_route libm_unary libm_unary libm_binary libm_binary false
      unit draw_low shuffle_id round_keep 5 day_orders tt = Ok out /\
    (exists trips g',
        generate_all_trips libm_unary libm_unary libm_binary libm_binary false
          unit draw_low shuffle_id 5
          (create_pools day_orders) tt = Ok (trips, g') /\
        map (fun e => st_trip (snd e)) out = trips) /\
    Forall (fun e => within_capacity (st_trip (snd e))) out.
Proof.
  eexists. split; [vm_compute; reflexivity|].
  apply (create_route_within_capacity libm_unary libm_unary libm_binary
           libm_binary false unit draw_low shuffle_id round_keep 5 day_orders tt).
  vm_compute; reflexivity.
Defined.

Lemma trips_truck_types_day :
  exists trips,
    generate_trips_for_pool libm_unary libm_unary libm_binary libm_binary true
      unit draw_low shuffle_id 5 day_pool tt = Ok (trips, tt) /\
    map truck_type trips
    = ["Big_Truck"; "Medium_Truck"; "Medium_Truck"; "Big_Truck"]%string /\
    Forall (fleet_truck true) trips.
Proof.
  eexists. split; [vm_compute; reflexivity|].
  split; [reflexivity|].
  apply (trips_truck_types libm_unary libm_unary libm_binary libm_binary true
           unit draw_low shuffle_id 5 day_pool tt _ tt).
  vm_compute; reflexivity.
Defined.
